(** * Dither stackers of [mafContrib/newDitherStackers.py]

    A shallow embedding of the offset generators, the assignment loops and
    the coordinate wrap of the sixteen dither stackers, together with the
    properties their description states about them.

    Conventions of the embedding.
    - numpy float arrays are lists of real numbers ([R]); rounding is not
      modelled.
    - draws of [np.random.rand] are rationals in [[0,1)] ([Q]): a float64 is
      a dyadic rational.  The generator state is explicit.
    - integer columns (field ids, nights, seasons) are lists of [Z];
      positions inside an array are [nat].
    - a Python exception is the [Raise] branch of [result]. *)

From Stdlib Require Import ZArith List Sorted Bool Lia Arith QArith Qround.
From Stdlib Require Import Reals Lra Qreals.
Import ListNotations.

Set Implicit Arguments.

(** ** Exceptions and the error monad *)

Inductive exn : Type :=
| NameError        (* the undefined name [stop] is evaluated *)
| AttributeError   (* [self.xOff] is read before it was ever assigned *)
| ValueError       (* shapes that do not broadcast, or a sequence stored in a cell *)
| IndexError       (* an array is read past its end *)
| ZeroDivision.    (* [a % 0] or [a / 0] on Python numbers *)

Inductive result (A : Type) : Type :=
| Ok (a : A)
| Raise (e : exn).

Arguments Ok {A} a.
Arguments Raise {A} e.

Definition bind {A B : Type} (m : result A) (k : A -> result B) : result B :=
  match m with
  | Ok a => k a
  | Raise e => Raise e
  end.

Notation "x <- m ;; k" := (bind m (fun x => k))
  (at level 61, m at next level, right associativity).

Fixpoint mapM {A B : Type} (f : A -> result B) (l : list A) : result (list B) :=
  match l with
  | [] => Ok []
  | a :: t => b <- f a ;; bs <- mapM f t ;; Ok (b :: bs)
  end.

(** ** numpy on integer columns *)

Module Np.

(** Insertion in a strictly increasing list; a value already there is kept once. *)
Fixpoint insert_uniq (v : Z) (l : list Z) : list Z :=
  match l with
  | [] => [v]
  | a :: t =>
      if (v <? a)%Z then v :: a :: t
      else if (v =? a)%Z then a :: t
      else a :: insert_uniq v t
  end.

(** [np.unique(a)]: the sorted distinct values of [a]. *)
Definition unique (a : list Z) : list Z :=
  fold_right insert_uniq [] a.

(** [np.where(p(a))[0]]: the positions whose entry satisfies [p], ascending. *)
Fixpoint where_from {A : Type} (p : A -> bool) (a : list A) (i : nat) : list nat :=
  match a with
  | [] => []
  | x :: t => if p x then i :: where_from p t (S i) else where_from p t (S i)
  end.

Definition where_ {A : Type} (p : A -> bool) (a : list A) : list nat :=
  where_from p a 0.

(** [np.searchsorted(s, v)] (side left): the first position of [s] whose
    entry is not below [v]. *)
Fixpoint searchsorted1 (s : list Z) (v : Z) : nat :=
  match s with
  | [] => 0
  | a :: t => if (a <? v)%Z then S (searchsorted1 t v) else 0
  end.

Definition searchsorted (s vs : list Z) : list nat :=
  map (searchsorted1 s) vs.

(** [a[idx]] for an index array [idx] (all positions are in range where the
    stackers use it: they come from [where_] on a column of the same batch). *)
Definition take {A : Type} (d : A) (a : list A) (idx : list nat) : list A :=
  map (fun i => nth i a d) idx.

(** [a[i] = v]. *)
Fixpoint set_nth {A : Type} (a : list A) (i : nat) (v : A) : list A :=
  match a, i with
  | [], _ => []
  | _ :: t, O => v :: t
  | x :: t, S j => x :: set_nth t j v
  end.

(** [a[idx] = vs] for an index array [idx] and as many values. *)
Fixpoint put {A : Type} (a : list A) (idx : list nat) (vs : list A) : list A :=
  match idx, vs with
  | i :: idx', v :: vs' => put (set_nth a i v) idx' vs'
  | _, _ => a
  end.

(** [v % n] on numpy integers: a zero divisor gives 0 (with a warning). *)
Definition mod_ (v n : nat) : nat :=
  if (n =? 0)%nat then 0%nat else (v mod n)%nat.

(** [np.arange(0, n, 1)]. *)
Definition arange (n : nat) : list nat := seq 0 n.

End Np.

(** ** Season wrap of the season-keyed stackers

    The seasons come from the external [SeasonStacker]; the stackers only
    read its [season] column, which is an input here. *)

Module Season.

(** [ind = np.where(seasons > 9)[0]]. *)
Definition ind (seasons : list Z) : list nat :=
  Np.where_ (fun s => (9 <? s)%Z) seasons.

(** [seasons[ind] = seasons[ind] % 10]. *)
Definition wrap (seasons : list Z) : list Z :=
  Np.put seasons (ind seasons)
         (map (fun s => (s mod 10)%Z) (Np.take 0%Z seasons (ind seasons))).

(** What the wrap does to one season label. *)
Definition wrap_label (s : Z) : Z := if (9 <? s)%Z then (s mod 10)%Z else s.

(** The guard of [PentagonDitherFieldPerSeasonStacker.run],
    [PentagonDiamondDitherFieldPerSeasonStacker.run] and
    [PentagonDiamondDitherPerSeasonStacker.run]:
    more than one distinct season above 9 evaluates [stop]. *)
Definition checked_wrap (seasons : list Z) : result (list Z) :=
  if (1 <? length (Np.unique (Np.take 0%Z seasons (ind seasons))))%nat
  then Raise NameError
  else Ok (wrap seasons).

(** [PentagonDitherPerSeasonStacker.run]: the guard is commented out, the
    wrap is applied whatever the number of distinct seasons above 9. *)
Definition unchecked_wrap (seasons : list Z) : result (list Z) :=
  Ok (wrap seasons).

End Season.

(** ** Vertex indices of the assignment loops *)

Module Assign.

(** One turn of the field loop of [RandomDitherFieldPerNightStacker.run] and
    [RepulsiveRandomDitherFieldPerNightStacker.run], up to the vertex indices:
    [delta] is the running counter, [nOff] is [len(self.xOff)].  The first
    [vertexIdxs] (the one shifted by [delta]) is overwritten by the night
    ranks before it is used. *)
Definition randomFieldPerNight_step
    (fieldIdCol nightCol : list Z) (nOff : nat) (delta : nat) (fieldid : Z)
  : nat * (list nat * list nat) :=
  let match_ := Np.where_ (fun f => (f =? fieldid)%Z) fieldIdCol in
  let vertexIdxs := map (fun i => (i + delta)%nat) (Np.arange (length match_)) in
  let delta := (delta + length vertexIdxs)%nat in
  let nights := Np.take 0%Z nightCol match_ in
  let vertexIdxs := Np.searchsorted (Np.unique nights) nights in
  let vertexIdxs := map (fun v => Np.mod_ v nOff) vertexIdxs in
  (delta, (match_, vertexIdxs)).

(** The whole field loop: for each field of [fields], in order, the rows of
    the field and the vertex index of each row; [delta] is threaded. *)
Fixpoint randomFieldPerNight_loop
    (fieldIdCol nightCol : list Z) (nOff : nat) (delta : nat) (fields : list Z)
  : list (Z * (list nat * list nat)) :=
  match fields with
  | [] => []
  | f :: fs =>
      let '(delta', a) := randomFieldPerNight_step fieldIdCol nightCol nOff delta f in
      (f, a) :: randomFieldPerNight_loop fieldIdCol nightCol nOff delta' fs
  end.

(** [delta = 0; for fieldid in np.unique(simData[fieldIdCol]): ...] *)
Definition randomFieldPerNight (fieldIdCol nightCol : list Z) (nOff : nat)
  : list (Z * (list nat * list nat)) :=
  randomFieldPerNight_loop fieldIdCol nightCol nOff 0 (Np.unique fieldIdCol).

(** The offset indices a run reads for each field. *)
Definition indicesPerField (fieldIdCol nightCol : list Z) (nOff : nat)
  : list (Z * list nat) :=
  map (fun fa => (fst fa, snd (snd fa))) (randomFieldPerNight fieldIdCol nightCol nOff).

(** The rows of each field, as every field loop selects them:
    [for fieldid in np.unique(simData[fieldIdCol])] with
    [match = np.where(simData[fieldIdCol] == fieldid)[0]]. *)
Definition rowsPerField (fieldIdCol : list Z) : list (Z * list nat) :=
  map (fun fieldid => (fieldid, Np.where_ (fun f => (f =? fieldid)%Z) fieldIdCol))
      (Np.unique fieldIdCol).

(** Field loop of the stackers whose vertex is the rank of a key (night or
    season) among the field's own keys: [SpiralDitherFieldPerNight],
    [SequentialHexDitherFieldPerNight], [PentagonDitherFieldPerSeason],
    [PentagonDiamondDitherFieldPerSeason]. *)
Definition fieldPerKey (fieldIdCol keyCol : list Z) (nOff : nat)
  : list (Z * (list nat * list nat)) :=
  map (fun fieldid =>
         let match_ := Np.where_ (fun f => (f =? fieldid)%Z) fieldIdCol in
         let keys := Np.take 0%Z keyCol match_ in
         let vertexIdxs := Np.searchsorted (Np.unique keys) keys in
         (fieldid, (match_, map (fun v => Np.mod_ v nOff) vertexIdxs)))
      (Np.unique fieldIdCol).

(** Field loop of the per-visit sequential stackers
    ([SpiralDitherFieldPerVisit], [SequentialHexDitherFieldPerVisit]):
    the k-th visit of a field takes vertex [k % numPoints]. *)
Definition fieldPerVisit (fieldIdCol : list Z) (numPoints : nat)
  : list (Z * (list nat * list nat)) :=
  map (fun fieldid =>
         let match_ := Np.where_ (fun f => (f =? fieldid)%Z) fieldIdCol in
         let vertexIdxs := Np.arange (length match_) in
         (fieldid, (match_, map (fun v => Np.mod_ v numPoints) vertexIdxs)))
      (Np.unique fieldIdCol).

(** Loop over the distinct keys (nights or seasons) of the whole batch with a
    running [vertexID]: [vertexID = vertexID % n; ...; vertexID += 1].  Both
    operands of [%] are Python integers here, so with [n = 0] the first turn
    of the loop raises [ZeroDivisionError]. *)
Fixpoint perKey_loop (keyCol : list Z) (n : nat) (vertexID : nat) (keys : list Z)
  : result (list (Z * (list nat * nat))) :=
  match keys with
  | [] => Ok []
  | k :: ks =>
      let match_ := Np.where_ (fun x => (x =? k)%Z) keyCol in
      if (n =? 0)%nat then Raise ZeroDivision
      else
        let vertexID := (vertexID mod n)%nat in
        rest <- perKey_loop keyCol n (S vertexID) ks ;;
        Ok ((k, (match_, vertexID)) :: rest)
  end.

Definition perKey (keyCol : list Z) (n : nat) : result (list (Z * (list nat * nat))) :=
  perKey_loop keyCol n 0 (Np.unique keyCol).

End Assign.

(** ** Geometry on real numbers *)

Module Geometry.

Local Open Scope R_scope.

Definition Rltb (x y : R) : bool := if Rlt_dec x y then true else false.
Definition Rleb (x y : R) : bool := if Rle_dec x y then true else false.
Definition Reqb (x y : R) : bool := if Req_dec_T x y then true else false.

(** [x % m] for a positive [m], as a real number: [x - floor(x/m)*m], in
    [[0, m)].  The float remainder is this value rounded, which for a tiny
    negative [x] is the float nearest to [m], itself below the real [m]. *)
Definition fmod (x m : R) : R := x - IZR (Int_part (x / m)) * m.

(** [wrapRA(ra)]: [ra % (2.0*np.pi)] on every entry. *)
Definition wrapRA (ra : list R) : list R := map (fun r => fmod r (2 * PI)) ra.

(** One entry of [wrapRADec]: the rows with [dec < -pi/2] are reflected
    first, then the rows whose (possibly updated) [dec] exceeds [pi/2], and
    the RA is reduced modulo [2 pi] last. *)
Definition wrap1 (ra dec : R) : R * R :=
  let '(ra, dec) :=
    if Rltb dec (- PI / 2) then (ra - PI, -1 * (PI + dec)) else (ra, dec) in
  let '(ra, dec) :=
    if Rltb (PI / 2) dec then (ra - PI, PI - dec) else (ra, dec) in
  (fmod ra (2 * PI), dec).

Definition wrapPair (p : R * R) : R * R := wrap1 (fst p) (snd p).

(** [wrapRADec(ra, dec)] on two columns of one batch (equal lengths). *)
Definition wrapRADec (ra dec : list R) : list R * list R :=
  List.split (map wrapPair (combine ra dec)).

(** The ranges of a wrapped right ascension and declination. *)
Definition raRange (ra : R) : Prop := 0 <= ra < 2 * PI.
Definition decRange (dec : R) : Prop := - PI / 2 <= dec <= PI / 2.

(** The flat-top hexagon of the generators:
    [b = sqrt(3)*maxDither], [m = sqrt(3)], [h = maxDither*sqrt(3)/2]. *)
Definition hex_b (maxDither : R) : R := sqrt 3 * maxDither.
Definition hex_m : R := sqrt 3.
Definition hex_h (maxDither : R) : R := maxDither * sqrt 3 / 2.

(** The six strict half planes (test of [_generateRandomOffsets]). *)
Definition insideHex (maxDither x y : R) : Prop :=
  y < hex_m * x + hex_b maxDither /\
  y > hex_m * x - hex_b maxDither /\
  y < - hex_m * x + hex_b maxDither /\
  y > - hex_m * x - hex_b maxDither /\
  y < hex_h maxDither /\
  y > - hex_h maxDither.

Definition insideHexb (maxDither x y : R) : bool :=
  Rltb y (hex_m * x + hex_b maxDither) &&
  Rltb (hex_m * x - hex_b maxDither) y &&
  Rltb y (- hex_m * x + hex_b maxDither) &&
  Rltb (- hex_m * x - hex_b maxDither) y &&
  Rltb y (hex_h maxDither) &&
  Rltb (- hex_h maxDither) y.

(** The six closed half planes (test of [_generateRepRandomOffsets], applied
    to tile centres). *)
Definition insideHexClosed (maxDither x y : R) : Prop :=
  y <= hex_m * x + hex_b maxDither /\
  y >= hex_m * x - hex_b maxDither /\
  y <= - hex_m * x + hex_b maxDither /\
  y >= - hex_m * x - hex_b maxDither /\
  y <= hex_h maxDither /\
  y >= - hex_h maxDither.

(** The direction on the sky of the coordinates [(ra, dec)], as a unit
    vector. *)
Definition direction (ra dec : R) : R * R * R :=
  (cos dec * cos ra, cos dec * sin ra, sin dec).

(** Squared distance of an offset from the centre. *)
Definition sqnorm (p : R * R) : R := fst p * fst p + snd p * snd p.

(** [polygonCoords(nside, radius, rotationAngle)]; [2*np.pi/nside] divides
    Python numbers and raises on [nside = 0]. *)
Definition polygonCoords (nside : nat) (radius rotationAngle : R)
  : result (list (R * R)) :=
  if (nside =? 0)%nat then Raise ZeroDivision
  else
    let eachAngle := 2 * PI / INR nside in
    Ok (map (fun i => (sin (eachAngle * INR i + rotationAngle) * radius,
                       cos (eachAngle * INR i + rotationAngle) * radius))
            (seq 0 nside)).

(** [a[i:j]] on a Python list. *)
Definition slice {A : Type} (a : list A) (i j : nat) : list A :=
  firstn (j - i) (skipn i a).

End Geometry.

(** ** Uniform random offsets in the hexagon *)

Module RandomGen.

Import Geometry.
Local Open Scope R_scope.

(** One candidate point of [_generateRandomOffsets], from a draw [u] for the
    radius and a draw [v] for the angle. *)
Definition candidate (maxDither : R) (u v : Q) : R * R :=
  let dithersRad := sqrt (Q2R u) * maxDither in
  let dithersTheta := Q2R v * PI * 2 in
  (dithersRad * cos dithersTheta, dithersRad * sin dithersTheta).

(** The candidate points: [u] and [v] are the two calls of
    [np.random.rand(numPoints)]. *)
Definition candidates (maxDither : R) (u v : list Q) : list (R * R) :=
  map (fun p => candidate maxDither (fst p) (snd p)) (combine u v).

(** [_generateRandomOffsets(noffsets)] given the two draws: [Some] of the new
    [(xOff, yOff)] when enough candidates are inside the hexagon; [None] when
    the function only prints its PROBLEM lines and assigns nothing. *)
Definition generateRandomOffsets (maxDither : R) (noffsets : nat) (u v : list Q)
  : option (list R * list R) :=
  let pts := candidates maxDither u v in
  let index := Np.where_ (fun p => insideHexb maxDither (fst p) (snd p)) pts in
  if (length index <? noffsets)%nat then None
  else
    let sel := Np.take (0, 0) pts (slice index 0 noffsets) in
    Some (map fst sel, map snd sel).

End RandomGen.

(** ** Pentagon and pentagon-diamond vertices *)

Module Polygon.

Import Geometry.
Local Open Scope R_scope.

(** [PentagonDitherFieldPerSeasonStacker._generatePentagonOffsets]:
    [outer[0:3] = outerTemp[2:5]] on the empty list, then
    [outer[4:6] = outerTemp[0:2]] past its end, which appends. *)
Definition generatePentagonOffsets (maxDither : R) : result (list R * list R) :=
  let nside := 5%nat in
  inner <- polygonCoords nside (maxDither / 2.5) 0 ;;
  outerTemp <- polygonCoords nside (maxDither / 1.3) PI ;;
  let outer := slice outerTemp 2 5 ++ slice outerTemp 0 2 in
  Ok (map fst inner ++ map fst outer, map snd inner ++ map snd outer).

(** [PentagonDiamondDitherFieldPerSeasonStacker._generateOffsets]. *)
Definition generateOffsets (maxDither : R) : result (list R * list R) :=
  pentCoord <- polygonCoords 5 (maxDither / 1.3) 0 ;;
  diamondCoord <- polygonCoords 4 (maxDither / 2.5) (PI / 2) ;;
  Ok ([0] ++ map fst diamondCoord ++ map fst pentCoord,
      [0] ++ map snd diamondCoord ++ map snd pentCoord).

End Polygon.

(** ** Repulsive random offsets in the hexagon

    The tile centres are multiples of half a tile side: a centre is stored as
    the integer [c] that stands for the float [c * tileSide / 2].  The source
    copies the centre of a column (of a row) from tile to tile, so two stored
    floats are equal exactly when their integers are. *)

Module RepRandom.

Local Open Scope Z_scope.

Definition ceil_sqrt (n : Z) : Z :=
  let s := Z.sqrt n in if s * s =? n then s else s + 1.

(** [np.sqrt(numTiles)], with [numTiles = (np.ceil(np.sqrt(noffsets))+170)**2]. *)
Definition side (noffsets : nat) : Z := ceil_sqrt (Z.of_nat noffsets) + 170.
Definition numTiles (noffsets : nat) : Z := side noffsets ^ 2.

(** The [while (k < numTiles-1)] loop that fills [xCenter]; [k] is the last
    filled position, [xCenter] the filled prefix.  One step right is
    [+ tileSide], that is [+2] half tiles. *)
Fixpoint fillX (fuel : nat) (sd nTiles : Z) (xCenter : list Z) (temparr : list nat)
  : list Z :=
  match fuel with
  | O => xCenter
  | S fuel' =>
      let k := Z.of_nat (length xCenter) - 1 in
      if k <? nTiles - 1 then
        if k <? sd - 1 then
          fillX fuel' sd nTiles (xCenter ++ [last xCenter 0 + 2])
                (temparr ++ [Z.to_nat (k + 1)])
        else
          fillX fuel' sd nTiles
                (xCenter ++ map (fun m => nth m xCenter 0) temparr) temparr
      else xCenter
  end.

(** The [while (i<numTiles)] loop that fills [yCenter] row by row. *)
Fixpoint fillY (fuel : nat) (sd nTiles : Z) (yCenter : list Z) : list Z :=
  match fuel with
  | O => yCenter
  | S fuel' =>
      let i := Z.of_nat (length yCenter) in
      if i <? nTiles then
        let y := if i =? 0 then sd - 1 else last yCenter 0 - 2 in
        fillY fuel' sd nTiles (yCenter ++ repeat y (Z.to_nat sd))
      else yCenter
  end.

Definition xCenters (noffsets : nat) : list Z :=
  let sd := side noffsets in
  fillX (Z.to_nat (numTiles noffsets)) sd (numTiles noffsets) [- (sd - 1)] [0%nat].

Definition yCenters (noffsets : nat) : list Z :=
  let sd := side noffsets in
  fillY (Z.to_nat (numTiles noffsets)) sd (numTiles noffsets) [].

(** [p <= sqrt(3) * q] on integers, decided on the squares. *)
Definition le_sqrt3 (p q : Z) : bool :=
  if 0 <=? q then (p <=? 0) || (p * p <=? 3 * (q * q))
  else (p <=? 0) && (3 * (q * q) <=? p * p).

(** The six closed half planes on a tile centre [(x, y)], in half tiles, where
    [maxDither] is [sd] half tiles. *)
Definition insideHexTile (sd : Z) (x y : Z) : bool :=
  le_sqrt3 y (x + sd) &&          (* yCenter <= m*xCenter+b *)
  le_sqrt3 (- y) (sd - x) &&      (* yCenter >= m*xCenter-b *)
  le_sqrt3 y (sd - x) &&          (* yCenter <= -m*xCenter+b *)
  le_sqrt3 (- y) (x + sd) &&      (* yCenter >= -m*xCenter-b *)
  le_sqrt3 (2 * y) sd &&          (* yCenter <= h *)
  le_sqrt3 (- (2 * y)) sd.        (* yCenter >= -h *)

(** [list(tempX[insideHex])], [list(tempY[insideHex])]: the centres that pass
    the test, in array order. *)
Definition pool (noffsets : nat) : list Z * list Z :=
  let sd := side noffsets in
  let kept := filter (fun c => insideHexTile sd (fst c) (snd c))
                     (combine (xCenters noffsets) (yCenters noffsets)) in
  (map fst kept, map snd kept).

(** Python's [l.remove(v)]: the first entry equal to [v] is dropped. *)
Fixpoint list_remove (v : Z) (l : list Z) : list Z :=
  match l with
  | [] => []
  | a :: t => if a =? v then t else a :: list_remove v t
  end.

Definition nthE {A : Type} (i : nat) (l : list A) : result A :=
  match nth_error l i with
  | Some a => Ok a
  | None => Raise IndexError
  end.

(** One emitted point: the centre read at [randIndex] and the two draws that
    place the point in the square. *)
Record point : Type := Point { cx : Z; cy : Z; ux : Q; uy : Q }.

(** The centre of a point has the abscissa of a tile of [xCenter] and the
    ordinate of a tile of [yCenter]. *)
Definition fromPool (xCenter yCenter : list Z) (p : point) : Prop :=
  In (cx p) xCenter /\ In (cy p) yCenter.

(** The [for q in range(0, noffsets)] loop.  When [randIndex] is past the end
    of the pool the inner [while] never changes it and runs [index_sq] to the
    end of the draws, where [stop] is evaluated. *)
Fixpoint pick (n : nat) (xCenter yCenter : list Z) (numPointsInsideHex : Z)
         (randNumsForLatticeSq randNumsForPointInSq : list Q)
         (index_sq index_pt : nat) : result (list point) :=
  match n with
  | O => Ok []
  | S n' =>
      u <- nthE index_sq randNumsForLatticeSq ;;
      let randIndex := Qfloor (u * inject_Z numPointsInsideHex) in
      if Z.of_nat (length xCenter) - 1 <? randIndex then Raise NameError
      else
        let index_sq := S index_sq in
        x <- nthE (Z.to_nat randIndex) xCenter ;;
        y <- nthE (Z.to_nat randIndex) yCenter ;;
        px <- nthE index_pt randNumsForPointInSq ;;
        py <- nthE (S index_pt) randNumsForPointInSq ;;
        let xCenter := list_remove x xCenter in
        let yCenter := list_remove y yCenter in
        rest <- pick n' xCenter yCenter (numPointsInsideHex - 1)
                     randNumsForLatticeSq randNumsForPointInSq
                     index_sq (S (S index_pt)) ;;
        Ok (Point x y px py :: rest)
  end.

(** [_generateRepRandomOffsets(noffsets)] up to the scaling: [sq] is
    [np.random.rand(noffsets*3)], [pt] is [np.random.rand(noffsets*2)]. *)
Definition generateTiles (noffsets : nat) (sq pt : list Q) : result (list point) :=
  let '(xCenter, yCenter) := pool noffsets in
  let numPointsInsideHex := Z.of_nat (length xCenter) in
  if numPointsInsideHex <? Z.of_nat noffsets then Raise NameError
  else pick noffsets xCenter yCenter numPointsInsideHex sq pt 0 0.

Local Open Scope R_scope.

(** [tileSide = squareSide / np.sqrt(numTiles)], [squareSide = maxDither*2]. *)
Definition tileSide (maxDither : R) (noffsets : nat) : R :=
  maxDither * 2 / sqrt (IZR (numTiles noffsets)).

(** [center + (rand - 0.5) * tileSide]. *)
Definition offset (maxDither : R) (noffsets : nat) (c : Z) (u : Q) : R :=
  IZR c * (tileSide maxDither noffsets / 2)
  + (Q2R u - 0.5) * tileSide maxDither noffsets.

Definition generateRepRandomOffsets (maxDither : R) (noffsets : nat) (sq pt : list Q)
  : result (list R * list R) :=
  pts <- generateTiles noffsets sq pt ;;
  Ok (map (fun p => offset maxDither noffsets (cx p) (ux p)) pts,
      map (fun p => offset maxDither noffsets (cy p) (uy p)) pts).

End RepRandom.

(** ** Equidistant spiral *)

Module Spiral.

Import Geometry.
Local Open Scope R_scope.

(** The least integer not below [x]. *)
Definition Rceil (x : R) : Z := (- Int_part (- x))%Z.

(** [np.arange(start, stop, step)] on floats: [ceil((stop-start)/step)]
    values [start + k*step]. *)
Definition arangeR (start stop step : R) : list R :=
  map (fun k => start + INR k * step)
      (seq 0 (Z.to_nat (Rceil ((stop - start) / step)))).

(** [a.max()] and [a.min()] of a non-empty array. *)
Definition Rmaxl (l : list R) : R := fold_right Rmax (hd 0 l) l.
Definition Rminl (l : list R) : R := fold_right Rmin (hd 0 l) l.

(** Arc length of the spiral [r = a*theta] from the centre. *)
Definition arclen (a theta : R) : R :=
  a / 2 * (theta * sqrt (1 + theta ^ 2) + ln (theta + sqrt (1 + theta ^ 2))).

(** The body of [for i, ap in enumerate(arcpts)]: the samples nearest to
    [ap]; a single one is stored, anything else cannot be stored in the cell
    [rpts[i]]. *)
Definition nearest (r theta arc : list R) (ap : R) : result (R * R) :=
  let diff := map (fun x => Rabs (x - ap)) arc in
  let match_ := Np.where_ (fun d => Reqb d (Rminl diff)) diff in
  match match_ with
  | [m] => Ok (nth m r 0, nth m theta 0)
  | _ => Raise ValueError
  end.

(** [SpiralDitherFieldPerVisitStacker._generateSpiralOffsets]. *)
Definition generateSpiralOffsets (maxDither : R) (numPoints : nat) (nCoils : R)
  : result (list R * list R) :=
  let theta := arangeR 0.0001 (nCoils * PI * 2) 0.001 in
  match theta with
  | [] => Raise ValueError       (* [theta.max()] of an empty array *)
  | _ =>
      let a := 0.85 * maxDither / Rmaxl theta in
      let r := map (fun t => t * a) theta in
      let arc := map (arclen a) theta in
      let stepsize := Rmaxl arc / INR numPoints in
      let arcpts := slice (arangeR 0 (Rmaxl arc) stepsize) 0 numPoints in
      found <- mapM (nearest r theta arc) arcpts ;;
      (* [rpts], [thetapts] start as zeros; the loop fills one cell per target *)
      let pts := found ++ repeat (0, 0) (numPoints - length arcpts) in
      Ok (map (fun p => fst p * cos (snd p)) pts,
          map (fun p => fst p * sin (snd p)) pts)
  end.

(** Distance of an offset from the centre. *)
Definition radius (x y : R) : R := sqrt (x * x + y * y).

Definition radii (xOff yOff : list R) : list R :=
  map (fun p => radius (fst p) (snd p)) (combine xOff yOff).

End Spiral.

(** ** Sequential hexagonal grid *)

Module HexGrid.

Local Open Scope Z_scope.

Definition dith_level : Z := 4.
Definition nrows : Z := 2 ^ dith_level.
Definition halfrows : Z := nrows / 2.

(** [np.arange(lo, hi, 1)] on integers. *)
Definition arangeZ (lo hi : Z) : list Z :=
  map (fun k => lo + Z.of_nat k) (seq 0 (Z.to_nat (hi - lo))).

(** Position read or written by [a[i]]: a negative [i] counts from the end. *)
Definition pyindex {A : Type} (a : list A) (i : Z) : nat :=
  if i <? 0 then Z.to_nat (Z.of_nat (length a) + i) else Z.to_nat i.

Definition nid_row : list Z := arangeZ (- halfrows) (halfrows + 1).

(** The first loop, [for i in range(-halfrows, halfrows+1, 1)]: it fills
    [vert_in_row] through negative and positive positions and sums it. *)
Definition count_step (st : list Z * Z) (i : Z) : list Z * Z :=
  let '(vert_in_row, total_vert) := st in
  let v := (nrows + 1) - Z.abs (nth (pyindex nid_row i) nid_row 0) in
  let vert_in_row := Np.set_nth vert_in_row (pyindex vert_in_row i) v in
  (vert_in_row, total_vert + nth (pyindex vert_in_row i) vert_in_row 0).

Definition counted : list Z * Z :=
  fold_left count_step (arangeZ (- halfrows) (halfrows + 1))
            (arangeZ (- halfrows) (halfrows + 1), 0).

Definition vert_in_row : list Z := fst counted.
Definition numPoints : Z := snd counted.

Local Open Scope R_scope.

Definition dith_size_x (maxDither : R) : R := 0.95 * maxDither * 2.0 / IZR nrows.
Definition dith_size_y (maxDither : R) : R := 0.95 * sqrt 3 * maxDither / IZR nrows.

(** The points appended for row [i] of the second loop. *)
Definition row (maxDither : R) (i : Z) : list (R * R) :=
  let v := nth (Z.to_nat i) vert_in_row 0%Z in
  map (fun j => (dith_size_x maxDither * (IZR j - (IZR v - 1) / 2.0),
                 dith_size_y maxDither * IZR (nth (Z.to_nat i) nid_row 0%Z)))
      (arangeZ 0 v).

(** [SequentialHexDitherFieldPerVisitStacker._generateHexOffsets]:
    [(self.xOff, self.yOff)]. *)
Definition generateHexOffsets (maxDither : R) : list R * list R :=
  let pts := flat_map (row maxDither) (arangeZ 0 (nrows + 1)) in
  (map fst pts, map snd pts).

(** The lattice as it is described: the row of symmetric index [i], for [i]
    from -8 to 8, has [17 - |i|] points at height [i * spacingY], spaced
    [spacingX] apart and centred on 0. *)
Definition spacingX (maxDither : R) : R := 0.95 * 2 * maxDither / 16.
Definition spacingY (maxDither : R) : R := 0.95 * sqrt 3 * maxDither / 16.

Definition lattice_row (maxDither : R) (i : Z) : list (R * R) :=
  let n := (17 - Z.abs i)%Z in
  map (fun j => (- ((IZR n - 1) / 2) * spacingX maxDither + IZR j * spacingX maxDither,
                 IZR i * spacingY maxDither))
      (arangeZ 0 n).

Definition lattice (maxDither : R) : list (R * R) :=
  flat_map (lattice_row maxDither) (arangeZ (-8) 9).

End HexGrid.

(** ** The stackers *)

Module Stackers.

Import Geometry.
Local Open Scope R_scope.

(** The columns of a batch that the stackers read.  [seasonCol] is the
    [season] column returned by the external [SeasonStacker().run(simData)]. *)
Record SimData : Type := {
  raCol : list R;
  decCol : list R;
  fieldIdCol : list Z;
  nightCol : list Z;
  seasonCol : list Z
}.

(** The two columns a stacker adds: dithered RA and dithered Dec. *)
Definition Columns : Type := (list R * list R)%type.

(** [self._addStackers(simData)] of the framework: the new columns, zeroed. *)
Definition addStackers (d : SimData) : Columns :=
  (repeat 0 (length (raCol d)), repeat 0 (length (raCol d))).

(** [x / np.cos(dec)]: a division of numpy floats, which never raises, and
    the source has no guard on the divisor.  No float64 has a cosine of
    exactly zero, so the quotient on the reals stands for the float quotient
    where [cos dec <> 0]. *)
Definition divCos (x dec : R) : R := x / cos dec.

(** [ra + x / np.cos(dec)] on arrays of one length. *)
Fixpoint addOverCos (ras xs decs : list R) : list R :=
  match ras, xs, decs with
  | r :: ras', x :: xs', d :: decs' => r + divCos x d :: addOverCos ras' xs' decs'
  | _, _, _ => []
  end.

(** [dec + y] on arrays of one length. *)
Fixpoint addR (decs ys : list R) : list R :=
  match decs, ys with
  | d :: decs', y :: ys' => d + y :: addR decs' ys'
  | _, _ => []
  end.

(** [off[idx]] on an offset array. *)
Definition takeE (off : list R) (idx : list nat) : result (list R) :=
  mapM (fun i => RepRandom.nthE i off) idx.

Fixpoint foldM {A B : Type} (f : B -> A -> result B) (l : list A) (b : B) : result B :=
  match l with
  | [] => Ok b
  | a :: t => b' <- f b a ;; foldM f t b'
  end.

(** Shape of [off] against a batch of [n] rows: equal lengths or a single
    value that broadcasts. *)
Definition broadcast (off : list R) (n : nat) : result (list R) :=
  if (length off =? n)%nat then Ok off
  else match off with
       | [x] => Ok (repeat x n)
       | _ => Raise ValueError
       end.

(** Body of a field loop:
    [col[match] = simData[raCol][match] + xOff[vertexIdxs]/np.cos(simData[decCol][match])]
    and [col[match] = simData[decCol][match] + yOff[vertexIdxs]]. *)
Definition assignRows (d : SimData) (off : list R * list R) (cols : Columns)
    (a : list nat * list nat) : result Columns :=
  let '(match_, vertexIdxs) := a in
  xs <- takeE (fst off) vertexIdxs ;;
  let newRA := addOverCos (Np.take 0 (raCol d) match_) xs (Np.take 0 (decCol d) match_) in
  ys <- takeE (snd off) vertexIdxs ;;
  Ok (Np.put (fst cols) match_ newRA,
      Np.put (snd cols) match_ (addR (Np.take 0 (decCol d) match_) ys)).

(** Body of a loop over nights or seasons: one offset [(x, y)] for all the
    rows of [match]. *)
Definition assignConst (d : SimData) (x y : R) (cols : Columns) (match_ : list nat)
  : Columns :=
  let newRA := addOverCos (Np.take 0 (raCol d) match_) (repeat x (length match_))
                          (Np.take 0 (decCol d) match_) in
  (Np.put (fst cols) match_ newRA,
   Np.put (snd cols) match_
          (addR (Np.take 0 (decCol d) match_) (repeat y (length match_)))).

Definition wrapped (cols : Columns) : Columns := wrapRADec (fst cols) (snd cols).

(** A field loop followed by the final wrap. *)
Definition fieldRun (d : SimData) (off : list R * list R)
    (assign : list (Z * (list nat * list nat))) : result Columns :=
  cols <- foldM (fun cols a => assignRows d off cols (snd a)) assign (addStackers d) ;;
  Ok (wrapped cols).

(** A loop over keys with [self.xOff[vertexID]], followed by the final wrap. *)
Definition keyRun (d : SimData) (off : list R * list R)
    (assign : list (Z * (list nat * nat))) : result Columns :=
  cols <- foldM (fun cols a =>
                   x <- RepRandom.nthE (snd (snd a)) (fst off) ;;
                   y <- RepRandom.nthE (snd (snd a)) (snd off) ;;
                   Ok (assignConst d x y cols (fst (snd a))))
                assign (addStackers d) ;;
  Ok (wrapped cols).

(** [for n, x, y in zip(nights, self.xOff, self.yOff)], then the wrap. *)
Definition zipRun (d : SimData) (off : list R * list R) (nights : list Z)
  : result Columns :=
  cols <- foldM (fun cols nxy =>
                   let '(n, (x, y)) := nxy in
                   Ok (assignConst d x y cols
                         (Np.where_ (fun v => (v =? n)%Z) (nightCol d))))
                (combine nights (combine (fst off) (snd off))) (addStackers d) ;;
  Ok (wrapped cols).

(** *** Stackers with a random generator

    [offsets] is the pair of attributes [self.xOff], [self.yOff]: unset on a
    new object, kept between two calls of [run]. *)
Record RandomStacker : Type := {
  maxDither : R;
  randomSeed : option Z;
  offsets : option (list R * list R)
}.

Definition setOffsets (self : RandomStacker) (o : list R * list R) : RandomStacker :=
  {| maxDither := maxDither self; randomSeed := randomSeed self; offsets := Some o |}.

(** Reading [self.xOff] (and [self.yOff]). *)
Definition getOffsets (self : RandomStacker) : result (list R * list R) :=
  match offsets self with
  | Some o => Ok o
  | None => Raise AttributeError
  end.

Section Runs.

(** The global generator of [np.random]: its states, [np.random.seed(s)]
    and [np.random.rand(n)]. *)
Variable G : Type.
Variable seed : Z -> G.
Variable rand : G -> nat -> list Q * G.

(** Outcome of a [run]: what it returns or raises, the object and the
    generator it leaves behind. *)
Definition outcome : Type := (result Columns * RandomStacker * G)%type.

(** [if self.randomSeed is not None: np.random.seed(self.randomSeed)]. *)
Definition reseed (self : RandomStacker) (g : G) : G :=
  match randomSeed self with
  | Some s => seed s
  | None => g
  end.

(** [self._generateRandomOffsets(noffsets)]: with too few points inside the
    hexagon the attributes are left as they were. *)
Definition genRandom (self : RandomStacker) (g : G) (noffsets : nat)
  : RandomStacker * G :=
  let '(u, g) := rand g (noffsets * 2) in
  let '(v, g) := rand g (noffsets * 2) in
  match RandomGen.generateRandomOffsets (maxDither self) noffsets u v with
  | Some o => (setOffsets self o, g)
  | None => (self, g)
  end.

(** [self._generateRepRandomOffsets(noffsets)]: the draws are made after the
    tile count is checked. *)
Definition genRepRandom (self : RandomStacker) (g : G) (noffsets : nat)
  : result unit * RandomStacker * G :=
  if (length (fst (RepRandom.pool noffsets)) <? noffsets)%nat
  then (Raise NameError, self, g)
  else
    let '(sq, g) := rand g (noffsets * 3) in
    let '(pt, g) := rand g (noffsets * 2) in
    match RepRandom.generateRepRandomOffsets (maxDither self) noffsets sq pt with
    | Ok o => (Ok tt, setOffsets self o, g)
    | Raise e => (Raise e, self, g)
    end.

(** The part of a [run] after the offsets are generated. *)
Definition perVisit (self : RandomStacker) (d : SimData) : result Columns :=
  off <- getOffsets self ;;
  xs <- broadcast (fst off) (length (raCol d)) ;;
  let newRA := addOverCos (raCol d) xs (decCol d) in
  ys <- broadcast (snd off) (length (decCol d)) ;;
  Ok (wrapped (newRA, addR (decCol d) ys)).

Definition fieldPerNight (self : RandomStacker) (d : SimData) : result Columns :=
  off <- getOffsets self ;;
  fieldRun d off
    (Assign.randomFieldPerNight (fieldIdCol d) (nightCol d) (length (fst off))).

Definition perNight (self : RandomStacker) (d : SimData) : result Columns :=
  off <- getOffsets self ;;
  zipRun d off (Np.unique (nightCol d)).

(** [RandomDitherFieldPerVisitStacker.run]. *)
Definition RandomDitherFieldPerVisit_run (self : RandomStacker) (g : G) (d : SimData)
  : outcome :=
  let g := reseed self g in
  let '(self, g) := genRandom self g (length (raCol d)) in
  (perVisit self d, self, g).

(** [RandomDitherFieldPerNightStacker.run]. *)
Definition RandomDitherFieldPerNight_run (self : RandomStacker) (g : G) (d : SimData)
  : outcome :=
  let g := reseed self g in
  let '(self, g) := genRandom self g (length (raCol d)) in
  (fieldPerNight self d, self, g).

(** [RandomDitherPerNightStacker.run]. *)
Definition RandomDitherPerNight_run (self : RandomStacker) (g : G) (d : SimData)
  : outcome :=
  let g := reseed self g in
  let '(self, g) := genRandom self g (length (Np.unique (nightCol d))) in
  (perNight self d, self, g).

Definition afterRep (k : RandomStacker -> SimData -> result Columns)
    (r : result unit * RandomStacker * G) (d : SimData) : outcome :=
  let '(ok, self, g) := r in
  (_ <- ok ;; k self d, self, g).

(** [RepulsiveRandomDitherFieldPerVisitStacker.run]. *)
Definition RepulsiveRandomDitherFieldPerVisit_run
    (self : RandomStacker) (g : G) (d : SimData) : outcome :=
  afterRep perVisit (genRepRandom self (reseed self g) (length (raCol d))) d.

(** [RepulsiveRandomDitherFieldPerNightStacker.run]. *)
Definition RepulsiveRandomDitherFieldPerNight_run
    (self : RandomStacker) (g : G) (d : SimData) : outcome :=
  afterRep fieldPerNight (genRepRandom self (reseed self g) (length (raCol d))) d.

(** [RepulsiveRandomDitherPerNightStacker.run]. *)
Definition RepulsiveRandomDitherPerNight_run
    (self : RandomStacker) (g : G) (d : SimData) : outcome :=
  afterRep perNight
    (genRepRandom self (reseed self g) (length (Np.unique (nightCol d)))) d.

(** Shape of the three stackers with the uniform generator and of the three
    with the repulsive generator. *)
Definition uniformRun (count : SimData -> nat)
    (k : RandomStacker -> SimData -> result Columns)
    (self : RandomStacker) (g : G) (d : SimData) : outcome :=
  let '(self', g') := genRandom self (reseed self g) (count d) in
  (k self' d, self', g').

Definition repulsiveRun (count : SimData -> nat)
    (k : RandomStacker -> SimData -> result Columns)
    (self : RandomStacker) (g : G) (d : SimData) : outcome :=
  afterRep k (genRepRandom self (reseed self g) (count d)) d.

(** The six stackers that take a [randomSeed]. *)
Definition seededRuns : list (RandomStacker -> G -> SimData -> outcome) :=
  [RandomDitherFieldPerVisit_run;
   RepulsiveRandomDitherFieldPerVisit_run;
   RandomDitherFieldPerNight_run;
   RepulsiveRandomDitherFieldPerNight_run;
   RandomDitherPerNight_run;
   RepulsiveRandomDitherPerNight_run].

End Runs.

(** *** Spiral stackers: [maxDither], [numPoints], [nCoils]. *)

Definition SpiralDitherFieldPerVisit_run (maxD : R) (numPoints : nat) (nCoils : R)
    (d : SimData) : result Columns :=
  off <- Spiral.generateSpiralOffsets maxD numPoints nCoils ;;
  fieldRun d off (Assign.fieldPerVisit (fieldIdCol d) numPoints).

Definition SpiralDitherFieldPerNight_run (maxD : R) (numPoints : nat) (nCoils : R)
    (d : SimData) : result Columns :=
  off <- Spiral.generateSpiralOffsets maxD numPoints nCoils ;;
  fieldRun d off (Assign.fieldPerKey (fieldIdCol d) (nightCol d) numPoints).

Definition SpiralDitherPerNight_run (maxD : R) (numPoints : nat) (nCoils : R)
    (d : SimData) : result Columns :=
  off <- Spiral.generateSpiralOffsets maxD numPoints nCoils ;;
  assign <- Assign.perKey (nightCol d) numPoints ;;
  keyRun d off assign.

(** *** Hexagonal grid stackers; [self.numPoints] is set by the generator. *)

Definition SequentialHexDitherFieldPerVisit_run (maxD : R) (d : SimData)
  : result Columns :=
  fieldRun d (HexGrid.generateHexOffsets maxD)
    (Assign.fieldPerVisit (fieldIdCol d) (Z.to_nat HexGrid.numPoints)).

Definition SequentialHexDitherFieldPerNight_run (maxD : R) (d : SimData)
  : result Columns :=
  fieldRun d (HexGrid.generateHexOffsets maxD)
    (Assign.fieldPerKey (fieldIdCol d) (nightCol d) (Z.to_nat HexGrid.numPoints)).

Definition SequentialHexDitherPerNight_run (maxD : R) (d : SimData)
  : result Columns :=
  assign <- Assign.perKey (nightCol d) (Z.to_nat HexGrid.numPoints) ;;
  keyRun d (HexGrid.generateHexOffsets maxD) assign.

(** *** Season stackers *)

Definition PentagonDitherFieldPerSeason_run (maxD : R) (d : SimData)
  : result Columns :=
  seasons <- Season.checked_wrap (seasonCol d) ;;
  off <- Polygon.generatePentagonOffsets maxD ;;
  fieldRun d off (Assign.fieldPerKey (fieldIdCol d) seasons (length (fst off))).

Definition PentagonDiamondDitherFieldPerSeason_run (maxD : R) (d : SimData)
  : result Columns :=
  seasons <- Season.checked_wrap (seasonCol d) ;;
  off <- Polygon.generateOffsets maxD ;;
  fieldRun d off (Assign.fieldPerKey (fieldIdCol d) seasons (length (fst off))).

Definition PentagonDitherPerSeason_run (maxD : R) (d : SimData)
  : result Columns :=
  seasons <- Season.unchecked_wrap (seasonCol d) ;;
  off <- Polygon.generatePentagonOffsets maxD ;;
  assign <- Assign.perKey seasons (length (fst off)) ;;
  keyRun d off assign.

Definition PentagonDiamondDitherPerSeason_run (maxD : R) (d : SimData)
  : result Columns :=
  seasons <- Season.checked_wrap (seasonCol d) ;;
  off <- Polygon.generateOffsets maxD ;;
  assign <- Assign.perKey seasons (length (fst off)) ;;
  keyRun d off assign.

(** *** Inputs used in the examples *)

(** A generator that plays a tape of draws: [rand] hands out the next [n]
    draws of the tape (0 once the tape is over); seeding rewinds to [tape]. *)
Definition tapeSeed (tape : list Q) (_ : Z) : list Q := tape.
Definition tapeRand (g : list Q) (n : nat) : list Q * list Q :=
  (firstn n (g ++ repeat 0%Q n), skipn n g).

(** The default [maxDither] of the constructors, 1.75 degrees, in radians. *)
Definition defaultMaxDither : R := 1.75 * PI / 180.

(** Draws for a batch of one record that give the point [(maxDither/2, 0)],
    followed by draws for a batch of two records whose four candidates are
    all above the hexagon. *)
Definition tapeShort : list Q :=
  [81 # 100; 81 # 100; 81 # 100; 81 # 100; 1 # 4; 1 # 4; 1 # 4; 1 # 4]%Q.
Definition tapeTwoRuns : list Q := ([1 # 4; 1 # 4; 0; 0] ++ tapeShort)%Q.

(** Draws after a seed: for a batch of one record the first candidate is the
    origin; for a batch of two records the first candidate is the origin and
    the three others are above the hexagon. *)
Definition tapeSeeded : list Q :=
  [0; 81 # 100; 81 # 100; 81 # 100; 0; 1 # 4; 1 # 4; 1 # 4]%Q.

(** A new stacker object. *)
Definition newStacker (maxD : R) (randomSeed : option Z) : RandomStacker :=
  {| maxDither := maxD; randomSeed := randomSeed; offsets := None |}.

(** One record at the origin, and two records of two fields on one night. *)
Definition single : SimData :=
  {| raCol := [0]; decCol := [0]; fieldIdCol := [1%Z]; nightCol := [1%Z];
     seasonCol := [0%Z] |}.
Definition twoFields : SimData :=
  {| raCol := [0; 0]; decCol := [0; 0]; fieldIdCol := [1%Z; 2%Z];
     nightCol := [1%Z; 1%Z]; seasonCol := [0%Z; 0%Z] |}.

(** Four records of one field whose seasons overflow twice (10 and 11). *)
Definition overflow : SimData :=
  {| raCol := [0; 0; 0; 0]; decCol := [0; 0; 0; 0];
     fieldIdCol := [1%Z; 1%Z; 1%Z; 1%Z]; nightCol := [1%Z; 2%Z; 3%Z; 4%Z];
     seasonCol := [8%Z; 10%Z; 11%Z; 0%Z] |}.

End Stackers.

(** * Properties *)

(** ** Sorted distinct values and ranks *)

Module NpFacts.

Import Np.

Lemma in_insert_uniq (v x : Z) (l : list Z) :
  In x (insert_uniq v l) <-> x = v \/ In x l.
Proof.
  induction l as [|a t IH]; simpl.
  - intuition.
  - destruct (v <? a)%Z eqn:Hlt; simpl.
    + intuition.
    + destruct (v =? a)%Z eqn:Heq; simpl.
      * apply Z.eqb_eq in Heq. subst a. intuition.
      * rewrite IH. intuition.
Qed.

Lemma in_unique (x : Z) (a : list Z) : In x (unique a) <-> In x a.
Proof.
  induction a as [|v t IH]; simpl.
  - reflexivity.
  - rewrite in_insert_uniq, IH. intuition.
Qed.

Lemma unique_nonempty (a : list Z) : a <> [] -> unique a <> [].
Proof.
  destruct a as [|v t]; [congruence|]. intros _ H.
  assert (Hin : In v (unique (v :: t))) by (apply in_unique; left; reflexivity).
  rewrite H in Hin. exact Hin.
Qed.

(** The least value has rank 0. *)
Lemma searchsorted1_head (h : Z) (t : list Z) : searchsorted1 (h :: t) h = 0%nat.
Proof. simpl. now rewrite Z.ltb_irrefl. Qed.

Lemma where_from_nonempty {A : Type} (p : A -> bool) (a : list A) (i : nat) :
  (exists x, In x a /\ p x = true) -> where_from p a i <> [].
Proof.
  revert i. induction a as [|y t IH]; intros i [x [Hin Hp]]; simpl.
  - contradiction.
  - destruct (p y) eqn:Hy; [discriminate|].
    apply IH. destruct Hin as [->|Hin]; [congruence|]. eauto.
Qed.

Lemma where_from_filter {A : Type} (d : A) (p : A -> bool) (pre a : list A) :
  take d (pre ++ a) (where_from p a (length pre)) = filter p a.
Proof.
  revert pre. induction a as [|x t IH]; intros pre; simpl; [reflexivity|].
  assert (Hs : forall l, where_from p t (S (length pre)) = l ->
               take d (pre ++ x :: t) l = filter p t).
  { intros l <-. specialize (IH (pre ++ [x])).
    rewrite <- app_assoc, length_app in IH. simpl in IH.
    rewrite Nat.add_1_r in IH. exact IH. }
  destruct (p x); simpl.
  - rewrite app_nth2, Nat.sub_diag by lia. simpl. f_equal. now apply Hs.
  - now apply Hs.
Qed.

(** The entries read at the positions of [np.where] are the entries that pass
    the test, in order: [a[np.where(p(a))[0]]] is a filter. *)
Lemma take_where {A : Type} (d : A) (p : A -> bool) (a : list A) :
  take d a (where_ p a) = filter p a.
Proof. exact (where_from_filter d p [] a). Qed.

End NpFacts.

Example unique_ex : Np.unique [3; 1; 3; 2; 1]%Z = [1; 2; 3]%Z.
Proof. reflexivity. Qed.

(** Ranks of the nights [[3,3,7,7,9]] of one field. *)
Example rank_ex :
  Np.searchsorted (Np.unique [3; 3; 7; 7; 9]%Z) [3; 3; 7; 7; 9]%Z = [0; 0; 1; 1; 2]%nat.
Proof. reflexivity. Qed.

(** ** Field loop of the two random per-field-per-night stackers *)

Module AssignFacts.

Import Np Assign.

Lemma loop_in (fieldIdCol nightCol : list Z) (nOff : nat) (fields : list Z) :
  forall delta f, In f fields ->
  exists delta',
    In (f, snd (randomFieldPerNight_step fieldIdCol nightCol nOff delta' f))
       (randomFieldPerNight_loop fieldIdCol nightCol nOff delta fields).
Proof.
  induction fields as [|g fs IH]; intros delta f Hin; [contradiction|].
  cbn [randomFieldPerNight_loop].
  destruct (randomFieldPerNight_step fieldIdCol nightCol nOff delta g)
    as [delta1 a] eqn:Hstep.
  destruct Hin as [->|Hin].
  - exists delta. rewrite Hstep. left. reflexivity.
  - destruct (IH delta1 f Hin) as [d' Hd']. exists d'. right. exact Hd'.
Qed.

(** Whatever [delta] is, the rows of a field that occurs in the batch read
    offset 0: the vertex indices are the night ranks, and the earliest night
    of the field has rank 0. *)
Lemma step_reads_zero (fieldIdCol nightCol : list Z) (nOff delta : nat) (f : Z) :
  In f fieldIdCol ->
  In 0%nat (snd (snd (randomFieldPerNight_step fieldIdCol nightCol nOff delta f))).
Proof.
  intros Hin. unfold randomFieldPerNight_step. cbn [snd].
  set (match_ := where_ (fun f0 => (f0 =? f)%Z) fieldIdCol).
  assert (Hne : match_ <> []).
  { apply NpFacts.where_from_nonempty. exists f. split; [exact Hin|apply Z.eqb_refl]. }
  set (nights := take 0%Z nightCol match_).
  assert (Hn : nights <> []).
  { unfold nights, take. destruct match_; [congruence|discriminate]. }
  pose proof (NpFacts.unique_nonempty Hn) as Hu.
  destruct (unique nights) as [|h t] eqn:Hun; [congruence|].
  assert (Hh : In h nights).
  { apply NpFacts.in_unique. rewrite Hun. left. reflexivity. }
  apply in_map_iff. exists 0%nat. split.
  - unfold mod_. destruct (nOff =? 0)%nat eqn:E; [reflexivity|].
    apply Nat.Div0.mod_0_l.
  - unfold searchsorted. apply in_map_iff. exists h. split; [|exact Hh].
    apply NpFacts.searchsorted1_head.
Qed.

(** In every batch, every field that occurs reads offset 0: two distinct
    fields always share an offset index. *)
Lemma every_field_reads_zero (fieldIdCol nightCol : list Z) (nOff : nat) (f : Z) :
  In f fieldIdCol ->
  exists idxs, In (f, idxs) (indicesPerField fieldIdCol nightCol nOff) /\ In 0%nat idxs.
Proof.
  intros Hin. unfold indicesPerField, randomFieldPerNight.
  destruct (@loop_in fieldIdCol nightCol nOff (unique fieldIdCol) 0%nat f) as [d' Hd'].
  { now apply NpFacts.in_unique. }
  eexists. split.
  - apply in_map_iff. eexists. split; [|exact Hd']. reflexivity.
  - cbn [snd]. now apply step_reads_zero.
Qed.

End AssignFacts.

(** ** Season wrap *)

(** The remap of the seasons above 9 is applied once, to the whole column. *)
Example season_wrap_ex : Season.wrap [8; 9; 10; 10; 0]%Z = [8; 9; 0; 0; 0]%Z.
Proof. reflexivity. Qed.

Example season_checked_ok :
  Season.checked_wrap [8; 9; 10; 10; 0]%Z = Ok [8; 9; 0; 0; 0]%Z.
Proof. reflexivity. Qed.

(** ** Coordinate wrap *)

Module WrapFacts.

Import Geometry.
Local Open Scope R_scope.

Lemma Rltb_true (x y : R) : x < y -> Rltb x y = true.
Proof. intros H. unfold Rltb. destruct (Rlt_dec x y); [reflexivity|contradiction]. Qed.

Lemma Rltb_false (x y : R) : y <= x -> Rltb x y = false.
Proof. intros H. unfold Rltb. destruct (Rlt_dec x y); [lra|reflexivity]. Qed.

Lemma fmod_range (x m : R) : 0 < m -> 0 <= fmod x m < m.
Proof.
  intros Hm. unfold fmod.
  destruct (base_Int_part (x / m)) as [Hlo Hhi].
  assert (Hx : x = x / m * m) by (field; lra).
  split.
  - assert (IZR (Int_part (x / m)) * m <= x / m * m) by (apply Rmult_le_compat_r; lra).
    lra.
  - assert (x / m * m < (IZR (Int_part (x / m)) + 1) * m)
      by (apply Rmult_lt_compat_r; lra).
    lra.
Qed.

Lemma wrap1_ra (ra dec : R) : raRange (fst (wrap1 ra dec)).
Proof.
  unfold wrap1.
  destruct (Rltb dec (- PI / 2)); destruct (Rltb (PI / 2) _); cbn [fst];
    apply fmod_range; pose proof PI_RGT_0; lra.
Qed.

Lemma wrapRADec_map (ra dec : list R) :
  wrapRADec ra dec = List.split (map wrapPair (combine ra dec)).
Proof. reflexivity. Qed.

Lemma combine_split_id {A B : Type} (l : list (A * B)) :
  combine (fst (List.split l)) (snd (List.split l)) = l.
Proof.
  induction l as [|[a b] t IH]; simpl; [reflexivity|].
  destruct (List.split t). simpl in *. now rewrite IH.
Qed.

Lemma fst_split_map {A B : Type} (l : list (A * B)) : fst (List.split l) = map fst l.
Proof.
  induction l as [|[a b] t IH]; simpl; [reflexivity|].
  destruct (List.split t). simpl in *. now rewrite IH.
Qed.

Lemma snd_split_map {A B : Type} (l : list (A * B)) : snd (List.split l) = map snd l.
Proof.
  induction l as [|[a b] t IH]; simpl; [reflexivity|].
  destruct (List.split t). simpl in *. now rewrite IH.
Qed.

Lemma wrapRADec_ra (ra dec : list R) : Forall raRange (fst (wrapRADec ra dec)).
Proof.
  rewrite wrapRADec_map, fst_split_map, map_map.
  apply Forall_forall. intros x Hx. apply in_map_iff in Hx.
  destruct Hx as [[r d] [<- _]]. apply wrap1_ra.
Qed.

End WrapFacts.

(** C7. [wrapRADec] leaves a declination outside [[-pi/2, pi/2]]: each of
    its two reflections is applied once, so the declination [2 pi] becomes
    [pi - 2 pi = - pi], which the function returns as it is. *)
Theorem C7_declination_left_out_of_range :
  Geometry.wrapRADec [0%R] [(2 * PI)%R]
  = ([Geometry.fmod (0 - PI) (2 * PI)], [(PI - 2 * PI)%R]) /\
  ~ Forall Geometry.decRange (snd (Geometry.wrapRADec [0%R] [(2 * PI)%R])).
Proof.
  assert (E : Geometry.wrap1 0 (2 * PI)
              = (Geometry.fmod (0 - PI) (2 * PI), (PI - 2 * PI)%R)).
  { unfold Geometry.wrap1. pose proof PI_RGT_0.
    rewrite (WrapFacts.Rltb_false (x := (2 * PI)%R) (y := (- PI / 2)%R)) by lra.
    rewrite (WrapFacts.Rltb_true (x := (PI / 2)%R) (y := (2 * PI)%R)) by lra.
    reflexivity. }
  assert (W : Geometry.wrapRADec [0%R] [(2 * PI)%R]
              = ([Geometry.fmod (0 - PI) (2 * PI)], [(PI - 2 * PI)%R])).
  { unfold Geometry.wrapRADec, Geometry.wrapPair. cbn [combine map fst snd].
    rewrite E. reflexivity. }
  split; [exact W|]. rewrite W. cbn [snd]. intros Hd.
  inversion Hd as [|x l Hx _]. unfold Geometry.decRange in Hx.
  pose proof PI_RGT_0. lra.
Qed.

(** ** Repulsive random generator: removal of the chosen tile *)

(** [xCenter.remove(xCenter[randIndex])] drops the first tile of the chosen
    column and [yCenter.remove(yCenter[randIndex])] the first tile of the
    chosen row: on the 2x2 pool, after the tile [(1, 1)] at position 3 is
    chosen, the pool still holds [(1, 1)], and holds [(0, 0)] twice. *)
Example remove_by_value :
  combine (RepRandom.list_remove 1 [0; 1; 0; 1]%Z) (RepRandom.list_remove 1 [0; 0; 1; 1]%Z)
  = [(0, 0); (0, 0); (1, 1)]%Z.
Proof. reflexivity. Qed.

(** C2. Two offsets are requested; the first draw, 9618.5/19136, selects
    position 9618 of the 19136 tiles inside the hexagon, the tile of centre
    [(-71, -1)] (in half tiles); the removal by value leaves that tile in
    the pool, at position 9617, where the second draw, 9617.5/19135, selects
    it again: both emitted points originate from the same tile. *)
Theorem C2_two_points_from_one_tile :
  RepRandom.generateTiles 2
    [19237 # 38272; 19235 # 38270; 0; 0; 0; 0]%Q [0; 1 # 2; 1 # 2; 0]%Q
  = Ok [RepRandom.Point (-71) (-1) 0 (1 # 2); RepRandom.Point (-71) (-1) (1 # 2) 0].
Proof. vm_compute. reflexivity. Qed.

(** ** Hexagonal grid *)

Module HexFacts.

Import HexGrid.
Local Open Scope R_scope.

Lemma vert_in_row_eq :
  vert_in_row = [9; 10; 11; 12; 13; 14; 15; 16; 17; 16; 15; 14; 13; 12; 11; 10; 9]%Z.
Proof. reflexivity. Qed.

Lemma nid_row_eq :
  nid_row = [-8; -7; -6; -5; -4; -3; -2; -1; 0; 1; 2; 3; 4; 5; 6; 7; 8]%Z.
Proof. reflexivity. Qed.

Lemma numPoints_eq : numPoints = 217%Z.
Proof. reflexivity. Qed.

Lemma sizes (maxD : R) :
  dith_size_x maxD = spacingX maxD /\ dith_size_y maxD = spacingY maxD.
Proof.
  unfold dith_size_x, dith_size_y, spacingX, spacingY.
  change (IZR nrows) with 16. split; lra.
Qed.

(** Evaluates the integer part of one row on both sides. *)
Ltac row_case :=
  match goal with
  | |- row _ ?k = lattice_row _ _ =>
      let v := eval vm_compute in (nth (Z.to_nat k) vert_in_row 0%Z) in
      let i := eval vm_compute in (k - 8)%Z in
      unfold row, lattice_row;
      change (nth (Z.to_nat k) vert_in_row 0%Z) with v;
      change (nth (Z.to_nat k) nid_row 0%Z) with i;
      change (k - 8)%Z with i;
      change (17 - Z.abs i)%Z with v
  end.

(** Row [k] of the second loop is the lattice row of symmetric index [k - 8]. *)
Lemma row_lattice (maxD : R) (k : Z) :
  (0 <= k <= 16)%Z -> row maxD k = lattice_row maxD (k - 8).
Proof.
  intros Hk. destruct (sizes maxD) as [Hx Hy].
  assert (Hcases : In k [0; 1; 2; 3; 4; 5; 6; 7; 8; 9; 10; 11; 12; 13; 14; 15; 16]%Z).
  { simpl. lia. }
  simpl in Hcases.
  repeat (destruct Hcases as [<-|Hcases];
          [row_case; rewrite Hx, Hy; apply map_ext; intros j; f_equal; lra|]).
  contradiction.
Qed.

Lemma flat_map_ext_in {A B : Type} (f g : A -> list B) (l : list A) :
  (forall a, In a l -> f a = g a) -> flat_map f l = flat_map g l.
Proof.
  induction l as [|a t IH]; intros H; simpl; [reflexivity|].
  rewrite (H a (or_introl eq_refl)), IH; [reflexivity|].
  intros b Hb. apply H. now right.
Qed.

Lemma points_lattice (maxD : R) :
  flat_map (row maxD) (arangeZ 0 (nrows + 1)) = lattice maxD.
Proof.
  unfold lattice.
  change (arangeZ (-8) 9) with (map (fun k => (k - 8)%Z) (arangeZ 0 (nrows + 1))).
  rewrite flat_map_concat_map, (flat_map_concat_map (lattice_row maxD)), map_map.
  f_equal. apply map_ext_in. intros k Hk. apply row_lattice.
  change (arangeZ 0 (nrows + 1))
    with [0; 1; 2; 3; 4; 5; 6; 7; 8; 9; 10; 11; 12; 13; 14; 15; 16]%Z in Hk.
  simpl in Hk. lia.
Qed.

Lemma arangeZ_length (lo hi : Z) : length (arangeZ lo hi) = Z.to_nat (hi - lo).
Proof. unfold arangeZ. now rewrite length_map, length_seq. Qed.

Lemma lattice_row_length (maxD : R) (i : Z) :
  length (lattice_row maxD i) = Z.to_nat (17 - Z.abs i).
Proof.
  unfold lattice_row. rewrite length_map, arangeZ_length. f_equal. lia.
Qed.

Lemma lattice_length (maxD : R) : length (lattice maxD) = 217%nat.
Proof.
  unfold lattice. rewrite flat_map_concat_map.
  change (arangeZ (-8) 9)
    with [-8; -7; -6; -5; -4; -3; -2; -1; 0; 1; 2; 3; 4; 5; 6; 7; 8]%Z.
  cbn [map concat]. rewrite !length_app, !lattice_row_length. reflexivity.
Qed.

Lemma nth_map_seq {A : Type} (f : nat -> A) (d : A) (n : nat) :
  forall s j, (j < n)%nat -> nth j (map f (seq s n)) d = f (s + j)%nat.
Proof.
  induction n as [|n IH]; intros s j Hj; [lia|].
  destruct j as [|j]; simpl.
  - now rewrite Nat.add_0_r.
  - rewrite IH by lia. f_equal. lia.
Qed.

Lemma lattice_row_nth (maxD : R) (i : Z) (j : nat) :
  (j < Z.to_nat (17 - Z.abs i))%nat ->
  nth j (lattice_row maxD i) (0, 0)
  = (- ((IZR (17 - Z.abs i) - 1) / 2) * spacingX maxD + INR j * spacingX maxD,
     IZR i * spacingY maxD).
Proof.
  intros Hj. unfold lattice_row, arangeZ. rewrite map_map, Z.sub_0_r.
  rewrite nth_map_seq by exact Hj.
  cbn [Nat.add Z.add]. now rewrite INR_IZR_INZ.
Qed.

Lemma combine_fst_snd {A B : Type} (l : list (A * B)) :
  combine (map fst l) (map snd l) = l.
Proof.
  induction l as [|[a b] t IH]; simpl; [reflexivity|]. now rewrite IH.
Qed.

End HexFacts.

(** C8. For every [maxDither] the sequential hexagonal grid is the fixed
    lattice whose row of symmetric index [i], from -8 to 8, has [17 - |i|]
    points in emission order, centred on 0 and spaced
    [0.95*2*maxDither/16] apart, at height [i * 0.95*sqrt(3)*maxDither/16];
    the generator reads no input batch and always emits 217 points. *)
Theorem C8_hex_lattice (maxD : R) :
  let off := HexGrid.generateHexOffsets maxD in
  combine (fst off) (snd off) = HexGrid.lattice maxD /\
  length (fst off) = 217%nat /\ length (snd off) = 217%nat /\
  HexGrid.numPoints = 217%Z /\
  HexGrid.spacingX maxD = (0.95 * 2 * maxD / 16)%R /\
  HexGrid.spacingY maxD = (0.95 * sqrt 3 * maxD / 16)%R /\
  forall i : Z, (-8 <= i <= 8)%Z ->
    let n := Z.to_nat (17 - Z.abs i) in
    let pt := fun j => nth j (HexGrid.lattice_row maxD i) (0%R, 0%R) in
    length (HexGrid.lattice_row maxD i) = n /\
    (forall j, (j < n)%nat -> snd (pt j) = (IZR i * HexGrid.spacingY maxD)%R) /\
    (forall j, (S j < n)%nat -> (fst (pt (S j)) - fst (pt j))%R = HexGrid.spacingX maxD) /\
    (forall j, (j < n)%nat -> (fst (pt j) + fst (pt (n - 1 - j)%nat))%R = 0%R).
Proof.
  cbv zeta. unfold HexGrid.generateHexOffsets. cbn [fst snd].
  rewrite HexFacts.combine_fst_snd, !length_map, HexFacts.points_lattice,
    HexFacts.lattice_length.
  repeat split; try reflexivity.
  - apply HexFacts.lattice_row_length.
  - intros j Hj. now rewrite HexFacts.lattice_row_nth.
  - intros j Hj. rewrite !HexFacts.lattice_row_nth by lia. cbn [fst].
    rewrite S_INR. lra.
  - intros j Hj. rewrite !HexFacts.lattice_row_nth by lia. cbn [fst].
    rewrite !minus_INR by lia.
    assert (Hn : INR (Z.to_nat (17 - Z.abs i)) = IZR (17 - Z.abs i)).
    { rewrite INR_IZR_INZ, Z2Nat.id by lia. reflexivity. }
    rewrite Hn. cbn [INR]. lra.
Qed.

Lemma C8_witness :
  length (HexGrid.lattice_row 1 (-8)) = 9%nat /\
  length (HexGrid.lattice_row 1 0) = 17%nat.
Proof.
  destruct (C8_hex_lattice 1) as (_ & _ & _ & _ & _ & _ & H).
  split.
  - apply (H (-8)%Z). lia.
  - apply (H 0%Z). lia.
Defined.

(** ** Hexagon tests *)

Module HexagonFacts.

Import Geometry.
Local Open Scope R_scope.

Lemma sqrt3_pos : 0 < sqrt 3.
Proof. apply sqrt_lt_R0. lra. Qed.

Lemma sqrt3_sqr : sqrt 3 * sqrt 3 = 3.
Proof. apply sqrt_sqrt. lra. Qed.

(** An upper bound of [sqrt 3] from a square. *)
Lemma sqrt3_le (q : R) : 0 <= q -> 3 <= q * q -> sqrt 3 <= q.
Proof.
  intros Hq Hsq. pose proof sqrt3_pos. pose proof sqrt3_sqr.
  destruct (Rle_dec (sqrt 3) q) as [|Hn]; [assumption|]. nra.
Qed.

Lemma Rltb_iff (x y : R) : Rltb x y = true <-> x < y.
Proof.
  unfold Rltb. destruct (Rlt_dec x y); split; intros; try assumption;
    try reflexivity; try discriminate; contradiction.
Qed.

Lemma insideHexb_iff (maxD x y : R) : insideHexb maxD x y = true <-> insideHex maxD x y.
Proof.
  unfold insideHexb, insideHex. rewrite !andb_true_iff, !Rltb_iff.
  unfold Rgt. tauto.
Qed.

(** The integer test of [p <= sqrt 3 * q]. *)
Lemma le_sqrt3_iff (p q : Z) :
  RepRandom.le_sqrt3 p q = true <-> IZR p <= sqrt 3 * IZR q.
Proof.
  pose proof sqrt3_pos as Hs. pose proof sqrt3_sqr as Hss.
  unfold RepRandom.le_sqrt3.
  assert (Hsq : (p * p <=? 3 * (q * q))%Z = true <-> IZR p * IZR p <= 3 * (IZR q * IZR q)).
  { rewrite Z.leb_le, <- !mult_IZR. split; [apply IZR_le|apply le_IZR]. }
  assert (Hsq' : (3 * (q * q) <=? p * p)%Z = true <-> 3 * (IZR q * IZR q) <= IZR p * IZR p).
  { rewrite Z.leb_le, <- !mult_IZR. split; [apply IZR_le|apply le_IZR]. }
  assert (Hp : (p <=? 0)%Z = true <-> IZR p <= 0).
  { rewrite Z.leb_le. split; [apply IZR_le|apply le_IZR]. }
  generalize dependent (sqrt 3). intros s Hs Hss.
  assert (Ht : s * IZR q * (s * IZR q) = 3 * (IZR q * IZR q)).
  { replace (s * IZR q * (s * IZR q)) with (s * s * (IZR q * IZR q)) by ring.
    now rewrite Hss. }
  rewrite <- Ht in Hsq, Hsq'. clear Ht Hss.
  assert (Hsign : 0 <= IZR q -> 0 <= s * IZR q) by (intros; nra).
  assert (Hsign' : IZR q < 0 -> s * IZR q < 0) by (intros; nra).
  generalize dependent (s * IZR q). intros t Hsq Hsq' Hpos Hneg.
  destruct (0 <=? q)%Z eqn:Hq.
  - apply Z.leb_le, IZR_le in Hq. specialize (Hpos Hq).
    rewrite orb_true_iff, Hp, Hsq. split.
    + intros [H|H]; [lra|].
      destruct (Rle_dec (IZR p) t) as [|Hn]; [assumption|]. nra.
    + intros H. destruct (Rle_dec (IZR p) 0); [now left|right]. nra.
  - apply Z.leb_gt, IZR_lt in Hq. specialize (Hneg Hq).
    rewrite andb_true_iff, Hp, Hsq'. split.
    + intros [H1 H2].
      destruct (Rle_dec (IZR p) t) as [|Hn]; [assumption|]. nra.
    + intros H. split; nra.
Qed.

(** A tile centre that passes the integer test satisfies the six closed half
    planes, once scaled by half a tile side [maxD / sd]. *)
Lemma insideHexTile_closed (maxD : R) (sd x y : Z) :
  0 < maxD -> (0 < sd)%Z ->
  RepRandom.insideHexTile sd x y = true <->
  insideHexClosed maxD (IZR x * (maxD / IZR sd)) (IZR y * (maxD / IZR sd)).
Proof.
  intros HmaxD Hsd. apply IZR_lt in Hsd.
  unfold RepRandom.insideHexTile, insideHexClosed, hex_m, hex_b, hex_h.
  rewrite !andb_true_iff, !le_sqrt3_iff.
  rewrite !opp_IZR, !plus_IZR, !minus_IZR, !mult_IZR.
  set (hs := maxD / IZR sd).
  assert (Hhs : 0 < hs) by (apply Rdiv_lt_0_compat; assumption).
  assert (HmaxD' : maxD = IZR sd * hs) by (unfold hs; field; lra).
  rewrite HmaxD'.
  assert (Hscale : forall a b, a <= b <-> a * hs <= b * hs).
  { intros a b. split; intros H; nra. }
  split.
  - intros (((((H1 & H2) & H3) & H4) & H5) & H6).
    apply Hscale in H1, H2, H3, H4, H5, H6. repeat split; lra.
  - intros (H1 & H2 & H3 & H4 & H5 & H6). repeat split; apply Hscale; lra.
Qed.

Lemma where_from_spec {A : Type} (p : A -> bool) (a : list A) :
  forall s i, In i (Np.where_from p a s) ->
  (s <= i)%nat /\ exists x, nth_error a (i - s) = Some x /\ p x = true.
Proof.
  induction a as [|y t IH]; intros s i Hin; simpl in Hin; [contradiction|].
  assert (Ht : In i (Np.where_from p t (S s)) ->
               (s <= i)%nat /\ exists x, nth_error (y :: t) (i - s) = Some x /\ p x = true).
  { intros H. destruct (IH _ _ H) as [Hle [x [Hx Hp]]]. split; [lia|].
    exists x. split; [|exact Hp].
    replace (i - s)%nat with (S (i - S s)) by lia. exact Hx. }
  destruct (p y) eqn:Hy; [|now apply Ht].
  destruct Hin as [<-|Hin]; [|now apply Ht].
  split; [lia|]. exists y. rewrite Nat.sub_diag. now split.
Qed.

Lemma where_length {A : Type} (p : A -> bool) (a : list A) (s : nat) :
  (length (Np.where_from p a s) <= length a)%nat.
Proof.
  revert s. induction a as [|y t IH]; intros s; simpl; [lia|].
  destruct (p y); simpl; specialize (IH (S s)); lia.
Qed.

Lemma in_firstn {A : Type} (x : A) (n : nat) (l : list A) :
  In x (firstn n l) -> In x l.
Proof.
  revert l. induction n as [|n IH]; intros [|a t]; simpl; try tauto.
  intros [H|H]; [now left|right; now apply IH].
Qed.

(** Every point kept by [_generateRandomOffsets] passed the six strict tests,
    and exactly [noffsets] points are kept. *)
Lemma generateRandomOffsets_inside (maxD : R) (n : nat) (u v : list Q) xOff yOff :
  RandomGen.generateRandomOffsets maxD n u v = Some (xOff, yOff) ->
  length xOff = n /\ length yOff = n /\
  Forall (fun p => insideHex maxD (fst p) (snd p)) (combine xOff yOff).
Proof.
  unfold RandomGen.generateRandomOffsets.
  set (pts := RandomGen.candidates maxD u v).
  set (index := Np.where_ _ pts).
  destruct (length index <? n)%nat eqn:Hlen; [discriminate|].
  apply Nat.ltb_ge in Hlen.
  intros H. injection H as <- <-.
  unfold slice, Np.take. rewrite !length_map, Nat.sub_0_r. cbn [skipn].
  rewrite HexFacts.combine_fst_snd, length_firstn.
  repeat split; try lia.
  apply Forall_forall. intros q Hq. apply in_map_iff in Hq.
  destruct Hq as [i [<- Hi]]. apply in_firstn in Hi.
  destruct (where_from_spec _ _ _ _ Hi) as [_ [x [Hx Hp]]].
  rewrite Nat.sub_0_r in Hx.
  rewrite (nth_error_nth _ _ _ Hx). now apply insideHexb_iff.
Qed.

End HexagonFacts.

(** ** Repulsive random generator: the pool and the first point *)

Module RepFacts.

Import Geometry RepRandom.
Local Open Scope R_scope.

Lemma ceil_sqrt_nonneg (n : Z) : (0 <= ceil_sqrt n)%Z.
Proof.
  unfold ceil_sqrt. pose proof (Z.sqrt_nonneg n).
  destruct (Z.sqrt n * Z.sqrt n =? n)%Z; lia.
Qed.

Lemma side_pos (n : nat) : (0 < side n)%Z.
Proof. unfold side. pose proof (ceil_sqrt_nonneg (Z.of_nat n)). lia. Qed.

(** [np.sqrt(numTiles)] is the integer [side]: half a tile is [maxD / side]. *)
Lemma tileSide_half (maxD : R) (n : nat) :
  tileSide maxD n / 2 = maxD / IZR (side n).
Proof.
  unfold tileSide, numTiles.
  pose proof (side_pos n) as Hs. apply IZR_lt in Hs.
  change 2%Z with (Z.of_nat 2). rewrite <- pow_IZR, sqrt_pow2 by lra.
  field. lra.
Qed.

Lemma pool_combine (n : nat) :
  combine (fst (pool n)) (snd (pool n))
  = filter (fun c => insideHexTile (side n) (fst c) (snd c))
           (combine (xCenters n) (yCenters n)).
Proof. unfold pool. cbn [fst snd]. apply HexFacts.combine_fst_snd. Qed.

(** Every tile of the initial pool passed the test on its centre. *)
Lemma pool_inside (n : nat) (x y : Z) :
  In (x, y) (combine (fst (pool n)) (snd (pool n))) ->
  insideHexTile (side n) x y = true.
Proof.
  rewrite pool_combine. intros H. apply filter_In in H. exact (proj2 H).
Qed.

Lemma nth_error_combine {A B : Type} (xs : list A) (ys : list B) (i : nat) a b :
  nth_error xs i = Some a -> nth_error ys i = Some b -> In (a, b) (combine xs ys).
Proof.
  revert xs ys. induction i as [|i IH]; intros [|x xs] [|y ys]; simpl; try discriminate.
  - intros [= ->] [= ->]. now left.
  - intros Ha Hb. right. now apply IH.
Qed.

Lemma nthE_ok {A : Type} (i : nat) (l : list A) (a : A) :
  nthE i l = Ok a -> nth_error l i = Some a.
Proof. unfold nthE. destruct (nth_error l i); congruence. Qed.

(** The first emitted point is read from the pool it was given. *)
Lemma pick_first (n : nat) xC yC N sq pt isq ipt p pts :
  pick n xC yC N sq pt isq ipt = Ok (p :: pts) ->
  In (cx p, cy p) (combine xC yC).
Proof.
  destruct n as [|n]; [discriminate|]. cbn [pick].
  destruct (nthE isq sq) as [u|] eqn:Hu; [|discriminate]. cbn [bind].
  destruct (_ <? _)%Z; [discriminate|].
  destruct (nthE _ xC) as [x|] eqn:Hx; [|discriminate]. cbn [bind].
  destruct (nthE _ yC) as [y|] eqn:Hy; [|discriminate]. cbn [bind].
  destruct (nthE ipt pt) as [px|]; [|discriminate]. cbn [bind].
  destruct (nthE (S ipt) pt) as [py|]; [|discriminate]. cbn [bind].
  destruct (pick n _ _ _ _ _ _ _) as [rest|]; [|discriminate]. cbn [bind].
  intros [= <- _]. cbn [cx cy].
  eapply nth_error_combine; apply nthE_ok; eassumption.
Qed.

Lemma generateTiles_first (n : nat) sq pt p pts :
  generateTiles n sq pt = Ok (p :: pts) ->
  In (cx p, cy p) (combine (fst (pool n)) (snd (pool n))).
Proof.
  unfold generateTiles. destruct (pool n) as [xC yC]. cbn [fst snd].
  destruct (_ <? _)%Z; [discriminate|]. apply pick_first.
Qed.

(** A point is at most half a tile away from the centre it was drawn around. *)
Lemma offset_near_centre (maxD : R) (n : nat) (c : Z) (u : Q) :
  0 < maxD -> 0 <= Q2R u < 1 ->
  Rabs (offset maxD n c u - IZR c * (tileSide maxD n / 2)) <= tileSide maxD n / 2.
Proof.
  intros HmaxD Hu. unfold offset.
  assert (Ht : 0 < tileSide maxD n / 2).
  { rewrite tileSide_half. apply Rdiv_lt_0_compat; [lra|]. apply IZR_lt, side_pos. }
  apply Rabs_le. split; nra.
Qed.

Lemma Q2R_0 : Q2R 0 = 0.
Proof. unfold Q2R. cbn. lra. Qed.

End RepFacts.

(** ** Evaluation of the generators and of the runs on small batches *)

Module RunFacts.

Import Geometry Stackers.
Local Open Scope R_scope.

Lemma origin_inside (maxD : R) : 0 < maxD -> insideHexb maxD 0 0 = true.
Proof.
  intros H. apply HexagonFacts.insideHexb_iff.
  unfold insideHex, hex_m, hex_b, hex_h. pose proof HexagonFacts.sqrt3_pos.
  assert (0 < sqrt 3 * maxD) by (apply Rmult_lt_0_compat; assumption).
  repeat split; lra.
Qed.

(** The draw [(0, 0)] is the centre of the disk. *)
Lemma candidate_origin (maxD : R) : RandomGen.candidate maxD 0 0 = (0, 0).
Proof.
  unfold RandomGen.candidate. cbv zeta.
  rewrite RepFacts.Q2R_0, sqrt_0. f_equal; ring.
Qed.

Lemma candidates_cons (maxD : R) (a b : Q) (u v : list Q) :
  RandomGen.candidates maxD (a :: u) (b :: v)
  = RandomGen.candidate maxD a b :: RandomGen.candidates maxD u v.
Proof. reflexivity. Qed.

Lemma candidates_nil (maxD : R) : RandomGen.candidates maxD [] [] = [].
Proof. reflexivity. Qed.

(** With the draws [0, 0] and [0, 0] one offset is generated: the origin. *)
Lemma random_origin (maxD : R) :
  0 < maxD ->
  RandomGen.generateRandomOffsets maxD 1 [0; 0]%Q [0; 0]%Q = Some ([0], [0]).
Proof.
  intros H. unfold RandomGen.generateRandomOffsets.
  rewrite !candidates_cons, candidates_nil, candidate_origin.
  cbn [Np.where_ Np.where_from fst snd].
  rewrite (origin_inside H). reflexivity.
Qed.

(** The draw [(81/100, 1/4)] is the point [(0, 0.9 maxD)], above the top
    side of the hexagon. *)
Lemma candidate_above (maxD : R) :
  RandomGen.candidate maxD (81 # 100) (1 # 4) = (0, 0.9 * maxD).
Proof.
  unfold RandomGen.candidate. cbv zeta.
  assert (Hq : Q2R (81 # 100) = 0.9 * 0.9) by (unfold Q2R; cbn; lra).
  assert (Ht : Q2R (1 # 4) * PI * 2 = PI / 2) by (unfold Q2R; cbn; lra).
  rewrite Hq, Ht, sqrt_square, cos_PI2, sin_PI2 by lra.
  f_equal; ring.
Qed.

Lemma above_outside (maxD : R) : 0 < maxD -> insideHexb maxD 0 (0.9 * maxD) = false.
Proof.
  intros H. destruct (insideHexb maxD 0 (0.9 * maxD)) eqn:E; [|reflexivity].
  apply HexagonFacts.insideHexb_iff in E.
  destruct E as (_ & _ & _ & _ & E & _). unfold hex_h in E.
  assert (sqrt 3 <= 1.8) by (apply HexagonFacts.sqrt3_le; lra).
  nra.
Qed.

(** With four draws above the hexagon, two offsets cannot be generated. *)
Lemma random_short (maxD : R) :
  0 < maxD ->
  RandomGen.generateRandomOffsets maxD 2
    [81 # 100; 81 # 100; 81 # 100; 81 # 100]%Q [1 # 4; 1 # 4; 1 # 4; 1 # 4]%Q
  = None.
Proof.
  intros H. unfold RandomGen.generateRandomOffsets.
  rewrite !candidates_cons, candidates_nil, candidate_above.
  cbn [Np.where_ Np.where_from fst snd].
  rewrite (above_outside H). reflexivity.
Qed.

Lemma divCos_0 (x : R) : divCos x 0 = x / cos 0.
Proof. reflexivity. Qed.

End RunFacts.

(** ** Offsets against the hexagon *)

(** C3. The repulsive generator emits an offset outside the hexagon: it
    tests the six constraints on the centre of a tile only, not on the point
    it draws inside the tile.  One offset is requested with [maxDither] of
    1.75 degrees; the draw selects a tile of the lowest row kept, of centre
    [(82, -148)] half tiles, and the draws [0, 0] place the point on the lower
    left corner of the tile, below the bottom side of the hexagon. *)
Theorem C3_repulsive_offset_outside_hexagon :
  exists x y : R,
    RepRandom.generateRepRandomOffsets (1.75 * PI / 180) 1
      [19000 # 19001; 0; 0]%Q [0; 0]%Q = Ok ([x], [y])
    /\ ~ Geometry.insideHex (1.75 * PI / 180) x y.
Proof.
  assert (Ht : RepRandom.generateTiles 1 [19000 # 19001; 0; 0]%Q [0; 0]%Q
               = Ok [RepRandom.Point 82 (-148) 0 0]) by (vm_compute; reflexivity).
  unfold RepRandom.generateRepRandomOffsets. rewrite Ht.
  cbn [bind map RepRandom.cx RepRandom.cy RepRandom.ux RepRandom.uy].
  do 2 eexists. split; [reflexivity|].
  intros (_ & _ & _ & _ & _ & H).
  unfold RepRandom.offset, Geometry.hex_h in H.
  pose proof (RepFacts.tileSide_half (1.75 * PI / 180) 1) as Hh.
  change (RepRandom.side 1) with 171%Z in Hh.
  rewrite RepFacts.Q2R_0 in H.
  assert (Hs : (sqrt 3 <= 298 / 171)%R) by (apply HexagonFacts.sqrt3_le; lra).
  pose proof PI_RGT_0.
  set (t := RepRandom.tileSide (1.75 * PI / 180) 1) in *.
  assert (Ht' : (t = 2 * (1.75 * PI / 180 / 171))%R) by lra.
  rewrite Ht' in H. nra.
Qed.

(** ** Spiral *)

Module SpiralFacts.

Import Geometry Spiral.
Local Open Scope R_scope.

Lemma Rmaxl_fold_ge (d : R) (l : list R) (x : R) :
  In x l -> x <= fold_right Rmax d l.
Proof.
  induction l as [|y t IH]; simpl; [contradiction|].
  intros [->|H]; [apply Rmax_l|].
  eapply Rle_trans; [now apply IH|apply Rmax_r].
Qed.

Lemma Rmaxl_ge (l : list R) (x : R) : In x l -> x <= Rmaxl l.
Proof. apply Rmaxl_fold_ge. Qed.

Lemma Rminl_fold_le (d : R) (l : list R) (x : R) :
  In x l -> fold_right Rmin d l <= x.
Proof.
  induction l as [|y t IH]; simpl; [contradiction|].
  intros [->|H]; [apply Rmin_l|].
  eapply Rle_trans; [apply Rmin_r|now apply IH].
Qed.

Lemma Rminl_le (l : list R) (x : R) : In x l -> Rminl l <= x.
Proof. apply Rminl_fold_le. Qed.

Lemma Reqb_eq (x y : R) : Reqb x y = true <-> x = y.
Proof.
  unfold Reqb. destruct (Req_dec_T x y); split; intros; try assumption;
    try reflexivity; try discriminate; contradiction.
Qed.

(** *** The sample grid *)

Lemma Rceil_pos (x : R) : 0 < x -> (1 <= Rceil x)%Z.
Proof.
  intros Hx. unfold Rceil.
  destruct (base_Int_part (- x)) as [Hlo _].
  assert (IZR (Int_part (- x)) < 0) by lra.
  apply lt_IZR in H. lia.
Qed.

Lemma Rceil_INR (n : nat) : Rceil (INR n) = Z.of_nat n.
Proof.
  unfold Rceil.
  assert (H : (- Z.of_nat n)%Z = Int_part (- INR n)).
  { apply Int_part_spec. rewrite opp_IZR, <- INR_IZR_INZ. lra. }
  rewrite <- H. lia.
Qed.

Lemma in_arangeR (start stop step x : R) :
  In x (arangeR start stop step) -> exists k : nat, x = start + INR k * step.
Proof.
  unfold arangeR. intros H. apply in_map_iff in H.
  destruct H as [k [<- _]]. now exists k.
Qed.

Lemma arangeR_nonempty (start stop step : R) :
  0 < step -> start < stop -> arangeR start stop step <> [].
Proof.
  intros Hstep Hlt. unfold arangeR.
  assert (Hc : (1 <= Rceil ((stop - start) / step))%Z).
  { apply Rceil_pos. apply Rdiv_lt_0_compat; lra. }
  destruct (Z.to_nat (Rceil ((stop - start) / step))) eqn:E; [lia|discriminate].
Qed.

(** The grid starts at [start] and every later sample is larger. *)
Lemma arangeR_head (start stop step : R) :
  0 < step -> start < stop ->
  exists rest, arangeR start stop step = start :: rest /\
               Forall (fun x => start < x) rest.
Proof.
  intros Hstep Hlt. unfold arangeR.
  assert (Hc : (1 <= Rceil ((stop - start) / step))%Z).
  { apply Rceil_pos. apply Rdiv_lt_0_compat; lra. }
  destruct (Z.to_nat (Rceil ((stop - start) / step))) as [|n] eqn:E; [lia|].
  cbn [seq map]. eexists. split.
  - f_equal. cbn [INR]. ring.
  - apply Forall_forall. intros x Hx. apply in_map_iff in Hx.
    destruct Hx as [k [<- Hk]]. apply in_seq in Hk.
    assert (0 < INR k) by (apply lt_0_INR; lia). nra.
Qed.

(** *** Arc length along the spiral *)

Lemma arclen_increasing (a t1 t2 : R) :
  0 < a -> 0 < t1 -> t1 < t2 -> arclen a t1 < arclen a t2.
Proof.
  intros Ha H1 H12. unfold arclen.
  assert (Hs : sqrt (1 + t1 ^ 2) < sqrt (1 + t2 ^ 2)).
  { apply sqrt_lt_1; nra. }
  assert (Hs1 : 0 < sqrt (1 + t1 ^ 2)) by (apply sqrt_lt_R0; nra).
  assert (Hm : t1 * sqrt (1 + t1 ^ 2) < t2 * sqrt (1 + t2 ^ 2)) by nra.
  assert (Hl : ln (t1 + sqrt (1 + t1 ^ 2)) < ln (t2 + sqrt (1 + t2 ^ 2))).
  { apply ln_increasing; lra. }
  assert (0 < a / 2) by lra.
  apply Rmult_lt_compat_l; lra.
Qed.

Lemma arclen_pos (a t : R) : 0 < a -> 0 < t -> 0 < arclen a t.
Proof.
  intros Ha Ht. unfold arclen.
  assert (Hs1 : 1 <= sqrt (1 + t ^ 2)).
  { rewrite <- sqrt_1 at 1. apply sqrt_le_1; nra. }
  assert (Hl : 0 < ln (t + sqrt (1 + t ^ 2))).
  { rewrite <- ln_1. apply ln_increasing; lra. }
  assert (0 < t * sqrt (1 + t ^ 2)) by nra.
  apply Rmult_lt_0_compat; lra.
Qed.

(** *** The nearest sample *)

Lemma nth_map_default {A B : Type} (f : A -> B) (l : list A) (i : nat) (d : A) (e : B) :
  (i < length l)%nat -> nth i (map f l) e = f (nth i l d).
Proof.
  intros H. rewrite (nth_indep _ e (f d)) by (now rewrite length_map).
  apply map_nth.
Qed.

(** What [nearest] returns is a sample [t] of the grid with its radius, and
    no sample is nearer to [ap] along the arc. *)
Lemma nearest_spec (a : R) (theta : list R) (ap r t : R) :
  nearest (map (fun t => t * a) theta) theta (map (arclen a) theta) ap = Ok (r, t) ->
  In t theta /\ r = t * a /\
  forall t', In t' theta -> Rabs (arclen a t - ap) <= Rabs (arclen a t' - ap).
Proof.
  unfold nearest.
  set (diff := map (fun x => Rabs (x - ap)) (map (arclen a) theta)).
  destruct (Np.where_ _ diff) as [|i [|j rest]] eqn:Hw; try discriminate.
  intros [= <- <-].
  assert (Hi : In i (Np.where_ (fun d => Reqb d (Rminl diff)) diff))
    by (rewrite Hw; now left).
  destruct (HexagonFacts.where_from_spec _ _ _ _ Hi) as [_ [x [Hx Hp]]].
  rewrite Nat.sub_0_r in Hx. apply Reqb_eq in Hp.
  assert (Hlen : (i < length theta)%nat).
  { assert (Hd : (i < length diff)%nat) by (apply nth_error_Some; congruence).
    unfold diff in Hd. now rewrite !length_map in Hd. }
  assert (Hxi : x = Rabs (arclen a (nth i theta 0) - ap)).
  { apply (nth_error_nth _ _ 0) in Hx. rewrite <- Hx. unfold diff.
    rewrite map_map. now rewrite (nth_map_default _ _ 0 0). }
  split; [now apply nth_In|]. split.
  - now rewrite (nth_map_default _ _ 0 0).
  - intros t' Ht'. rewrite <- Hxi, Hp. apply Rminl_le.
    unfold diff. rewrite map_map. apply in_map_iff. now exists t'.
Qed.

(** Later targets select samples that are not nearer to the centre. *)
Lemma nearest_monotone (a : R) (theta : list R) (ap1 ap2 r1 t1 r2 t2 : R) :
  0 < a -> Forall (fun t => 0 < t) theta ->
  nearest (map (fun t => t * a) theta) theta (map (arclen a) theta) ap1 = Ok (r1, t1) ->
  nearest (map (fun t => t * a) theta) theta (map (arclen a) theta) ap2 = Ok (r2, t2) ->
  ap1 <= ap2 -> r1 <= r2.
Proof.
  intros Ha Hpos H1 H2 Hle.
  destruct (Req_dec_T ap1 ap2) as [->|Hne].
  { rewrite H1 in H2. injection H2 as -> _. lra. }
  destruct (nearest_spec _ _ _ H1) as (Hin1 & -> & Hmin1).
  destruct (nearest_spec _ _ _ H2) as (Hin2 & -> & Hmin2).
  destruct (Rle_dec t1 t2) as [|Hgt]; [nra|]. exfalso.
  rewrite Forall_forall in Hpos.
  assert (Harc : arclen a t2 < arclen a t1).
  { apply arclen_increasing; [assumption|now apply Hpos|lra]. }
  specialize (Hmin1 t2 Hin2). specialize (Hmin2 t1 Hin1).
  unfold Rabs in Hmin1, Hmin2.
  repeat destruct Rcase_abs in Hmin1; repeat destruct Rcase_abs in Hmin2; lra.
Qed.

End SpiralFacts.

Module SpiralOrder.

Import Geometry Spiral SpiralFacts.
Local Open Scope R_scope.

Lemma mapM_Forall2 {A B : Type} (f : A -> result B) (l : list A) (ys : list B) :
  mapM f l = Ok ys -> Forall2 (fun x y => f x = Ok y) l ys.
Proof.
  revert ys. induction l as [|a t IH]; intros ys; cbn [mapM].
  - intros [= <-]. constructor.
  - destruct (f a) as [b|] eqn:Hf; [|discriminate]. cbn [bind].
    destruct (mapM f t) as [bs|]; [|discriminate]. cbn [bind].
    intros [= <-]. constructor; [exact Hf|now apply IH].
Qed.

(** A point at angle [t] and distance [r] from the centre has radius [r]. *)
Lemma radius_polar (r t : R) : 0 <= r -> radius (r * cos t) (r * sin t) = r.
Proof.
  intros Hr. unfold radius.
  replace (r * cos t * (r * cos t) + r * sin t * (r * sin t))
    with (r * r * (Rsqr (sin t) + Rsqr (cos t))) by (unfold Rsqr; ring).
  rewrite sin2_cos2, Rmult_1_r. now apply sqrt_square.
Qed.

Lemma radii_polar (pts : list (R * R)) :
  Forall (fun p => 0 <= fst p) pts ->
  radii (map (fun p => fst p * cos (snd p)) pts) (map (fun p => fst p * sin (snd p)) pts)
  = map fst pts.
Proof.
  unfold radii. induction 1 as [|p t Hp _ IH]; cbn [map combine fst snd]; [reflexivity|].
  now rewrite radius_polar, IH.
Qed.

Lemma sorted_map_seq (f : nat -> R) (s n : nat) :
  (forall i j, (i <= j)%nat -> f i <= f j) ->
  StronglySorted Rle (map f (seq s n)).
Proof.
  intros Hf. revert s. induction n as [|n IH]; intros s; cbn [seq map]; constructor.
  - apply IH.
  - apply Forall_forall. intros x Hx. apply in_map_iff in Hx.
    destruct Hx as [k [<- Hk]]. apply in_seq in Hk. apply Hf. lia.
Qed.

Lemma sorted_firstn (n : nat) (l : list R) :
  StronglySorted Rle l -> StronglySorted Rle (firstn n l).
Proof.
  intros H. revert n. induction H as [|a t Ht IH Ha]; intros [|n]; cbn [firstn];
    try constructor.
  - apply IH.
  - apply Forall_forall. intros x Hx. apply HexagonFacts.in_firstn in Hx.
    rewrite Forall_forall in Ha. now apply Ha.
Qed.

(** The targets [arcpts] are in ascending order. *)
Lemma arcpts_sorted (stop stepsize : R) (n : nat) :
  0 <= stepsize -> StronglySorted Rle (slice (arangeR 0 stop stepsize) 0 n).
Proof.
  intros Hs. unfold slice, arangeR. cbn [skipn]. apply sorted_firstn.
  apply sorted_map_seq. intros i j Hij. apply le_INR in Hij. nra.
Qed.

Lemma Forall2_sorted {A : Type} (P : R -> A -> Prop) (g : A -> R)
      (l : list R) (l' : list A) :
  (forall x x' y y', P x y -> P x' y' -> x <= x' -> g y <= g y') ->
  Forall2 P l l' -> StronglySorted Rle l -> StronglySorted Rle (map g l').
Proof.
  intros Hmono H. induction H as [|x y l l' Hxy Hrest IH]; intros Hs; cbn [map];
    constructor; inversion Hs as [|? ? Hs' Hall]; subst.
  - now apply IH.
  - clear IH Hs Hs'. induction Hrest as [|x' y' l l' Hx'y' _ IH']; cbn [map];
      constructor; inversion Hall; subst.
    + eapply Hmono; eassumption.
    + now apply IH'.
Qed.

Lemma Forall2_length_eq {A B : Type} (P : A -> B -> Prop) l l' :
  Forall2 P l l' -> length l = length l'.
Proof. induction 1; simpl; congruence. Qed.

Lemma Forall2_right {A B : Type} (P : A -> B -> Prop) (Q : B -> Prop) l l' :
  (forall x y, P x y -> Q y) -> Forall2 P l l' -> Forall Q l'.
Proof. intros H. induction 1; constructor; eauto. Qed.

(** The number of targets: [np.arange(0, M, M/n)] cut to [n] entries. *)
Lemma arcpts_length (M : R) (n : nat) :
  0 < M -> (1 <= n)%nat ->
  length (slice (arangeR 0 M (M / INR n)) 0 n) = n.
Proof.
  intros HM Hn. unfold slice, arangeR. cbn [skipn].
  assert (Hq : (M - 0) / (M / INR n) = INR n).
  { assert (0 < INR n) by (apply lt_0_INR; lia). field. lra. }
  rewrite Hq, Rceil_INR, Nat2Z.id, length_firstn, length_map, length_seq. lia.
Qed.

Section Grid.

Variables (maxD nCoils : R).
Hypothesis HmaxD : 0 < maxD.
Hypothesis HnCoils : 1 <= nCoils.

Local Abbreviation theta := (arangeR 0.0001 (nCoils * PI * 2) 0.001).
Local Abbreviation a := (0.85 * maxD / Rmaxl theta).

Lemma grid_stop : 0.0001 < nCoils * PI * 2.
Proof. pose proof PI2_1. nra. Qed.

Lemma theta_pos : Forall (fun t => 0 < t) theta.
Proof.
  apply Forall_forall. intros t Ht. apply in_arangeR in Ht.
  destruct Ht as [k ->]. pose proof (pos_INR k). lra.
Qed.

Lemma theta_nonempty : theta <> [].
Proof. apply arangeR_nonempty; [lra|apply grid_stop]. Qed.

Lemma positive_max (l : list R) :
  l <> [] -> Forall (fun t => 0 < t) l -> 0 < Rmaxl l.
Proof.
  intros Hne Hpos. destruct l as [|t0 rest]; [congruence|].
  inversion Hpos; subst.
  assert (t0 <= Rmaxl (t0 :: rest)) by (apply Rmaxl_ge; now left). lra.
Qed.

Lemma theta_max_pos : 0 < Rmaxl theta.
Proof. apply positive_max; [apply theta_nonempty|apply theta_pos]. Qed.

Lemma a_pos : 0 < a.
Proof.
  pose proof theta_max_pos. apply Rdiv_lt_0_compat; lra.
Qed.

(** No sample is farther than [0.85 maxD] from the centre. *)
Lemma sample_radius (t : R) : In t theta -> 0 <= t * a <= 0.85 * maxD.
Proof.
  intros Ht. pose proof a_pos as Ha. pose proof theta_max_pos as Hmax.
  pose proof (Rmaxl_ge _ _ Ht) as Hle.
  pose proof theta_pos as Hpos. rewrite Forall_forall in Hpos.
  specialize (Hpos t Ht).
  assert (Hm : Rmaxl theta * a = 0.85 * maxD) by (field; lra).
  split; [nra|].
  apply Rle_trans with (Rmaxl theta * a); [apply Rmult_le_compat_r; lra|lra].
Qed.

Lemma arc_max_pos : 0 < Rmaxl (map (arclen a) theta).
Proof.
  apply positive_max.
  - pose proof theta_nonempty as Hne. destruct theta; [congruence|discriminate].
  - apply Forall_forall. intros x Hx. apply in_map_iff in Hx.
    destruct Hx as [t [<- Ht]]. apply arclen_pos; [apply a_pos|].
    pose proof theta_pos as Hpos. rewrite Forall_forall in Hpos. now apply Hpos.
Qed.

End Grid.

End SpiralOrder.

Module SpiralRun.

Import Geometry Spiral SpiralFacts SpiralOrder.
Local Open Scope R_scope.

Lemma Rminl_head (d0 : R) (ds : list R) :
  Forall (fun d => d0 < d) ds -> Rminl (d0 :: ds) = d0.
Proof.
  intros H. unfold Rminl. cbn [hd fold_right].
  assert (Hf : fold_right Rmin d0 ds = d0).
  { induction H as [|d t Hd _ IH]; cbn [fold_right]; [reflexivity|].
    rewrite IH. apply Rmin_right. lra. }
  rewrite Hf. apply Rmin_left. lra.
Qed.

Lemma where_none {A : Type} (p : A -> bool) (l : list A) (s : nat) :
  Forall (fun x => p x = false) l -> Np.where_from p l s = [].
Proof.
  intros H. revert s. induction H as [|x t Hx _ IH]; intros s; cbn [Np.where_from];
    [reflexivity|]. rewrite Hx. apply IH.
Qed.

(** When the first sample is strictly the nearest, it is the one stored. *)
Lemma nearest_head (r0 t0 d0 ap : R) (rs ts arcs : list R) (a0 : R) :
  d0 = Rabs (a0 - ap) ->
  Forall (fun x => d0 < Rabs (x - ap)) arcs ->
  nearest (r0 :: rs) (t0 :: ts) (a0 :: arcs) ap = Ok (r0, t0).
Proof.
  intros Hd0 Hall. unfold nearest. cbn [map]. rewrite <- Hd0.
  assert (Hds : Forall (fun d => d0 < d) (map (fun x => Rabs (x - ap)) arcs)).
  { apply Forall_forall. intros d Hd. apply in_map_iff in Hd.
    destruct Hd as [x [<- Hx]]. rewrite Forall_forall in Hall. now apply Hall. }
  rewrite (Rminl_head Hds). unfold Np.where_. cbn [Np.where_from].
  assert (Hself : Reqb d0 d0 = true) by now apply Reqb_eq.
  rewrite Hself, where_none; [reflexivity|].
  apply Forall_forall. intros d Hd. rewrite Forall_forall in Hds.
  specialize (Hds d Hd). unfold Reqb. destruct (Req_dec_T d d0); [lra|reflexivity].
Qed.

(** With one point requested the generator succeeds: the point is the first
    sample of the grid. *)
Lemma spiral_one_point (maxD nCoils : R) :
  0 < maxD -> 1 <= nCoils ->
  exists r t, generateSpiralOffsets maxD 1 nCoils = Ok ([r * cos t], [r * sin t]).
Proof.
  intros Hm Hc. unfold generateSpiralOffsets.
  pose proof (a_pos Hm Hc) as Ha. pose proof (arc_max_pos Hm Hc) as HM.
  pose proof (theta_pos nCoils) as Hpos.
  assert (Hstep : 0 < 0.001) by lra.
  destruct (@arangeR_head 0.0001 (nCoils * PI * 2) 0.001 Hstep (grid_stop Hc))
    as [rest [Eth Hrest]].
  set (M := Rmaxl (map (arclen _) _)) in *.
  assert (Hstep' : 0 < M / INR 1) by (cbn [INR]; lra).
  destruct (@arangeR_head 0 M (M / INR 1) Hstep' HM) as [rest' [Earc _]].
  rewrite Earc. unfold slice. cbn [skipn firstn Nat.sub mapM].
  clearbody M. revert Ha Hpos. rewrite Eth. intros Ha Hpos. cbn [map].
  inversion Hpos as [|? ? Ht0 Hrest0]; subst.
  erewrite nearest_head;
    [cbn [bind mapM map fst snd length Nat.sub repeat app]; eauto|reflexivity|].
  apply Forall_forall. intros x Hx. apply in_map_iff in Hx.
  destruct Hx as [t [<- Ht]].
  rewrite Forall_forall in Hrest, Hrest0.
  pose proof (arclen_pos Ha Ht0).
  pose proof (arclen_increasing Ha Ht0 (Hrest t Ht)).
  rewrite !Rminus_0_r, !Rabs_pos_eq by lra. lra.
Qed.

End SpiralRun.

(** *** A request for two points *)

Module SpiralNumerics.

Import Geometry Spiral.
Local Open Scope R_scope.

Lemma ln_le_minus_1 (x : R) : 0 < x -> ln x <= x - 1.
Proof.
  intros Hx. pose proof (exp_ineq1_le (x - 1)) as H.
  replace (1 + (x - 1)) with x in H by ring.
  destruct (Rle_dec (ln x) (x - 1)) as [|Hn]; [assumption|].
  apply Rnot_le_lt in Hn. apply exp_increasing in Hn.
  rewrite exp_ln in Hn by assumption. lra.
Qed.

Lemma ln_le_compat (x y : R) : 0 < x -> x <= y -> ln x <= ln y.
Proof.
  intros Hx [Hlt| ->]; [left; now apply ln_increasing|right; reflexivity].
Qed.

(** A logarithm from a power: [ln z <= k (w - 1)] as soon as [z <= w^k]. *)
Lemma ln_le_pow (z w : R) (k : nat) :
  0 < z -> 0 < w -> z <= w ^ k -> ln z <= INR k * (w - 1).
Proof.
  intros Hz Hw Hle. apply Rle_trans with (ln (w ^ k)); [now apply ln_le_compat|].
  rewrite ln_pow by assumption.
  apply Rmult_le_compat_l; [apply pos_INR|now apply ln_le_minus_1].
Qed.

(** A power of a fraction against a fraction, decided on integers. *)
Lemma pow_fraction (p s n d : Z) (k : nat) :
  (0 < s)%Z -> (0 < d)%Z -> (n * s ^ Z.of_nat k <= p ^ Z.of_nat k * d)%Z ->
  IZR n / IZR d <= (IZR p / IZR s) ^ k.
Proof.
  intros Hs Hd H. apply IZR_le in H. rewrite !mult_IZR, <- !pow_IZR in H.
  apply IZR_lt in Hs, Hd.
  assert (Hsk : 0 < IZR s ^ k) by now apply pow_lt.
  unfold Rdiv at 2. rewrite Rpow_mult_distr, pow_inv.
  apply Rmult_le_reg_r with (IZR d * IZR s ^ k); [now apply Rmult_lt_0_compat|].
  replace (IZR n / IZR d * (IZR d * IZR s ^ k)) with (IZR n * IZR s ^ k)
    by (field; lra).
  replace (IZR p ^ k * / IZR s ^ k * (IZR d * IZR s ^ k)) with (IZR p ^ k * IZR d)
    by (field; lra).
  exact H.
Qed.

Lemma sqrt_enclosed (x lo hi : R) :
  0 <= lo -> 0 <= hi -> lo * lo <= x <= hi * hi -> lo <= sqrt x <= hi.
Proof.
  intros Hlo Hhi [H1 H2]. split.
  - rewrite <- (sqrt_square lo) by assumption. now apply sqrt_le_1_alt.
  - rewrite <- (sqrt_square hi) by assumption. now apply sqrt_le_1_alt.
Qed.

Lemma power_up : 8.280416707 <= 1.004138 ^ 512.
Proof.
  pose proof (@pow_fraction 1004138 1000000 8280416707 1000000000 512
                eq_refl eq_refl) as H.
  assert (C : (8280416707 * 1000000 ^ Z.of_nat 512
               <= 1004138 ^ Z.of_nat 512 * 1000000000)%Z)
    by (apply Z.leb_le; vm_compute; reflexivity).
  specialize (H C).
  replace 8.280416707 with (IZR 8280416707 / IZR 1000000000) by lra.
  replace 1.004138 with (IZR 1004138 / IZR 1000000) by lra.
  exact H.
Qed.

Lemma power_down : 0.120766870 <= 0.995880 ^ 512.
Proof.
  pose proof (@pow_fraction 995880 1000000 120766870 1000000000 512
                eq_refl eq_refl) as H.
  assert (C : (120766870 * 1000000 ^ Z.of_nat 512
               <= 995880 ^ Z.of_nat 512 * 1000000000)%Z)
    by (apply Z.leb_le; vm_compute; reflexivity).
  specialize (H C).
  replace 0.120766870 with (IZR 120766870 / IZR 1000000000) by lra.
  replace 0.995880 with (IZR 995880 / IZR 1000000) by lra.
  exact H.
Qed.

End SpiralNumerics.

Module SpiralSample.

Import Geometry Spiral SpiralFacts SpiralOrder SpiralRun SpiralNumerics.
Local Open Scope R_scope.

(** *** The nearest sample in the middle of the grid *)

Lemma where_from_app {A : Type} (p : A -> bool) (l1 l2 : list A) (s : nat) :
  Np.where_from p (l1 ++ l2) s
  = Np.where_from p l1 s ++ Np.where_from p l2 (s + length l1).
Proof.
  revert s. induction l1 as [|x t IH]; intros s; cbn [app Np.where_from length].
  - now rewrite Nat.add_0_r.
  - rewrite IH. replace (S s + length t)%nat with (s + S (length t))%nat by lia.
    now destruct (p x).
Qed.

Lemma Rminl_at (d : R) (l : list R) :
  In d l -> Forall (fun x => d <= x) l -> Rminl l = d.
Proof.
  intros Hin Hall. apply Rle_antisym; [now apply Rminl_le|].
  unfold Rminl.
  assert (H0 : d <= hd 0 l).
  { destruct l as [|x0 t]; [contradiction|]. now inversion Hall. }
  generalize (hd 0 l) H0. intros e He. clear Hin H0.
  induction Hall as [|x l' Hx _ IH]; cbn [fold_right]; [exact He|].
  apply Rmin_glb; assumption.
Qed.

Lemma Rmaxl_at (d : R) (l : list R) :
  In d l -> Forall (fun x => x <= d) l -> Rmaxl l = d.
Proof.
  intros Hin Hall. apply Rle_antisym; [|now apply Rmaxl_ge].
  unfold Rmaxl.
  assert (H0 : hd 0 l <= d).
  { destruct l as [|x0 t]; [contradiction|]. now inversion Hall. }
  generalize (hd 0 l) H0. intros e He. clear Hin H0.
  induction Hall as [|x l' Hx _ IH]; cbn [fold_right]; [exact He|].
  apply Rmax_lub; assumption.
Qed.

(** A sample strictly nearer to the target than every other one is the one
    stored. *)
Lemma nearest_at (a ap t : R) (pre post : list R) :
  Forall (fun x => Rabs (arclen a t - ap) < Rabs (arclen a x - ap)) pre ->
  Forall (fun x => Rabs (arclen a t - ap) < Rabs (arclen a x - ap)) post ->
  nearest (map (fun s => s * a) (pre ++ t :: post)) (pre ++ t :: post)
          (map (arclen a) (pre ++ t :: post)) ap
  = Ok (t * a, t).
Proof.
  intros Hpre Hpost. unfold nearest. rewrite map_map.
  set (f := fun x => Rabs (arclen a x - ap)).
  set (d := f t).
  assert (Hmin : Rminl (map f (pre ++ t :: post)) = d).
  { apply Rminl_at.
    - apply in_map_iff. exists t. split; [reflexivity|].
      apply in_or_app. right. now left.
    - rewrite Forall_map. apply Forall_app. split; [|constructor].
      + eapply Forall_impl; [|exact Hpre]. intros x Hx. unfold d, f. lra.
      + unfold d. lra.
      + eapply Forall_impl; [|exact Hpost]. intros x Hx. unfold d, f. lra. }
  rewrite Hmin. unfold Np.where_.
  assert (Hfar : forall l, Forall (fun x => d < f x) l ->
                 Forall (fun x => Reqb x d = false) (map f l)).
  { intros l Hl. rewrite Forall_map. eapply Forall_impl; [|exact Hl].
    intros x Hx. cbv beta in Hx. unfold Reqb.
    destruct (Req_dec_T (f x) d); [lra|reflexivity]. }
  rewrite map_app, where_from_app. cbn [map Np.where_from].
  rewrite (@where_none _ _ _ 0%nat (Hfar _ Hpre)).
  rewrite (@where_none _ _ _ (S (0 + length (map f pre))) (Hfar _ Hpost)).
  assert (Hself : Reqb (f t) d = true) by now apply Reqb_eq.
  rewrite Hself. cbn [app Nat.add]. rewrite length_map.
  rewrite <- (length_map (fun s => s * a) pre) at 1.
  rewrite map_app. cbn [map]. rewrite nth_middle.
  now rewrite nth_middle.
Qed.

(** *** The grid cut at one of its samples *)

Lemma grid_split (g : nat -> R) (n j : nat) :
  (j < n)%nat ->
  map g (seq 0 n) = map g (seq 0 j) ++ g j :: map g (seq (S j) (n - S j)).
Proof.
  intros Hj. remember (n - S j)%nat as m eqn:Em.
  assert (En : n = (j + S m)%nat) by lia. rewrite En.
  rewrite seq_app, map_app. cbn [seq map Nat.add]. reflexivity.
Qed.

Lemma Rceil_between (x : R) (z : Z) : IZR z - 1 < x <= IZR z -> Rceil x = z.
Proof.
  intros [H1 H2]. unfold Rceil.
  assert (H : (- z)%Z = Int_part (- x)).
  { apply Int_part_spec. rewrite opp_IZR. lra. }
  rewrite <- H. lia.
Qed.

End SpiralSample.

Module SpiralWindow.

Import Geometry Spiral SpiralFacts SpiralNumerics.
Local Open Scope R_scope.

(** Twice the arc length for [a = 1]. *)
Local Abbreviation arc2 t := (t * sqrt (1 + t ^ 2) + ln (t + sqrt (1 + t ^ 2))).

Lemma root_last : 8.557727549 <= sqrt (1 + 8.4991 ^ 2) <= 8.557727550.
Proof. apply sqrt_enclosed; lra. Qed.

Lemma root_below : 5.983258377 <= sqrt (1 + 5.8991 ^ 2) <= 5.983258378.
Proof. apply sqrt_enclosed; lra. Qed.

Lemma root_mid : 5.984244314 <= sqrt (1 + 5.9001 ^ 2) <= 5.984244315.
Proof. apply sqrt_enclosed; lra. Qed.

Lemma root_above : 5.985230255 <= sqrt (1 + 5.9011 ^ 2) <= 5.985230256.
Proof. apply sqrt_enclosed; lra. Qed.

Lemma log_window :
  2 * ln (5.9001 + sqrt (1 + 5.9001 ^ 2)) - ln (8.4991 + sqrt (1 + 8.4991 ^ 2))
    <= 2.118656 /\
  ln (8.4991 + sqrt (1 + 8.4991 ^ 2)) - 2 * ln (5.9001 + sqrt (1 + 5.9001 ^ 2))
    <= - 2.109440.
Proof.
  pose proof root_last as HN. pose proof root_mid as Hj.
  set (sN := sqrt (1 + 8.4991 ^ 2)) in *. set (sj := sqrt (1 + 5.9001 ^ 2)) in *.
  set (yN := 8.4991 + sN). set (yj := 5.9001 + sj).
  assert (HyN : 17.056827549 <= yN <= 17.056827550) by (unfold yN; lra).
  assert (Hyj : 11.884344314 <= yj <= 11.884344315) by (unfold yj; lra).
  assert (Hsq : 141.237639 <= yj * yj <= 141.237640) by nra.
  split.
  - replace (2 * ln yj - ln yN) with (ln (yj * yj / yN)).
    2:{ unfold Rdiv. rewrite ln_mult, ln_mult, ln_Rinv by
          (try apply Rmult_lt_0_compat; try apply Rinv_0_lt_compat; lra). ring. }
    replace 2.118656 with (INR 512 * (1.004138 - 1)).
    2:{ rewrite INR_IZR_INZ. simpl Z.of_nat. lra. }
    apply ln_le_pow; [apply Rdiv_lt_0_compat; nra|lra|].
    apply Rle_trans with 8.280416707; [|apply power_up].
    apply Rmult_le_reg_r with yN; [lra|].
    replace (yj * yj / yN * yN) with (yj * yj) by (field; lra). nra.
  - replace (ln yN - 2 * ln yj) with (ln (yN / (yj * yj))).
    2:{ unfold Rdiv. rewrite ln_mult, ln_Rinv, ln_mult by
          (try apply Rinv_0_lt_compat; try apply Rmult_lt_0_compat; lra). ring. }
    replace (- 2.109440) with (INR 512 * (0.995880 - 1)).
    2:{ rewrite INR_IZR_INZ. simpl Z.of_nat. lra. }
    apply ln_le_pow; [apply Rdiv_lt_0_compat; nra|lra|].
    apply Rle_trans with 0.120766870; [|apply power_down].
    apply Rmult_le_reg_r with (yj * yj); [nra|].
    replace (yN / (yj * yj) * (yj * yj)) with yN by (field; nra). nra.
Qed.

(** Half the length of the spiral up to [8.4991] lies between the samples
    next to [5.9001], nearer to that one than to either. *)
Lemma arc_window (a : R) :
  0 < a ->
  arclen a 5.8991 + arclen a 5.9001 < arclen a 8.4991 /\
  arclen a 8.4991 < arclen a 5.9001 + arclen a 5.9011.
Proof.
  intros Ha.
  assert (H2 : arc2 5.8991 + arc2 5.9001 < arc2 8.4991 /\
               arc2 8.4991 < arc2 5.9001 + arc2 5.9011).
  { pose proof root_last as HN. pose proof root_mid as Hj.
    pose proof root_below as Hm. pose proof root_above as Hp.
    pose proof log_window as [Hl1 Hl2].
    assert (Lm : ln (5.8991 + sqrt (1 + 5.8991 ^ 2))
                 <= ln (5.9001 + sqrt (1 + 5.9001 ^ 2)))
      by (apply ln_le_compat; lra).
    assert (Lp : ln (5.9001 + sqrt (1 + 5.9001 ^ 2))
                 <= ln (5.9011 + sqrt (1 + 5.9011 ^ 2)))
      by (apply ln_le_compat; lra).
    set (sN := sqrt (1 + 8.4991 ^ 2)) in *. set (sj := sqrt (1 + 5.9001 ^ 2)) in *.
    set (sm := sqrt (1 + 5.8991 ^ 2)) in *. set (sp := sqrt (1 + 5.9011 ^ 2)) in *.
    split; lra. }
  destruct H2 as [H1 H3]. unfold arclen. split.
  - rewrite <- Rmult_plus_distr_l. apply Rmult_lt_compat_l; [lra|exact H1].
  - rewrite <- Rmult_plus_distr_l. apply Rmult_lt_compat_l; [lra|exact H3].
Qed.

End SpiralWindow.

Module SpiralPair.

Import Geometry Spiral SpiralFacts SpiralOrder SpiralRun SpiralSample SpiralWindow.
Local Open Scope R_scope.

Lemma arclen_le (a t1 t2 : R) :
  0 < a -> 0 < t1 -> t1 <= t2 -> arclen a t1 <= arclen a t2.
Proof.
  intros Ha H1 [Hlt| ->]; [left; now apply arclen_increasing|right; reflexivity].
Qed.

Lemma nearest_in (a ap t : R) (theta pre post : list R) :
  theta = pre ++ t :: post ->
  Forall (fun x => Rabs (arclen a t - ap) < Rabs (arclen a x - ap)) pre ->
  Forall (fun x => Rabs (arclen a t - ap) < Rabs (arclen a x - ap)) post ->
  nearest (map (fun s => s * a) theta) theta (map (arclen a) theta) ap = Ok (t * a, t).
Proof. intros ->. apply nearest_at. Qed.

(** The grid of [8500] samples up to [8.5], cut at the sample [5.9001]. *)
Lemma grid_cut :
  exists pre post,
    arangeR 0.0001 8.5 0.001 = pre ++ 5.9001 :: post /\
    Forall (fun x => 0 < x <= 5.8991) pre /\
    Forall (fun x => 5.9011 <= x <= 8.4991) post /\
    In 8.4991 post.
Proof.
  unfold arangeR. rewrite (@Rceil_between _ 8500%Z) by lra.
  set (g := fun k : nat => 0.0001 + INR k * 0.001).
  assert (Hj : (Z.to_nat 5900 < Z.to_nat 8500)%nat) by lia.
  rewrite (@grid_split g _ _ Hj).
  assert (Hg : forall k, g k = 0.0001 + IZR (Z.of_nat k) * 0.001).
  { intros k. unfold g. now rewrite INR_IZR_INZ. }
  exists (map g (seq 0 (Z.to_nat 5900))),
         (map g (seq (S (Z.to_nat 5900)) (Z.to_nat 8500 - S (Z.to_nat 5900)))).
  split; [|split; [|split]].
  - do 2 f_equal. rewrite Hg, Z2Nat.id by lia. lra.
  - apply Forall_forall. intros x Hx. apply in_map_iff in Hx.
    destruct Hx as [k [<- Hk]]. apply in_seq in Hk. rewrite Hg.
    assert (H0 : (0 <= Z.of_nat k <= 5899)%Z) by lia.
    destruct H0 as [H0 H1]. apply IZR_le in H0, H1. lra.
  - apply Forall_forall. intros x Hx. apply in_map_iff in Hx.
    destruct Hx as [k [<- Hk]]. apply in_seq in Hk. rewrite Hg.
    assert (H0 : (5901 <= Z.of_nat k <= 8499)%Z) by lia.
    destruct H0 as [H0 H1]. apply IZR_le in H0, H1. lra.
  - apply in_map_iff. exists (Z.to_nat 8499). split.
    + rewrite Hg, Z2Nat.id by lia. lra.
    + apply in_seq. lia.
Qed.

Lemma generate_nonempty (maxD nCoils : R) (numPoints : nat) :
  arangeR 0.0001 (nCoils * PI * 2) 0.001 <> [] ->
  generateSpiralOffsets maxD numPoints nCoils
  = let theta := arangeR 0.0001 (nCoils * PI * 2) 0.001 in
    let a := 0.85 * maxD / Rmaxl theta in
    let arc := map (arclen a) theta in
    found <- mapM (nearest (map (fun t => t * a) theta) theta arc)
                  (slice (arangeR 0 (Rmaxl arc) (Rmaxl arc / INR numPoints))
                         0 numPoints) ;;
    let pts := found ++ repeat (0, 0)
                 (numPoints - length (slice (arangeR 0 (Rmaxl arc)
                                               (Rmaxl arc / INR numPoints))
                                            0 numPoints)) in
    Ok (map (fun p => fst p * cos (snd p)) pts,
        map (fun p => fst p * sin (snd p)) pts).
Proof.
  intros Hne. unfold generateSpiralOffsets.
  destruct (arangeR 0.0001 (nCoils * PI * 2) 0.001); [congruence|reflexivity].
Qed.

(** The two targets of a request for two points. *)
Lemma two_targets (M : R) :
  0 < M -> slice (arangeR 0 M (M / INR 2)) 0 2 = [0; M / 2].
Proof.
  intros HM. unfold slice, arangeR. cbn [skipn Nat.sub].
  assert (Hq : (M - 0) / (M / INR 2) = INR 2).
  { cbn [INR]. field. lra. }
  rewrite Hq, Rceil_INR, Nat2Z.id. cbn [seq map firstn INR]. f_equal; [ring|].
  f_equal. field.
Qed.

(** Two points over [8.5 / (2 pi)] coils: the sample at the centre end of
    the spiral and the sample at [5.9001], which halves its length. *)
Lemma spiral_two_points (maxD : R) :
  0 < maxD ->
  generateSpiralOffsets maxD 2 (8.5 / (2 * PI))
  = Ok ([0.0001 * (0.85 * maxD / 8.4991) * cos 0.0001;
         5.9001 * (0.85 * maxD / 8.4991) * cos 5.9001],
        [0.0001 * (0.85 * maxD / 8.4991) * sin 0.0001;
         5.9001 * (0.85 * maxD / 8.4991) * sin 5.9001]).
Proof.
  intros Hm.
  assert (Hstop : 8.5 / (2 * PI) * PI * 2 = 8.5).
  { pose proof PI_RGT_0. field. lra. }
  assert (Hstep : 0 < 0.001) by lra.
  assert (Hlt : 0.0001 < 8.5) by lra.
  rewrite generate_nonempty; rewrite Hstop; [|now apply arangeR_nonempty].
  destruct (@arangeR_head 0.0001 8.5 0.001 Hstep Hlt) as [rest [Ehead Hrest]].
  destruct grid_cut as (pre & post & Ecut & Hpre & Hpost & Hlast).
  set (theta := arangeR 0.0001 8.5 0.001) in *. cbv zeta.
  rewrite Forall_forall in Hrest, Hpre, Hpost.
  assert (Hth : forall x, In x theta -> 0 < x <= 8.4991).
  { intros x Hx. rewrite Ecut in Hx. apply in_app_or in Hx.
    destruct Hx as [Hx|[<-|Hx]]; [apply Hpre in Hx|lra|apply Hpost in Hx]; lra. }
  assert (Hmax : Rmaxl theta = 8.4991).
  { apply Rmaxl_at.
    - rewrite Ecut. apply in_or_app. right. now right.
    - apply Forall_forall. intros x Hx. now apply Hth. }
  rewrite Hmax. set (a := 0.85 * maxD / 8.4991).
  assert (Ha : 0 < a) by (unfold a; apply Rdiv_lt_0_compat; lra).
  assert (HM : Rmaxl (map (arclen a) theta) = arclen a 8.4991).
  { apply Rmaxl_at.
    - apply in_map. rewrite Ecut. apply in_or_app. right. now right.
    - rewrite Forall_map. apply Forall_forall. intros x Hx.
      apply arclen_le; [exact Ha|apply (Hth x Hx)|apply (Hth x Hx)]. }
  rewrite HM. set (M := arclen a 8.4991).
  assert (HMpos : 0 < M) by (apply arclen_pos; lra).
  rewrite (two_targets HMpos). cbn [mapM].
  destruct (arc_window Ha) as [Hw1 Hw2]. fold M in Hw1, Hw2.
  assert (Hbelow : arclen a 5.8991 < arclen a 5.9001)
    by (apply arclen_increasing; lra).
  assert (Habove : arclen a 5.9001 < arclen a 5.9011)
    by (apply arclen_increasing; lra).
  rewrite (@nearest_in a 0 0.0001 theta [] rest Ehead).
  2:{ constructor. }
  2:{ apply Forall_forall. intros x Hx.
      assert (H1 : 0 < arclen a 0.0001) by (apply arclen_pos; lra).
      assert (H2 : arclen a 0.0001 < arclen a x)
        by (apply arclen_increasing; [exact Ha|lra|now apply Hrest]).
      rewrite !Rminus_0_r, !Rabs_pos_eq by lra. exact H2. }
  rewrite (@nearest_in a (M / 2) 5.9001 theta pre post Ecut).
  2:{ apply Forall_forall. intros x Hx. apply Hpre in Hx.
      assert (H1 : arclen a x <= arclen a 5.8991) by (apply arclen_le; lra).
      unfold Rabs. repeat destruct Rcase_abs; lra. }
  2:{ apply Forall_forall. intros x Hx. apply Hpost in Hx.
      assert (H1 : arclen a 5.9011 <= arclen a x) by (apply arclen_le; lra).
      unfold Rabs. repeat destruct Rcase_abs; lra. }
  cbn [bind mapM length Nat.sub repeat app map fst snd]. reflexivity.
Qed.

End SpiralPair.

(** C6. Whenever the spiral generator emits its offsets, for at least one
    point, at least one coil and a positive [maxDither], it emits
    [numPoints] of them, their distances to the centre are in non-decreasing
    order of emission, and none exceeds [0.85 * maxDither]. *)
Theorem C6_spiral_radii (maxD nCoils : R) (numPoints : nat) (xOff yOff : list R) :
  (1 <= numPoints)%nat -> (1 <= nCoils)%R -> (0 < maxD)%R ->
  Spiral.generateSpiralOffsets maxD numPoints nCoils = Ok (xOff, yOff) ->
  length xOff = numPoints /\ length yOff = numPoints /\
  StronglySorted Rle (Spiral.radii xOff yOff) /\
  Forall (fun r => (r <= 0.85 * maxD)%R) (Spiral.radii xOff yOff).
Proof.
  intros Hn Hc Hm. unfold Spiral.generateSpiralOffsets.
  pose proof (SpiralOrder.theta_nonempty Hc) as Hne.
  pose proof (SpiralOrder.a_pos Hm Hc) as Ha.
  pose proof (SpiralOrder.arc_max_pos Hm Hc) as HM.
  pose proof (SpiralOrder.theta_pos nCoils) as Hpos.
  pose proof (SpiralOrder.sample_radius Hm Hc) as Hrad.
  set (theta := Spiral.arangeR 0.0001 (nCoils * PI * 2) 0.001) in *.
  set (a := (0.85 * maxD / Spiral.Rmaxl theta)%R) in *.
  set (M := Spiral.Rmaxl (map (Spiral.arclen a) theta)) in *.
  destruct theta as [|t0 rest] eqn:Eth; [congruence|]. rewrite <- Eth in *.
  destruct (mapM _ _) as [pts|] eqn:Hpts; [|discriminate]. cbn [bind].
  assert (Harc : length (Geometry.slice
                           (Spiral.arangeR 0 M (M / INR numPoints)) 0 numPoints)
                 = numPoints) by now apply SpiralOrder.arcpts_length.
  rewrite Harc, Nat.sub_diag. cbn [repeat]. rewrite app_nil_r.
  intros [= <- <-]. apply SpiralOrder.mapM_Forall2 in Hpts.
  assert (Hlen : length pts = numPoints).
  { now rewrite <- (SpiralOrder.Forall2_length_eq Hpts). }
  assert (Hbound : Forall (fun p => (0 <= fst p <= 0.85 * maxD)%R) pts).
  { eapply SpiralOrder.Forall2_right; [|exact Hpts].
    intros ap [r t] Hnear. cbn [fst].
    destruct (SpiralFacts.nearest_spec _ _ _ Hnear) as (Hin & -> & _).
    now apply Hrad. }
  rewrite !length_map, SpiralOrder.radii_polar.
  2:{ eapply Forall_impl; [|exact Hbound]. intros p Hp. apply Hp. }
  repeat split; try assumption.
  - eapply SpiralOrder.Forall2_sorted; [|exact Hpts|].
    + intros ap1 ap2 [r1 t1] [r2 t2] H1 H2 Hle. cbn [fst].
      exact (SpiralFacts.nearest_monotone Ha Hpos H1 H2 Hle).
    + apply SpiralOrder.arcpts_sorted.
      apply Rlt_le, Rdiv_lt_0_compat; [exact HM|apply lt_0_INR; lia].
  - rewrite Forall_map. eapply Forall_impl; [|exact Hbound]. intros p Hp. apply Hp.
Qed.

Lemma C6_witness :
  let a := (0.85 * 1 / 8.4991)%R in
  let xOff := [(0.0001 * a * cos 0.0001)%R; (5.9001 * a * cos 5.9001)%R] in
  let yOff := [(0.0001 * a * sin 0.0001)%R; (5.9001 * a * sin 5.9001)%R] in
  Spiral.generateSpiralOffsets 1 2 (8.5 / (2 * PI)) = Ok (xOff, yOff) /\
  length xOff = 2%nat /\ length yOff = 2%nat /\
  StronglySorted Rle (Spiral.radii xOff yOff) /\
  Forall (fun r => (r <= 0.85 * 1)%R) (Spiral.radii xOff yOff).
Proof.
  cbv zeta.
  assert (H1 : (0 < 1)%R) by lra.
  assert (Hc : (1 <= 8.5 / (2 * PI))%R).
  { pose proof PI_4. pose proof PI_RGT_0.
    apply Rmult_le_reg_r with (2 * PI)%R; [lra|].
    replace (8.5 / (2 * PI) * (2 * PI))%R with 8.5%R by (field; lra). lra. }
  pose proof (@SpiralPair.spiral_two_points 1 H1) as H.
  split; [exact H|].
  exact (@C6_spiral_radii 1 (8.5 / (2 * PI)) 2 _ _ (le_S 1 1 (le_n 1)) Hc H1 H).
Defined.

(** ** Runs on the example batches *)

Module BatchFacts.

Import Geometry Stackers.
Local Open Scope R_scope.

Lemma defaultMaxDither_pos : 0 < defaultMaxDither.
Proof. unfold defaultMaxDither. pose proof PI_RGT_0. lra. Qed.

(** The draw [(1/4, 0)] is the point [(maxD/2, 0)], inside the hexagon. *)
Lemma candidate_half (maxD : R) :
  RandomGen.candidate maxD (1 # 4) 0 = (0.5 * maxD, 0).
Proof.
  unfold RandomGen.candidate. cbv zeta.
  assert (Hq : Q2R (1 # 4) = 0.5 * 0.5) by (unfold Q2R; cbn; lra).
  rewrite Hq, RepFacts.Q2R_0, sqrt_square by lra.
  replace (0 * PI * 2) with 0 by ring. rewrite cos_0, sin_0. f_equal; ring.
Qed.

Lemma half_inside (maxD : R) : 0 < maxD -> insideHexb maxD (0.5 * maxD) 0 = true.
Proof.
  intros H. apply HexagonFacts.insideHexb_iff.
  unfold insideHex, hex_m, hex_b, hex_h. pose proof HexagonFacts.sqrt3_pos.
  assert (0 < sqrt 3 * maxD) by (apply Rmult_lt_0_compat; assumption).
  repeat split; nra.
Qed.

Lemma random_half (maxD : R) :
  0 < maxD ->
  RandomGen.generateRandomOffsets maxD 1 [1 # 4; 1 # 4]%Q [0; 0]%Q
  = Some ([0.5 * maxD], [0]).
Proof.
  intros H. unfold RandomGen.generateRandomOffsets.
  rewrite !RunFacts.candidates_cons, RunFacts.candidates_nil, candidate_half.
  cbn [Np.where_ Np.where_from fst snd].
  rewrite (half_inside H). reflexivity.
Qed.

(** Unfolds a field loop, a key loop or a per-visit sum on a concrete batch. *)
Ltac eval_rows :=
  cbn [foldM bind fst snd takeE mapM RepRandom.nthE nth_error Np.take map nth
       raCol decCol fieldIdCol nightCol seasonCol single twoFields
       addOverCos addR length repeat Np.put Np.set_nth combine
       Np.where_ Np.where_from Z.eqb Pos.eqb broadcast Nat.eqb
       setOffsets offsets getOffsets].

Lemma fieldPerNight_single (self : RandomStacker) (x0 y0 : R) :
  fieldPerNight (setOffsets self ([x0], [y0])) single
  = Ok (wrapped ([0 + x0 / cos 0], [0 + y0])).
Proof.
  unfold fieldPerNight, fieldRun. eval_rows.
  change (Assign.randomFieldPerNight [1%Z] [1%Z] 1) with [(1%Z, ([0%nat], [0%nat]))].
  unfold addStackers, assignRows. eval_rows.
  rewrite !RunFacts.divCos_0. eval_rows. reflexivity.
Qed.

Lemma fieldPerNight_twoFields (self : RandomStacker) (x0 y0 : R) :
  fieldPerNight (setOffsets self ([x0], [y0])) twoFields
  = Ok (wrapped ([0 + x0 / cos 0; 0 + x0 / cos 0], [0 + y0; 0 + y0])).
Proof.
  unfold fieldPerNight, fieldRun. eval_rows.
  change (Assign.randomFieldPerNight [1; 2]%Z [1; 1]%Z 1)
    with [(1%Z, ([0%nat], [0%nat])); (2%Z, ([1%nat], [0%nat]))].
  unfold addStackers, assignRows. eval_rows.
  rewrite !RunFacts.divCos_0. eval_rows. reflexivity.
Qed.

(** A radius draw of 0 is the centre of the disk, whatever the angle. *)
Lemma candidate_centre (maxD : R) (v : Q) : RandomGen.candidate maxD 0 v = (0, 0).
Proof.
  unfold RandomGen.candidate. cbv zeta.
  rewrite RepFacts.Q2R_0, sqrt_0. f_equal; ring.
Qed.

(** One offset is asked for and the first candidate is the centre. *)
Lemma random_centre_first (maxD : R) (a b c : Q) :
  0 < maxD ->
  RandomGen.generateRandomOffsets maxD 1 [0; a]%Q [b; c]%Q = Some ([0], [0]).
Proof.
  intros H. unfold RandomGen.generateRandomOffsets.
  rewrite !RunFacts.candidates_cons, RunFacts.candidates_nil, candidate_centre.
  cbn [Np.where_ Np.where_from fst snd]. rewrite (RunFacts.origin_inside H).
  destruct (insideHexb maxD _ _); reflexivity.
Qed.


(** A sequence of one offset broadcasts over the rows of a batch. *)
Lemma perVisit_single (self : RandomStacker) (x0 y0 : R) :
  perVisit (setOffsets self ([x0], [y0])) single
  = Ok (wrapped ([0 + x0 / cos 0], [0 + y0])).
Proof. unfold perVisit. eval_rows. reflexivity. Qed.


End BatchFacts.

(** C4. The uniform generator only prints when too few candidates fall in
    the hexagon and leaves [self.xOff], [self.yOff] as they were.  A
    [RandomDitherFieldPerNightStacker] of default [maxDither] is run on a
    batch of one record, which leaves a sequence of one offset in the
    object, then on a batch of two records for which none of the four
    candidates is inside the hexagon: the second run raises nothing and
    returns columns computed from the one-entry sequence of the first run,
    the same offset on both rows.  On a new object the same batch ends in
    an [AttributeError]. *)
Theorem C4_short_yield_reuses_stale_offsets :
  let run := Stackers.RandomDitherFieldPerNight_run
               (Stackers.tapeSeed Stackers.tapeTwoRuns) Stackers.tapeRand in
  let m := Stackers.defaultMaxDither in
  let new := Stackers.newStacker m None in
  let out1 := run new Stackers.tapeTwoRuns Stackers.single in
  let out2 := run (snd (fst out1)) (snd out1) Stackers.twoFields in
  out1 = (Ok (Stackers.wrapped ([0 + 0.5 * m / cos 0], [0 + 0])),
          Stackers.setOffsets new ([0.5 * m], [0]), Stackers.tapeShort)%R /\
  RandomGen.generateRandomOffsets m 2
    (firstn 4 Stackers.tapeShort) (skipn 4 Stackers.tapeShort) = None /\
  out2 = (Ok (Stackers.wrapped ([0 + 0.5 * m / cos 0; 0 + 0.5 * m / cos 0],
                                [0 + 0; 0 + 0])),
          Stackers.setOffsets new ([0.5 * m], [0]), [])%R /\
  fst (fst (run new Stackers.tapeShort Stackers.twoFields)) = Raise AttributeError.
Proof.
  cbv zeta.
  pose proof BatchFacts.defaultMaxDither_pos as Hm.
  assert (H1 : Stackers.RandomDitherFieldPerNight_run
                 (Stackers.tapeSeed Stackers.tapeTwoRuns) Stackers.tapeRand
                 (Stackers.newStacker Stackers.defaultMaxDither None)
                 Stackers.tapeTwoRuns Stackers.single
               = (Ok (Stackers.wrapped
                        ([0 + 0.5 * Stackers.defaultMaxDither / cos 0], [0 + 0])),
                  Stackers.setOffsets
                    (Stackers.newStacker Stackers.defaultMaxDither None)
                    ([0.5 * Stackers.defaultMaxDither], [0]),
                  Stackers.tapeShort)%R).
  { unfold Stackers.RandomDitherFieldPerNight_run, Stackers.reseed, Stackers.genRandom.
    cbn [Stackers.randomSeed Stackers.newStacker Stackers.maxDither Stackers.single
         Stackers.raCol length].
    change (Stackers.tapeRand Stackers.tapeTwoRuns (1 * 2))
      with ([1 # 4; 1 # 4]%Q, ([0; 0] ++ Stackers.tapeShort)%Q).
    cbv beta iota.
    change (Stackers.tapeRand ([0; 0] ++ Stackers.tapeShort)%Q (1 * 2))
      with ([0; 0]%Q, Stackers.tapeShort).
    cbv beta iota.
    rewrite (BatchFacts.random_half Hm), BatchFacts.fieldPerNight_single.
    reflexivity. }
  assert (H0 : RandomGen.generateRandomOffsets Stackers.defaultMaxDither 2
                 (firstn 4 Stackers.tapeShort) (skipn 4 Stackers.tapeShort) = None).
  { exact (RunFacts.random_short Hm). }
  rewrite H1. cbn [fst snd]. repeat split.
  - exact H0.
  - unfold Stackers.RandomDitherFieldPerNight_run, Stackers.reseed, Stackers.genRandom.
    cbn [Stackers.randomSeed Stackers.newStacker Stackers.maxDither Stackers.twoFields
         Stackers.raCol length Stackers.setOffsets].
    change (Stackers.tapeRand Stackers.tapeShort (2 * 2))
      with (firstn 4 Stackers.tapeShort, skipn 4 Stackers.tapeShort).
    cbv beta iota.
    change (Stackers.tapeRand (skipn 4 Stackers.tapeShort) (2 * 2))
      with (skipn 4 Stackers.tapeShort, @nil Q).
    cbv beta iota. rewrite H0.
    change {| Stackers.maxDither := Stackers.defaultMaxDither;
              Stackers.randomSeed := None;
              Stackers.offsets := Some ([(0.5 * Stackers.defaultMaxDither)%R], [0%R]) |}
      with (Stackers.setOffsets (Stackers.newStacker Stackers.defaultMaxDither None)
              ([(0.5 * Stackers.defaultMaxDither)%R], [0%R])).
    now rewrite BatchFacts.fieldPerNight_twoFields.
  - unfold Stackers.RandomDitherFieldPerNight_run, Stackers.reseed, Stackers.genRandom.
    cbn [Stackers.randomSeed Stackers.newStacker Stackers.maxDither Stackers.twoFields
         Stackers.raCol length].
    change (Stackers.tapeRand Stackers.tapeShort (2 * 2))
      with (firstn 4 Stackers.tapeShort, skipn 4 Stackers.tapeShort).
    cbv beta iota.
    change (Stackers.tapeRand (skipn 4 Stackers.tapeShort) (2 * 2))
      with (skipn 4 Stackers.tapeShort, @nil Q).
    cbv beta iota. rewrite H0. reflexivity.
Qed.


(** ** Season stackers on two overflow seasons *)

Module SeasonRun.

Import Geometry Stackers.
Local Open Scope R_scope.

(** The three guarded stackers stop on two distinct seasons above 9. *)
Lemma guarded_runs_stop (maxD : R) (d : SimData) :
  seasonCol d = [8; 10; 11; 0]%Z ->
  PentagonDitherFieldPerSeason_run maxD d = Raise NameError /\
  PentagonDiamondDitherFieldPerSeason_run maxD d = Raise NameError /\
  PentagonDiamondDitherPerSeason_run maxD d = Raise NameError.
Proof.
  intros H.
  unfold PentagonDitherFieldPerSeason_run, PentagonDiamondDitherFieldPerSeason_run,
    PentagonDiamondDitherPerSeason_run.
  rewrite H.
  change (Season.checked_wrap [8; 10; 11; 0]%Z) with (@Raise (list Z) NameError).
  repeat split.
Qed.

(** [PentagonDitherPerSeasonStacker.run] returns on the same seasons: the
    rows of season 10 and of season 0 get vertex 0, the row of season 11
    vertex 1 and the row of season 8 vertex 2. *)
Lemma per_season_run_returns (maxD : R) :
  exists xOff yOff : list R,
    Polygon.generatePentagonOffsets maxD = Ok (xOff, yOff) /\
    PentagonDitherPerSeason_run maxD overflow
    = Ok (wrapped ([0 + nth 2 xOff 0 / cos 0; 0 + nth 0 xOff 0 / cos 0;
                    0 + nth 1 xOff 0 / cos 0; 0 + nth 0 xOff 0 / cos 0],
                   [0 + nth 2 yOff 0; 0 + nth 0 yOff 0;
                    0 + nth 1 yOff 0; 0 + nth 0 yOff 0])).
Proof.
  assert (E : exists xOff yOff : list R,
             Polygon.generatePentagonOffsets maxD = Ok (xOff, yOff)
             /\ length xOff = 10%nat
             /\ (exists x0 x1 x2 xs, xOff = x0 :: x1 :: x2 :: xs)
             /\ (exists y0 y1 y2 ys, yOff = y0 :: y1 :: y2 :: ys)).
  { unfold Polygon.generatePentagonOffsets, polygonCoords.
    cbn [Nat.eqb bind seq map app]. do 2 eexists. split; [reflexivity|].
    split; [reflexivity|]. split; do 4 eexists; reflexivity. }
  destruct E as (xOff & yOff & Egen & Hlen & (x0 & x1 & x2 & xs & ->)
                 & (y0 & y1 & y2 & ys & ->)).
  exists (x0 :: x1 :: x2 :: xs), (y0 :: y1 :: y2 :: ys). split; [exact Egen|].
  unfold PentagonDitherPerSeason_run.
  cbn [seasonCol overflow].
  change (Season.unchecked_wrap [8; 10; 11; 0]%Z) with (Ok [8; 0; 1; 0]%Z).
  rewrite Egen. cbn [bind fst]. rewrite Hlen.
  change (Assign.perKey [8; 0; 1; 0]%Z 10)
    with (Ok [(0%Z, ([1%nat; 3%nat], 0%nat)); (1%Z, ([2%nat], 1%nat));
              (8%Z, ([0%nat], 2%nat))]).
  unfold keyRun, addStackers, assignConst.
  do 4 (cbn [seq map app fst snd foldM bind RepRandom.nthE nth_error raCol decCol
             overflow Np.take nth length repeat addOverCos addR Np.put Np.set_nth];
        rewrite ?RunFacts.divCos_0).
  reflexivity.
Qed.

End SeasonRun.

(** C5. [PentagonDitherPerSeasonStacker.run] has its season guard commented
    out: on the seasons [[8, 10, 11, 0]] it does not stop but wraps both
    overflow seasons, to [[8, 0, 1, 0]], ranks the wrapped seasons and
    returns its columns, the rows of season 10 and season 0 sharing vertex 0.
    The three other season stackers stop on the same batch, and the remap of
    [[8, 9, 10, 10, 0]] is [[8, 9, 0, 0, 0]]. *)
Theorem C5_per_season_wraps_two_overflow_seasons (maxD : R) :
  Season.unchecked_wrap [8; 10; 11; 0]%Z = Ok [8; 0; 1; 0]%Z
  /\ Assign.perKey [8; 0; 1; 0]%Z 10
     = Ok [(0%Z, ([1%nat; 3%nat], 0%nat)); (1%Z, ([2%nat], 1%nat));
           (8%Z, ([0%nat], 2%nat))]
  /\ (exists xOff yOff : list R,
        Polygon.generatePentagonOffsets maxD = Ok (xOff, yOff) /\
        Stackers.PentagonDitherPerSeason_run maxD Stackers.overflow
        = Ok (Stackers.wrapped
                ([0 + nth 2 xOff 0 / cos 0; 0 + nth 0 xOff 0 / cos 0;
                  0 + nth 1 xOff 0 / cos 0; 0 + nth 0 xOff 0 / cos 0],
                 [0 + nth 2 yOff 0; 0 + nth 0 yOff 0;
                  0 + nth 1 yOff 0; 0 + nth 0 yOff 0]))%R)
  /\ Stackers.PentagonDitherFieldPerSeason_run maxD Stackers.overflow = Raise NameError
  /\ Stackers.PentagonDiamondDitherFieldPerSeason_run maxD Stackers.overflow = Raise NameError
  /\ Stackers.PentagonDiamondDitherPerSeason_run maxD Stackers.overflow = Raise NameError
  /\ Season.checked_wrap [8; 9; 10; 10; 0]%Z = Ok [8; 9; 0; 0; 0]%Z.
Proof.
  destruct (@SeasonRun.guarded_runs_stop maxD Stackers.overflow eq_refl) as (G1 & G2 & G3).
  repeat split; try assumption.
  apply SeasonRun.per_season_run_returns.
Qed.

(** ** The cursor of the random per-field-per-night stackers *)

Module CursorFacts.

Import Geometry Stackers BatchFacts.
Local Open Scope R_scope.

(** With two offsets in the object, the rows of field 1 and of field 2 are
    both dithered by the first one; the second is never read. *)
Lemma fieldPerNight_two_offsets (self : RandomStacker) (x0 x1 y0 y1 : R) :
  fieldPerNight (setOffsets self ([x0; x1], [y0; y1])) twoFields
  = Ok (wrapped ([0 + x0 / cos 0; 0 + x0 / cos 0], [0 + y0; 0 + y0])).
Proof.
  unfold fieldPerNight, fieldRun. eval_rows.
  change (Assign.randomFieldPerNight [1; 2]%Z [1; 1]%Z 2)
    with [(1%Z, ([0%nat], [0%nat])); (2%Z, ([1%nat], [0%nat]))].
  unfold addStackers, assignRows. eval_rows.
  rewrite !RunFacts.divCos_0. eval_rows. reflexivity.
Qed.

End CursorFacts.

(** C1. In the per-field-per-night loop of the two random stackers the
    counter [delta] is computed but the indices shifted by it are overwritten
    by the per-field night ranks: on the batch with fields [[1, 2]] observed
    on night 1 (two offsets generated), field 1 and field 2 both read offset
    index 0, although the cursor has advanced to 1 for the second field, and
    the rest of the run dithers both rows by the first offset. *)
Theorem C1_offset_index_reused_across_fields :
  Assign.randomFieldPerNight [1; 2]%Z [1; 1]%Z 2
  = [(1%Z, ([0%nat], [0%nat])); (2%Z, ([1%nat], [0%nat]))]
  /\ Assign.indicesPerField [1; 2]%Z [1; 1]%Z 2 = [(1%Z, [0%nat]); (2%Z, [0%nat])]
  /\ fst (Assign.randomFieldPerNight_step [1; 2]%Z [1; 1]%Z 2 0 1%Z) = 1%nat
  /\ forall (self : Stackers.RandomStacker) (x0 x1 y0 y1 : R),
       Stackers.fieldPerNight (Stackers.setOffsets self ([x0; x1], [y0; y1]))
                              Stackers.twoFields
       = Ok (Stackers.wrapped ([0 + x0 / cos 0; 0 + x0 / cos 0],
                               [0 + y0; 0 + y0]))%R.
Proof.
  split; [reflexivity|]. split; [reflexivity|]. split; [reflexivity|].
  apply CursorFacts.fieldPerNight_two_offsets.
Qed.


(** * Further properties of the code *)

(** ** Season wrap, entry by entry *)

Module SeasonFacts.

Import Np.

Lemma set_nth_app {A : Type} (pre : list A) (x v : A) (t : list A) :
  set_nth (pre ++ x :: t) (length pre) v = pre ++ v :: t.
Proof. induction pre as [|a pre IH]; simpl; [reflexivity|]. now rewrite IH. Qed.

(** Writing [g] of the selected entries back at the positions of [np.where]
    is an entry-wise update. *)
Lemma put_where_from {A : Type} (p : A -> bool) (g : A -> A) (a pre : list A) :
  put (pre ++ a) (where_from p a (length pre)) (map g (filter p a))
  = pre ++ map (fun x => if p x then g x else x) a.
Proof.
  revert pre. induction a as [|x t IH]; intros pre; simpl.
  - reflexivity.
  - destruct (p x) eqn:Hp; simpl.
    + rewrite set_nth_app.
      specialize (IH (pre ++ [g x])).
      rewrite <- !app_assoc, length_app in IH. simpl in IH.
      rewrite Nat.add_1_r in IH. exact IH.
    + specialize (IH (pre ++ [x])).
      rewrite <- !app_assoc, length_app in IH. simpl in IH.
      rewrite Nat.add_1_r in IH. exact IH.
Qed.

Lemma wrap_map (seasons : list Z) : Season.wrap seasons = map Season.wrap_label seasons.
Proof.
  unfold Season.wrap, Season.ind. rewrite NpFacts.take_where.
  exact (put_where_from (fun s => (9 <? s)%Z) (fun s => (s mod 10)%Z) seasons []).
Qed.

Lemma wrap_label_le (s : Z) : (Season.wrap_label s <= 9)%Z.
Proof.
  unfold Season.wrap_label. destruct (9 <? s)%Z eqn:E.
  - pose proof (Z.mod_pos_bound s 10). lia.
  - apply Z.ltb_ge in E. exact E.
Qed.

Lemma wrap_label_small (s : Z) : (s <= 9)%Z -> Season.wrap_label s = s.
Proof.
  intros H. unfold Season.wrap_label.
  destruct (9 <? s)%Z eqn:E; [apply Z.ltb_lt in E; lia|reflexivity].
Qed.

(** The distinct values of a list are a single one exactly when all its
    entries are equal. *)
Lemma unique_single (l : list Z) :
  (length (unique l) <= 1)%nat <-> (forall a b, In a l -> In b l -> a = b).
Proof.
  split.
  - intros Hlen a b Ha Hb.
    apply NpFacts.in_unique in Ha. apply NpFacts.in_unique in Hb.
    destruct (unique l) as [|c [|c' t]]; simpl in *.
    + contradiction.
    + destruct Ha as [<-|[]]. destruct Hb as [<-|[]]. reflexivity.
    + lia.
  - intros Hall. induction l as [|v t IH]; simpl; [lia|].
    assert (Ht : forall a b, In a t -> In b t -> a = b).
    { intros a b Ha Hb. apply Hall; now right. }
    specialize (IH Ht).
    destruct (unique t) as [|c [|c' t']] eqn:E; simpl in *; try lia.
    assert (Hc : c = v).
    { assert (In c t) by (apply NpFacts.in_unique; rewrite E; now left).
      apply Hall; [now right|now left]. }
    subst c. rewrite Z.ltb_irrefl, Z.eqb_refl. simpl. lia.
Qed.

End SeasonFacts.

(** X1. The season wrap rewrites the column entry by entry: a season above 9
    becomes its remainder modulo 10 and any other season is kept.  The
    wrapped column has the length of the input, none of its entries exceeds
    9, and wrapping it again changes nothing. *)
Theorem X1_season_wrap_entrywise (seasons : list Z) :
  Season.wrap seasons = map Season.wrap_label seasons /\
  length (Season.wrap seasons) = length seasons /\
  Forall (fun s => (s <= 9)%Z) (Season.wrap seasons) /\
  Season.wrap (Season.wrap seasons) = Season.wrap seasons.
Proof.
  rewrite !SeasonFacts.wrap_map. repeat split.
  - apply length_map.
  - apply Forall_forall. intros s Hs. apply in_map_iff in Hs.
    destruct Hs as [x [<- _]]. apply SeasonFacts.wrap_label_le.
  - rewrite map_map. apply map_ext. intros x.
    apply SeasonFacts.wrap_label_small, SeasonFacts.wrap_label_le.
Qed.

(** X2. The guarded season wrap returns exactly when all the seasons above 9
    of the column are equal, and then it returns the wrapped column; with
    two different seasons above 9 it stops on the undefined name. *)
Theorem X2_checked_wrap_guard (seasons : list Z) :
  ((forall a b, In a seasons -> In b seasons -> (9 < a)%Z -> (9 < b)%Z -> a = b) ->
   Season.checked_wrap seasons = Ok (Season.wrap seasons)) /\
  (forall a b, In a seasons -> In b seasons -> (9 < a)%Z -> (9 < b)%Z -> a <> b ->
   Season.checked_wrap seasons = Raise NameError).
Proof.
  unfold Season.checked_wrap, Season.ind. rewrite NpFacts.take_where.
  pose proof (SeasonFacts.unique_single (filter (fun s => (9 <? s)%Z) seasons)) as Hu.
  split.
  - intros Hall.
    destruct (1 <? _)%nat eqn:E; [|reflexivity].
    apply Nat.ltb_lt in E. exfalso.
    assert (Hle : (length (Np.unique (filter (fun s => (9 <? s)%Z) seasons)) <= 1)%nat).
    { apply Hu. intros a b Ha Hb. apply filter_In in Ha, Hb.
      destruct Ha as [Ha Ha9]. destruct Hb as [Hb Hb9].
      apply Z.ltb_lt in Ha9, Hb9. now apply Hall. }
    lia.
  - intros a b Ha Hb Ha9 Hb9 Hne.
    destruct (1 <? _)%nat eqn:E; [reflexivity|].
    apply Nat.ltb_ge in E. exfalso. apply Hne.
    apply (proj1 Hu E); apply filter_In; split; try assumption; now apply Z.ltb_lt.
Qed.

Lemma X2_witness :
  Season.checked_wrap [8; 9; 10; 10; 0]%Z = Ok (Season.wrap [8; 9; 10; 10; 0]%Z) /\
  Season.checked_wrap [8; 10; 11; 0]%Z = Raise NameError.
Proof.
  split.
  - apply (proj1 (X2_checked_wrap_guard [8; 9; 10; 10; 0]%Z)).
    intros a b Ha Hb Ha9 Hb9. simpl in Ha, Hb. lia.
  - apply (proj2 (X2_checked_wrap_guard [8; 10; 11; 0]%Z) 10%Z 11%Z);
      simpl; try lia; tauto.
Defined.

(** ** Ranks and assignment loops *)

Module RankFacts.

Import Np.

Lemma insert_uniq_sorted (v : Z) (l : list Z) :
  StronglySorted Z.lt l -> StronglySorted Z.lt (insert_uniq v l).
Proof.
  induction 1 as [|a t Ht IH Ha]; simpl.
  - repeat constructor.
  - destruct (v <? a)%Z eqn:Hlt.
    + apply Z.ltb_lt in Hlt. constructor; [now constructor|].
      constructor; [exact Hlt|].
      eapply Forall_impl; [|exact Ha]. intros x Hx. lia.
    + destruct (v =? a)%Z eqn:Heq; [now constructor|].
      apply Z.ltb_ge in Hlt. apply Z.eqb_neq in Heq.
      constructor; [exact IH|].
      apply Forall_forall. intros x Hx. apply NpFacts.in_insert_uniq in Hx.
      destruct Hx as [->|Hx]; [lia|].
      rewrite Forall_forall in Ha. now apply Ha.
Qed.

(** [np.unique] is strictly increasing. *)
Lemma unique_sorted (a : list Z) : StronglySorted Z.lt (unique a).
Proof.
  induction a as [|v t IH]; simpl; [constructor|now apply insert_uniq_sorted].
Qed.

Lemma searchsorted1_le_length (s : list Z) (v : Z) :
  (searchsorted1 s v <= length s)%nat.
Proof.
  induction s as [|a t IH]; simpl; [lia|]. destruct (a <? v)%Z; lia.
Qed.

(** In a strictly increasing array the rank of a member is below the length,
    and ranks grow strictly with the members. *)
Lemma searchsorted1_member (s : list Z) (v : Z) :
  StronglySorted Z.lt s -> In v s -> (searchsorted1 s v < length s)%nat.
Proof.
  induction 1 as [|a t Ht IH Ha]; intros Hin; simpl in *; [contradiction|].
  destruct (a <? v)%Z eqn:Hlt; [|lia].
  apply Z.ltb_lt in Hlt. destruct Hin as [->|Hin]; [lia|].
  specialize (IH Hin). lia.
Qed.

Lemma searchsorted1_strict (s : list Z) (v1 v2 : Z) :
  StronglySorted Z.lt s -> In v1 s -> (v1 < v2)%Z ->
  (searchsorted1 s v1 < searchsorted1 s v2)%nat.
Proof.
  induction 1 as [|a t Ht IH Ha]; intros Hin Hlt; simpl in *; [contradiction|].
  destruct (a <? v1)%Z eqn:H1.
  - apply Z.ltb_lt in H1.
    assert (H2 : (a <? v2)%Z = true) by (apply Z.ltb_lt; lia).
    rewrite H2. destruct Hin as [->|Hin]; [lia|].
    specialize (IH Hin Hlt). lia.
  - apply Z.ltb_ge in H1.
    assert (Hv : v1 = a).
    { destruct Hin as [->|Hin]; [reflexivity|].
      rewrite Forall_forall in Ha. specialize (Ha v1 Hin). lia. }
    subst a. assert (H2 : (v1 <? v2)%Z = true) by now apply Z.ltb_lt.
    rewrite H2. lia.
Qed.

Lemma mod_lt (v n : nat) : (0 < n)%nat -> (mod_ v n < n)%nat.
Proof.
  intros Hn. unfold mod_. destruct (n =? 0)%nat eqn:E.
  - apply Nat.eqb_eq in E. lia.
  - apply Nat.mod_upper_bound. lia.
Qed.

Lemma mod_small (v n : nat) : (v < n)%nat -> mod_ v n = v.
Proof.
  intros Hv. unfold mod_. destruct (n =? 0)%nat eqn:E.
  - apply Nat.eqb_eq in E. lia.
  - now apply Nat.mod_small.
Qed.

(** With a non-empty offset sequence the loop over nights or seasons
    returns: its running [vertexID] and the rows of each key. *)
Lemma perKey_loop_ok (keyCol : list Z) (n : nat) (keys : list Z) :
  (0 < n)%nat ->
  forall v, exists l,
    Assign.perKey_loop keyCol n v keys = Ok l /\
    map (fun e => snd (snd e)) l
    = map (fun i => ((v + i) mod n)%nat) (seq 0 (length keys)) /\
    map (fun e => (fst e, fst (snd e))) l
    = map (fun k => (k, where_ (fun x => (x =? k)%Z) keyCol)) keys.
Proof.
  intros Hn. assert (E : (n =? 0)%nat = false) by (apply Nat.eqb_neq; lia).
  induction keys as [|k ks IH]; intros v; cbn [Assign.perKey_loop].
  - exists []. repeat split.
  - rewrite E. destruct (IH (S (v mod n))) as (l & El & Hids & Hkeys).
    rewrite El. cbn [bind]. eexists. split; [reflexivity|].
    cbn [map length seq fst snd]. split.
    + rewrite Nat.add_0_r. f_equal. rewrite Hids, <- seq_shift, map_map.
      apply map_ext. intros i.
      replace (S (v mod n) + i)%nat with (v mod n + S i)%nat by lia.
      now rewrite Nat.Div0.add_mod_idemp_l.
    + now rewrite Hkeys.
Qed.

(** [np.where]: a position is listed exactly when its entry passes the test. *)
Lemma where_from_iff {A : Type} (p : A -> bool) (a : list A) :
  forall s i, In i (where_from p a s) <->
              (s <= i)%nat /\ exists x, nth_error a (i - s) = Some x /\ p x = true.
Proof.
  intros s i. split; [apply HexagonFacts.where_from_spec|].
  revert s i. induction a as [|y t IH]; intros s i [Hle [x [Hx Hp]]]; simpl.
  - destruct (i - s)%nat; discriminate.
  - destruct (Nat.eq_dec i s) as [->|Hne].
    + rewrite Nat.sub_diag in Hx. injection Hx as ->. rewrite Hp. now left.
    + assert (Ht : In i (where_from p t (S s))).
      { apply IH. split; [lia|]. exists x. split; [|exact Hp].
        replace (i - s)%nat with (S (i - S s)) in Hx by lia. exact Hx. }
      destruct (p y); [now right|exact Ht].
Qed.

Lemma where_iff {A : Type} (p : A -> bool) (a : list A) (i : nat) :
  In i (where_ p a) <-> exists x, nth_error a i = Some x /\ p x = true.
Proof.
  unfold where_. rewrite where_from_iff, Nat.sub_0_r.
  split; [intros [_ H]; exact H|intros H; split; [lia|exact H]].
Qed.

End RankFacts.

(** X3. In the field loops keyed on nights or seasons
    ([SpiralDitherFieldPerNight], [SequentialHexDitherFieldPerNight], the
    two per-field season stackers) the turn of a field selects the rows of
    the field and gives each row, as vertex, the rank of its key among the
    sorted distinct keys of the rows of that field, modulo the number of
    offsets.  Among the rows of the field the rank is below the number of
    distinct keys, a later key has a strictly larger rank and equal ranks
    mean equal keys; with at least as many offsets as distinct keys the
    vertex is the rank itself. *)
Theorem X3_rank_within_field (fieldIdCol keyCol : list Z) (nOff : nat)
    (f : Z) (m vs : list nat) :
  In (f, (m, vs)) (Assign.fieldPerKey fieldIdCol keyCol nOff) ->
  let key := fun i => nth i keyCol 0%Z in
  let distinct := Np.unique (map key m) in
  let rank := fun i => Np.searchsorted1 distinct (key i) in
  m = Np.where_ (fun x => (x =? f)%Z) fieldIdCol /\
  vs = map (fun i => Np.mod_ (rank i) nOff) m /\
  (forall i j, In i m -> In j m ->
     (rank i < length distinct)%nat /\
     ((key i < key j)%Z -> (rank i < rank j)%nat) /\
     (rank i = rank j -> key i = key j)) /\
  ((length distinct <= nOff)%nat -> vs = map rank m).
Proof.
  intros Hin key distinct rank. unfold Assign.fieldPerKey in Hin.
  apply in_map_iff in Hin. destruct Hin as (f' & E & _).
  injection E as -> <- <-.
  set (m := Np.where_ (fun x => (x =? f)%Z) fieldIdCol) in *.
  assert (Hvs : map (fun v => Np.mod_ v nOff)
                    (Np.searchsorted (Np.unique (Np.take 0%Z keyCol m))
                                     (Np.take 0%Z keyCol m))
                = map (fun i => Np.mod_ (rank i) nOff) m).
  { unfold Np.searchsorted, Np.take. rewrite !map_map. reflexivity. }
  pose proof (RankFacts.unique_sorted (map key m)) as Hs. fold distinct in Hs.
  assert (Hkey : forall i, In i m -> In (key i) distinct).
  { intros i Hi. apply NpFacts.in_unique. now apply (in_map key). }
  assert (Hrank : forall i, In i m -> (rank i < length distinct)%nat).
  { intros i Hi. apply RankFacts.searchsorted1_member; [exact Hs|now apply Hkey]. }
  split; [reflexivity|]. split; [exact Hvs|]. split.
  - intros i j Hi Hj. split; [now apply Hrank|]. split.
    + intros Hlt. apply RankFacts.searchsorted1_strict; [exact Hs|now apply Hkey|exact Hlt].
    + intros Heq. destruct (Z.lt_trichotomy (key i) (key j)) as [Hlt|[Heq'|Hgt]];
        [|exact Heq'|].
      * pose proof (RankFacts.searchsorted1_strict Hs (Hkey i Hi) Hlt). unfold rank in Heq. lia.
      * pose proof (RankFacts.searchsorted1_strict Hs (Hkey j Hj) Hgt). unfold rank in Heq. lia.
  - intros Hle. rewrite Hvs. apply map_ext_in. intros i Hi.
    apply RankFacts.mod_small. specialize (Hrank i Hi). lia.
Qed.

Lemma X3_witness :
  let key := fun i => nth i [5; 6; 5]%Z 0%Z in
  let distinct := Np.unique (map key [0; 1]%nat) in
  [0; 1]%nat = map (fun i => Np.searchsorted1 distinct (key i)) [0; 1]%nat /\
  (Np.searchsorted1 distinct (key 0%nat) < Np.searchsorted1 distinct (key 1%nat))%nat.
Proof.
  destruct (@X3_rank_within_field [1; 1; 2]%Z [5; 6; 5]%Z 10 1%Z
              [0; 1]%nat [0; 1]%nat) as (_ & _ & Hrank & Hsame).
  - simpl. left. reflexivity.
  - split.
    + apply Hsame. simpl. lia.
    + apply (Hrank 0%nat 1%nat); simpl; try tauto. lia.
Defined.

(** X4. Every vertex index computed by an assignment loop is a valid
    position of a non-empty offset sequence: below [nOff] in the three field
    loops and in the loop over nights or seasons. *)
Theorem X4_vertex_indices_in_range (fieldIdCol keyCol : list Z) (nOff : nat) :
  (0 < nOff)%nat ->
  Forall (fun e => Forall (fun v => (v < nOff)%nat) (snd (snd e)))
         (Assign.fieldPerKey fieldIdCol keyCol nOff) /\
  Forall (fun e => Forall (fun v => (v < nOff)%nat) (snd (snd e)))
         (Assign.fieldPerVisit fieldIdCol nOff) /\
  Forall (fun e => Forall (fun v => (v < nOff)%nat) (snd e))
         (Assign.indicesPerField fieldIdCol keyCol nOff) /\
  exists l, Assign.perKey keyCol nOff = Ok l /\
            Forall (fun e => (snd (snd e) < nOff)%nat) l.
Proof.
  intros Hn.
  assert (Hmod : forall l, Forall (fun v => (v < nOff)%nat)
                                  (map (fun v => Np.mod_ v nOff) l)).
  { intros l. apply Forall_forall. intros v Hv. apply in_map_iff in Hv.
    destruct Hv as [w [<- _]]. now apply RankFacts.mod_lt. }
  repeat split.
  - unfold Assign.fieldPerKey. apply Forall_forall. intros e He.
    apply in_map_iff in He. destruct He as [f [<- _]]. cbn [snd]. apply Hmod.
  - unfold Assign.fieldPerVisit. apply Forall_forall. intros e He.
    apply in_map_iff in He. destruct He as [f [<- _]]. cbn [snd]. apply Hmod.
  - unfold Assign.indicesPerField, Assign.randomFieldPerNight.
    generalize 0%nat at 1. generalize (Np.unique fieldIdCol).
    intros fields. induction fields as [|f fs IH]; intros delta; cbn; constructor.
    + cbn [snd]. apply Hmod.
    + apply IH.
  - unfold Assign.perKey.
    destruct (@RankFacts.perKey_loop_ok keyCol nOff (Np.unique keyCol) Hn 0%nat)
      as (l & El & Hids & _).
    exists l. split; [exact El|]. apply Forall_forall. intros e He.
    assert (Hin : In (snd (snd e)) (map (fun e => snd (snd e)) l))
      by (apply (in_map (fun e0 : Z * (list nat * nat) => snd (snd e0))); exact He).
    rewrite Hids in Hin. apply in_map_iff in Hin.
    destruct Hin as [i [<- _]]. apply Nat.mod_upper_bound. lia.
Qed.

Lemma X4_witness :
  Forall (fun e => Forall (fun v => (v < 10)%nat) (snd (snd e)))
         (Assign.fieldPerKey [1; 1; 2]%Z [5; 6; 5]%Z 10).
Proof.
  destruct (@X4_vertex_indices_in_range [1; 1; 2]%Z [5; 6; 5]%Z 10) as (H & _).
  - lia.
  - exact H.
Defined.

(** X5. With a non-empty offset sequence, the loop over the nights (or
    seasons) of the whole batch visits the distinct keys in ascending order,
    selects for each the rows that carry it, and gives the i-th distinct key
    the vertex [i mod n]: the vertices are reused cyclically. *)
Theorem X5_global_loop_vertices (keyCol : list Z) (n : nat) :
  (0 < n)%nat ->
  exists l,
    Assign.perKey keyCol n = Ok l /\
    map (fun e => (fst e, fst (snd e))) l
    = map (fun k => (k, Np.where_ (fun x => (x =? k)%Z) keyCol)) (Np.unique keyCol) /\
    StronglySorted Z.lt (map fst l) /\
    map (fun e => snd (snd e)) l
    = map (fun i => (i mod n)%nat) (seq 0 (length (Np.unique keyCol))).
Proof.
  intros Hn. unfold Assign.perKey.
  destruct (@RankFacts.perKey_loop_ok keyCol n (Np.unique keyCol) Hn 0%nat)
    as (l & El & Hids & Hkeys).
  exists l. split; [exact El|]. split; [exact Hkeys|]. split.
  - assert (H : map fst l = Np.unique keyCol).
    { apply (f_equal (map fst)) in Hkeys. rewrite !map_map in Hkeys.
      cbn [fst] in Hkeys. rewrite map_id in Hkeys. exact Hkeys. }
    rewrite H. apply RankFacts.unique_sorted.
  - exact Hids.
Qed.

Lemma X5_witness :
  exists l,
    Assign.perKey [7; 3; 7; 5; 9]%Z 3 = Ok l /\
    map (fun e => snd (snd e)) l
    = map (fun i => (i mod 3)%nat) (seq 0 (length (Np.unique [7; 3; 7; 5; 9]%Z))).
Proof.
  destruct (@X5_global_loop_vertices [7; 3; 7; 5; 9]%Z 3) as (l & El & _ & _ & Hv).
  - lia.
  - exists l. split; [exact El|exact Hv].
Defined.

(** X6. The three field loops select the same rows: one turn per distinct
    field, in ascending order of the field identifiers, and every row of the
    batch belongs to the turn of its field and to no other, so each row is
    assigned exactly once. *)
Theorem X6_field_loops_partition_rows (fieldIdCol keyCol : list Z) (nOff : nat) :
  let rows := fun e : Z * (list nat * list nat) => (fst e, fst (snd e)) in
  map rows (Assign.fieldPerKey fieldIdCol keyCol nOff) = Assign.rowsPerField fieldIdCol /\
  map rows (Assign.fieldPerVisit fieldIdCol nOff) = Assign.rowsPerField fieldIdCol /\
  map rows (Assign.randomFieldPerNight fieldIdCol keyCol nOff)
  = Assign.rowsPerField fieldIdCol /\
  StronglySorted Z.lt (map fst (Assign.rowsPerField fieldIdCol)) /\
  forall (i : nat) (f : Z),
    nth_error fieldIdCol i = Some f ->
    (exists m, In (f, m) (Assign.rowsPerField fieldIdCol) /\ In i m) /\
    (forall g m, In (g, m) (Assign.rowsPerField fieldIdCol) -> In i m -> g = f).
Proof.
  cbv zeta. unfold Assign.rowsPerField. repeat split.
  - unfold Assign.fieldPerKey. rewrite map_map. reflexivity.
  - unfold Assign.fieldPerVisit. rewrite map_map. reflexivity.
  - unfold Assign.randomFieldPerNight. generalize 0%nat.
    induction (Np.unique fieldIdCol) as [|f fs IH]; intros delta; cbn; [reflexivity|].
    f_equal. apply IH.
  - rewrite map_map. cbn [fst]. rewrite map_id. apply RankFacts.unique_sorted.
  - exists (Np.where_ (fun x => (x =? f)%Z) fieldIdCol). split.
    + apply in_map_iff. exists f. split; [reflexivity|].
      apply NpFacts.in_unique. eapply nth_error_In. eassumption.
    + apply RankFacts.where_iff. exists f. split; [assumption|apply Z.eqb_refl].
  - intros g m Hin Hi. apply in_map_iff in Hin. destruct Hin as [g' [[= -> <-] _]].
    apply RankFacts.where_iff in Hi. destruct Hi as [x [Hx Hp]].
    rewrite H in Hx. injection Hx as <-. apply Z.eqb_eq in Hp. now symmetry.
Qed.

Lemma X6_witness :
  exists m, In (2%Z, m) (Assign.rowsPerField [1; 2; 1]%Z) /\ In 1%nat m.
Proof.
  destruct (X6_field_loops_partition_rows [1; 2; 1]%Z [5; 5; 6]%Z 10)
    as (_ & _ & _ & _ & H).
  exact (proj1 (H 1%nat 2%Z eq_refl)).
Defined.

(** ** Coordinate wrap and direction on the sky *)

Module DirectionFacts.

Import Geometry.
Local Open Scope R_scope.

Lemma cos_shift (x : R) (k : Z) : cos (x - IZR k * (2 * PI)) = cos x.
Proof.
  destruct (Z_le_gt_dec 0 k) as [Hk|Hk].
  - rewrite <- (Z2Nat.id k Hk), <- INR_IZR_INZ.
    rewrite <- (cos_period (x - INR (Z.to_nat k) * (2 * PI)) (Z.to_nat k)).
    f_equal. ring.
  - replace (x - IZR k * (2 * PI)) with (x + 2 * IZR (- k) * PI)
      by (rewrite opp_IZR; ring).
    rewrite <- (Z2Nat.id (- k)) by lia. rewrite <- INR_IZR_INZ.
    apply cos_period.
Qed.

Lemma sin_shift (x : R) (k : Z) : sin (x - IZR k * (2 * PI)) = sin x.
Proof.
  destruct (Z_le_gt_dec 0 k) as [Hk|Hk].
  - rewrite <- (Z2Nat.id k Hk), <- INR_IZR_INZ.
    rewrite <- (sin_period (x - INR (Z.to_nat k) * (2 * PI)) (Z.to_nat k)).
    f_equal. ring.
  - replace (x - IZR k * (2 * PI)) with (x + 2 * IZR (- k) * PI)
      by (rewrite opp_IZR; ring).
    rewrite <- (Z2Nat.id (- k)) by lia. rewrite <- INR_IZR_INZ.
    apply sin_period.
Qed.

Lemma cos_fmod (x : R) : cos (fmod x (2 * PI)) = cos x.
Proof. unfold fmod. apply cos_shift. Qed.

Lemma sin_fmod (x : R) : sin (fmod x (2 * PI)) = sin x.
Proof. unfold fmod. apply sin_shift. Qed.

Lemma cos_minus_PI (x : R) : cos (x - PI) = - cos x.
Proof. rewrite cos_minus, cos_PI, sin_PI. ring. Qed.

Lemma sin_minus_PI (x : R) : sin (x - PI) = - sin x.
Proof. rewrite sin_minus, cos_PI, sin_PI. ring. Qed.

Lemma direction_reflect_high (ra dec : R) :
  direction (ra - PI) (PI - dec) = direction ra dec.
Proof.
  unfold direction. rewrite cos_minus_PI, sin_minus_PI.
  rewrite (cos_minus PI dec), (sin_minus PI dec), cos_PI, sin_PI.
  f_equal; [f_equal|]; ring.
Qed.

Lemma direction_reflect_low (ra dec : R) :
  direction (ra - PI) (-1 * (PI + dec)) = direction ra dec.
Proof.
  unfold direction. rewrite cos_minus_PI, sin_minus_PI.
  replace (-1 * (PI + dec)) with (- (PI + dec)) by ring.
  rewrite cos_neg, sin_neg, (cos_plus PI dec), (sin_plus PI dec), cos_PI, sin_PI.
  f_equal; [f_equal|]; ring.
Qed.

Lemma direction_fmod (ra dec : R) : direction (fmod ra (2 * PI)) dec = direction ra dec.
Proof. unfold direction. now rewrite cos_fmod, sin_fmod. Qed.

Lemma wrap1_direction (ra dec : R) :
  direction (fst (wrap1 ra dec)) (snd (wrap1 ra dec)) = direction ra dec.
Proof.
  unfold wrap1.
  destruct (Rltb dec (- PI / 2)).
  - destruct (Rltb (PI / 2) (-1 * (PI + dec))); cbn [fst snd];
      rewrite direction_fmod, ?direction_reflect_high;
      apply direction_reflect_low.
  - destruct (Rltb (PI / 2) dec); cbn [fst snd]; rewrite direction_fmod;
      [apply direction_reflect_high|reflexivity].
Qed.

End DirectionFacts.

(** X7. [wrapRADec] never moves a pointing: for all real inputs of one
    length each wrapped pair [(ra, dec)] has the direction on the sky (the
    unit vector [(cos dec cos ra, cos dec sin ra, sin dec)]) of the pair it
    comes from, and the returned columns have the length of the inputs. *)
Theorem X7_wrapRADec_keeps_direction (ra dec : list R) :
  length ra = length dec ->
  map (fun p => Geometry.direction (fst p) (snd p))
      (combine (fst (Geometry.wrapRADec ra dec)) (snd (Geometry.wrapRADec ra dec)))
  = map (fun p => Geometry.direction (fst p) (snd p)) (combine ra dec) /\
  length (fst (Geometry.wrapRADec ra dec)) = length ra /\
  length (snd (Geometry.wrapRADec ra dec)) = length ra.
Proof.
  intros Hlen.
  rewrite WrapFacts.wrapRADec_map, WrapFacts.combine_split_id,
    WrapFacts.fst_split_map, WrapFacts.snd_split_map.
  rewrite !length_map, length_combine, map_map, <- Hlen, Nat.min_id. repeat split.
  apply map_ext. intros [r d]. unfold Geometry.wrapPair. cbn [fst snd].
  apply DirectionFacts.wrap1_direction.
Qed.

Lemma X7_witness :
  map (fun p => Geometry.direction (fst p) (snd p))
      (combine (fst (Geometry.wrapRADec [0%R] [(2 * PI)%R]))
               (snd (Geometry.wrapRADec [0%R] [(2 * PI)%R])))
  = [Geometry.direction 0 (2 * PI)] /\
  length (fst (Geometry.wrapRADec [0%R] [(2 * PI)%R])) = 1%nat /\
  length (snd (Geometry.wrapRADec [0%R] [(2 * PI)%R])) = 1%nat.
Proof.
  apply (@X7_wrapRADec_keeps_direction [0%R] [(2 * PI)%R]). reflexivity.
Defined.

(** X8. [wrapRA] returns every right ascension in [[0, 2 pi)] and keeps the
    length of the column; on declinations that are in [[-pi/2, pi/2]]
    already, [wrapRADec] is [wrapRA] on the right ascensions and leaves the
    declinations unchanged. *)
Theorem X8_wrapRA (ra dec : list R) :
  Forall Geometry.raRange (Geometry.wrapRA ra) /\
  length (Geometry.wrapRA ra) = length ra /\
  (length ra = length dec -> Forall Geometry.decRange dec ->
   Geometry.wrapRADec ra dec = (Geometry.wrapRA ra, dec)).
Proof.
  assert (Hpi : (0 < 2 * PI)%R) by (pose proof PI_RGT_0; lra).
  unfold Geometry.wrapRA. repeat split.
  - apply Forall_forall. intros x Hx. apply in_map_iff in Hx.
    destruct Hx as [r [<- _]]. now apply WrapFacts.fmod_range.
  - apply length_map.
  - revert dec. induction ra as [|r ra IH]; intros [|d dec] Hlen Hdec;
      try discriminate; [reflexivity|].
    inversion Hdec as [|? ? Hd Hrest]; subst.
    injection Hlen as Hlen. specialize (IH dec Hlen Hrest).
    unfold Geometry.wrapRADec in *. cbn [combine map List.split].
    rewrite IH. unfold Geometry.wrapPair, Geometry.wrap1. cbn [fst snd].
    unfold Geometry.decRange in Hd. pose proof PI_RGT_0.
    rewrite (WrapFacts.Rltb_false (x := d) (y := (- PI / 2)%R)) by lra.
    rewrite (WrapFacts.Rltb_false (x := (PI / 2)%R) (y := d)) by lra.
    reflexivity.
Qed.

Lemma X8_witness :
  Geometry.wrapRADec [7%R] [0%R] = (Geometry.wrapRA [7%R], [0%R]).
Proof.
  apply (X8_wrapRA [7%R] [0%R]); [reflexivity|].
  constructor; [|constructor]. unfold Geometry.decRange.
  pose proof PI_RGT_0. lra.
Defined.

(** ** Polygons and the hexagonal grid *)

Module PolygonFacts.

Import Geometry.
Local Open Scope R_scope.

(** For a positive [nside] the polygon is returned: [nside] vertices on the
    circle, the first one at [rotationAngle]. *)
Lemma polygonCoords_ok (nside : nat) (radius rot : R) :
  (0 < nside)%nat ->
  exists pts,
    polygonCoords nside radius rot = Ok pts /\
    length pts = nside /\
    Forall (fun p => sqnorm p = radius * radius) pts /\
    nth_error pts 0 = Some (sin rot * radius, cos rot * radius).
Proof.
  intros Hn. unfold polygonCoords.
  assert (E : (nside =? 0)%nat = false) by (apply Nat.eqb_neq; lia).
  rewrite E. eexists. split; [reflexivity|]. split; [|split].
  - now rewrite length_map, length_seq.
  - apply Forall_forall. intros p H. apply in_map_iff in H.
    destruct H as [i [<- _]]. unfold sqnorm. cbn [fst snd].
    set (t := 2 * PI / INR nside * INR i + rot).
    replace (sin t * radius * (sin t * radius) + cos t * radius * (cos t * radius))
      with (radius * radius * (Rsqr (sin t) + Rsqr (cos t))) by (unfold Rsqr; ring).
    rewrite sin2_cos2. ring.
  - destruct nside as [|n]; [lia|]. cbn [seq map nth_error].
    assert (E0 : 2 * PI / INR (S n) * INR 0 + rot = rot) by (cbn [INR]; ring).
    now rewrite E0.
Qed.

Lemma in_slice {A : Type} (x : A) (l : list A) (i j : nat) :
  In x (slice l i j) -> In x l.
Proof.
  unfold slice. intros H. apply HexagonFacts.in_firstn in H.
  revert l H. induction i as [|i IH]; intros [|a t] H; simpl in *; auto.
Qed.

Lemma combine_app_map {A B : Type} (a b : list (A * B)) :
  combine (map fst a ++ map fst b) (map snd a ++ map snd b) = a ++ b.
Proof.
  induction a as [|[x y] t IH]; simpl.
  - apply HexFacts.combine_fst_snd.
  - now rewrite IH.
Qed.

Lemma firstn_app_exact {A : Type} (a b : list A) (n : nat) :
  length a = n -> firstn n (a ++ b) = a.
Proof.
  intros <-. rewrite firstn_app, firstn_all, Nat.sub_diag. cbn. apply app_nil_r.
Qed.

Lemma skipn_app_exact {A : Type} (a b : list A) (n : nat) :
  length a = n -> skipn n (a ++ b) = b.
Proof.
  intros <-. rewrite skipn_app, skipn_all, Nat.sub_diag. reflexivity.
Qed.

End PolygonFacts.

(** X9. For a positive [nside], [polygonCoords] returns [nside] vertices, all
    at distance [radius] from the origin, the first one at angle
    [rotationAngle] from the y axis. *)
Theorem X9_polygon_on_circle (nside : nat) (radius rot : R) :
  (0 < nside)%nat ->
  exists pts,
    Geometry.polygonCoords nside radius rot = Ok pts /\
    length pts = nside /\
    Forall (fun p => Geometry.sqnorm p = (radius * radius)%R) pts /\
    nth_error pts 0 = Some ((sin rot * radius)%R, (cos rot * radius)%R).
Proof. apply PolygonFacts.polygonCoords_ok. Qed.

Lemma X9_witness :
  exists pts,
    Geometry.polygonCoords 5 1 0 = Ok pts /\
    length pts = 5%nat /\
    Forall (fun p => Geometry.sqnorm p = (1 * 1)%R) pts /\
    nth_error pts 0 = Some ((sin 0 * 1)%R, (cos 0 * 1)%R).
Proof. apply (@X9_polygon_on_circle 5 1 0). lia. Defined.

(** X10. Both season generators emit ten offsets.  The pentagon generator
    emits five on the circle of radius [maxDither/2.5] followed by five on
    the circle of radius [maxDither/1.3]; the pentagon-diamond generator
    emits the origin, four on the inner circle and five on the outer one.
    No offset is farther than [maxDither/1.3] from the centre. *)
Theorem X10_pentagon_offsets (maxD : R) :
  let inner := (maxD / 2.5 * (maxD / 2.5))%R in
  let outer := (maxD / 1.3 * (maxD / 1.3))%R in
  exists pent diam : list R * list R,
    Polygon.generatePentagonOffsets maxD = Ok pent /\
    Polygon.generateOffsets maxD = Ok diam /\
    length (fst pent) = 10%nat /\ length (snd pent) = 10%nat /\
    Forall (fun p => Geometry.sqnorm p = inner)
           (firstn 5 (combine (fst pent) (snd pent))) /\
    Forall (fun p => Geometry.sqnorm p = outer)
           (skipn 5 (combine (fst pent) (snd pent))) /\
    length (fst diam) = 10%nat /\ length (snd diam) = 10%nat /\
    nth_error (combine (fst diam) (snd diam)) 0 = Some (0%R, 0%R) /\
    Forall (fun p => Geometry.sqnorm p = inner)
           (firstn 4 (skipn 1 (combine (fst diam) (snd diam)))) /\
    Forall (fun p => Geometry.sqnorm p = outer)
           (skipn 5 (combine (fst diam) (snd diam))) /\
    Forall (fun p => (Geometry.sqnorm p <= outer)%R)
           (combine (fst pent) (snd pent) ++ combine (fst diam) (snd diam)).
Proof.
  cbv zeta.
  destruct (@PolygonFacts.polygonCoords_ok 5 (maxD / 2.5) 0 ltac:(lia))
    as (in5 & Ein5 & L5 & Hin5 & _).
  destruct (@PolygonFacts.polygonCoords_ok 5 (maxD / 1.3) PI ltac:(lia))
    as (out5 & Eout5 & Lo5 & Hout5 & _).
  destruct (@PolygonFacts.polygonCoords_ok 4 (maxD / 2.5) (PI / 2) ltac:(lia))
    as (in4 & Ein4 & L4 & Hin4 & _).
  destruct (@PolygonFacts.polygonCoords_ok 5 (maxD / 1.3) 0 ltac:(lia))
    as (out5' & Eout5' & Lo5' & Hout' & _).
  unfold Polygon.generatePentagonOffsets, Polygon.generateOffsets.
  rewrite Ein5, Eout5, Ein4, Eout5'. cbn [bind].
  do 2 eexists. split; [reflexivity|]. split; [reflexivity|]. cbn [fst snd].
  assert (Hout : Forall (fun p => Geometry.sqnorm p = (maxD / 1.3 * (maxD / 1.3))%R)
                        (Geometry.slice out5 2 5 ++ Geometry.slice out5 0 2)).
  { apply Forall_forall. intros p Hp. apply in_app_iff in Hp.
    rewrite Forall_forall in Hout5. apply Hout5.
    destruct Hp as [Hp|Hp]; eapply PolygonFacts.in_slice; exact Hp. }
  assert (Hle : (maxD / 2.5 * (maxD / 2.5) <= maxD / 1.3 * (maxD / 1.3))%R) by nra.
  assert (Lout : length (Geometry.slice out5 2 5 ++ Geometry.slice out5 0 2) = 5%nat).
  { destruct out5 as [|a [|b [|c [|e [|f [|g t]]]]]]; try discriminate. reflexivity. }
  assert (Epent : combine (map fst in5 ++ map fst (Geometry.slice out5 2 5
                                                    ++ Geometry.slice out5 0 2))
                          (map snd in5 ++ map snd (Geometry.slice out5 2 5
                                                    ++ Geometry.slice out5 0 2))
                  = in5 ++ (Geometry.slice out5 2 5 ++ Geometry.slice out5 0 2)).
  { rewrite <- !map_app. apply HexFacts.combine_fst_snd. }
  assert (Ediam : combine ([0%R] ++ map fst in4 ++ map fst out5')
                          ([0%R] ++ map snd in4 ++ map snd out5')
                  = (0%R, 0%R) :: in4 ++ out5').
  { cbn [app combine]. rewrite <- !map_app, HexFacts.combine_fst_snd. reflexivity. }
  rewrite Epent, Ediam.
  rewrite !length_app, !length_map, L5, Lout, L4, Lo5'. cbn [length Nat.add].
  rewrite (PolygonFacts.firstn_app_exact _ _ L5), (PolygonFacts.skipn_app_exact _ _ L5).
  change (skipn 5 ((0%R, 0%R) :: in4 ++ out5')) with (skipn 4 (in4 ++ out5')).
  change (skipn 1 ((0%R, 0%R) :: in4 ++ out5')) with (in4 ++ out5').
  cbn [nth_error].
  rewrite (PolygonFacts.firstn_app_exact _ _ L4), (PolygonFacts.skipn_app_exact _ _ L4).
  repeat split; try assumption; try reflexivity.
  apply Forall_app. split; [apply Forall_app; split|constructor; [|apply Forall_app; split]].
  - eapply Forall_impl; [|exact Hin5]. intros p Hp. rewrite Hp. exact Hle.
  - eapply Forall_impl; [|exact Hout]. intros p Hp. rewrite Hp. lra.
  - unfold Geometry.sqnorm. cbn [fst snd]. nra.
  - eapply Forall_impl; [|exact Hin4]. intros p Hp. rewrite Hp. exact Hle.
  - eapply Forall_impl; [|exact Hout']. intros p Hp. rewrite Hp. lra.
Qed.

Module GridFacts.

Import Geometry HexGrid.
Local Open Scope R_scope.

Lemma in_arangeZ (lo hi x : Z) : In x (arangeZ lo hi) <-> (lo <= x < hi)%Z.
Proof.
  unfold arangeZ. rewrite in_map_iff. split.
  - intros [k [<- Hk]]. apply in_seq in Hk. lia.
  - intros H. exists (Z.to_nat (x - lo)). split; [lia|]. apply in_seq. lia.
Qed.

(** A lattice point written with the integers [i] (row) and
    [t = 2 j - (16 - |i|)] (twice the column, centred). *)
Lemma lattice_point_inside (maxD i t : R) :
  0 < maxD -> Rabs i + Rabs t <= 16 -> Rabs i <= 8 ->
  insideHex maxD (t * (0.95 * maxD / 16)) (i * (0.95 * sqrt 3 * maxD / 16)).
Proof.
  intros Hm Hit Hi. pose proof HexagonFacts.sqrt3_pos as Hs.
  assert (HP : 0 < sqrt 3 * maxD) by (apply Rmult_lt_0_compat; assumption).
  assert (Hi' : - 8 <= i <= 8).
  { unfold Rabs in Hi. destruct (Rcase_abs i); lra. }
  assert (H1 : - 16 <= i - t <= 16 /\ - 16 <= i + t <= 16).
  { unfold Rabs in Hit. destruct (Rcase_abs i), (Rcase_abs t); lra. }
  destruct H1 as [[A1 A2] [A3 A4]].
  assert (B1 : 0 <= sqrt 3 * maxD * (16 - (i - t))) by (apply Rmult_le_pos; lra).
  assert (B2 : 0 <= sqrt 3 * maxD * (16 + (i - t))) by (apply Rmult_le_pos; lra).
  assert (B3 : 0 <= sqrt 3 * maxD * (16 - (i + t))) by (apply Rmult_le_pos; lra).
  assert (B4 : 0 <= sqrt 3 * maxD * (16 + (i + t))) by (apply Rmult_le_pos; lra).
  assert (B5 : 0 <= sqrt 3 * maxD * (8 - i)) by (apply Rmult_le_pos; lra).
  assert (B6 : 0 <= sqrt 3 * maxD * (8 + i)) by (apply Rmult_le_pos; lra).
  unfold insideHex, hex_m, hex_b, hex_h. repeat split; lra.
Qed.

Lemma lattice_inside (maxD : R) (p : R * R) :
  0 < maxD -> In p (lattice maxD) -> insideHex maxD (fst p) (snd p).
Proof.
  intros Hm Hp. unfold lattice in Hp. apply in_flat_map in Hp.
  destruct Hp as [i [Hi Hp]]. apply in_arangeZ in Hi.
  unfold lattice_row in Hp. apply in_map_iff in Hp.
  destruct Hp as [j [<- Hj]]. apply in_arangeZ in Hj. cbn [fst snd].
  assert (Ht : - ((IZR (17 - Z.abs i) - 1) / 2) * spacingX maxD + IZR j * spacingX maxD
               = IZR (2 * j - (16 - Z.abs i)) * (0.95 * maxD / 16)).
  { unfold spacingX. rewrite !minus_IZR, mult_IZR. lra. }
  assert (Hy : IZR i * spacingY maxD = IZR i * (0.95 * sqrt 3 * maxD / 16)).
  { unfold spacingY. reflexivity. }
  rewrite Ht, Hy. apply lattice_point_inside; [exact Hm| |].
  - rewrite <- !abs_IZR, <- plus_IZR. apply IZR_le. lia.
  - rewrite <- abs_IZR. apply IZR_le. lia.
Qed.

End GridFacts.

(** X11. For a positive [maxDither] every one of the 217 offsets of the
    sequential hexagonal grid satisfies the six strict half-plane
    constraints of the hexagon: the grid lies inside the hexagon. *)
Theorem X11_hex_grid_inside_hexagon (maxD : R) :
  (0 < maxD)%R ->
  let off := HexGrid.generateHexOffsets maxD in
  Forall (fun p => Geometry.insideHex maxD (fst p) (snd p))
         (combine (fst off) (snd off)).
Proof.
  intros Hm. cbv zeta. unfold HexGrid.generateHexOffsets. cbn [fst snd].
  rewrite HexFacts.combine_fst_snd, HexFacts.points_lattice.
  apply Forall_forall. intros p Hp. now apply GridFacts.lattice_inside.
Qed.

Lemma X11_witness :
  Forall (fun p => Geometry.insideHex 1 (fst p) (snd p))
         (combine (fst (HexGrid.generateHexOffsets 1)) (snd (HexGrid.generateHexOffsets 1))).
Proof. apply (@X11_hex_grid_inside_hexagon 1%R). lra. Defined.

(** ** Uniform random generator *)

Module UniformFacts.

Import Geometry.
Local Open Scope R_scope.

Lemma where_length_filter {A : Type} (p : A -> bool) (a : list A) :
  length (Np.where_ p a) = length (filter p a).
Proof.
  destruct a as [|d t]; [reflexivity|].
  rewrite <- (NpFacts.take_where d p (d :: t)). unfold Np.take.
  now rewrite length_map.
Qed.

Lemma take_firstn {A : Type} (d : A) (a : list A) (idx : list nat) (n : nat) :
  Np.take d a (firstn n idx) = firstn n (Np.take d a idx).
Proof. unfold Np.take. symmetry. apply firstn_map. Qed.

(** A candidate is at distance [sqrt(u) * maxD] from the centre. *)
Lemma candidate_sqnorm (maxD : R) (u v : Q) :
  0 <= Q2R u ->
  sqnorm (RandomGen.candidate maxD u v) = Q2R u * (maxD * maxD).
Proof.
  intros Hu. unfold RandomGen.candidate, sqnorm. cbv zeta. cbn [fst snd].
  set (t := Q2R v * PI * 2). set (r := sqrt (Q2R u)).
  replace (r * maxD * cos t * (r * maxD * cos t) + r * maxD * sin t * (r * maxD * sin t))
    with (r * r * (maxD * maxD) * (Rsqr (sin t) + Rsqr (cos t))) by (unfold Rsqr; ring).
  rewrite sin2_cos2. unfold r. rewrite sqrt_sqrt by exact Hu. ring.
Qed.

(** Three candidates: the first above the hexagon, then [(maxD/2, 0)] and
    the centre, both inside. *)
Lemma accepted_two_of_three (maxD : R) :
  0 < maxD ->
  filter (fun p => insideHexb maxD (fst p) (snd p))
         (RandomGen.candidates maxD [81 # 100; 1 # 4; 0]%Q [1 # 4; 0; 0]%Q)
  = [(0.5 * maxD, 0); (0, 0)].
Proof.
  intros H.
  rewrite !RunFacts.candidates_cons, RunFacts.candidates_nil,
    RunFacts.candidate_above, BatchFacts.candidate_half, RunFacts.candidate_origin.
  cbn [filter fst snd].
  now rewrite (RunFacts.above_outside H), (BatchFacts.half_inside H),
    (RunFacts.origin_inside H).
Qed.

End UniformFacts.

(** X12. The uniform generator keeps the candidates that pass the hexagon
    test in the order in which they were drawn: it assigns nothing when
    fewer than [noffsets] pass, and otherwise emits the first [noffsets] of
    them. *)
Theorem X12_uniform_keeps_first_accepted (maxD : R) (noffsets : nat) (u v : list Q) :
  let accepted := filter (fun p => Geometry.insideHexb maxD (fst p) (snd p))
                         (RandomGen.candidates maxD u v) in
  ((length accepted < noffsets)%nat ->
   RandomGen.generateRandomOffsets maxD noffsets u v = None) /\
  ((noffsets <= length accepted)%nat ->
   RandomGen.generateRandomOffsets maxD noffsets u v
   = Some (map fst (firstn noffsets accepted), map snd (firstn noffsets accepted))).
Proof.
  cbv zeta. unfold RandomGen.generateRandomOffsets.
  rewrite UniformFacts.where_length_filter. split; intros H.
  - apply Nat.ltb_lt in H. now rewrite H.
  - apply Nat.ltb_ge in H. rewrite H. unfold Geometry.slice.
    rewrite Nat.sub_0_r. cbn [skipn].
    now rewrite UniformFacts.take_firstn, NpFacts.take_where.
Qed.

Lemma X12_witness :
  RandomGen.generateRandomOffsets 1 1 [81 # 100; 1 # 4; 0]%Q [1 # 4; 0; 0]%Q
  = Some ([(0.5 * 1)%R], [0%R]) /\
  RandomGen.generateRandomOffsets 1 3 [81 # 100; 1 # 4; 0]%Q [1 # 4; 0; 0]%Q = None.
Proof.
  pose proof (UniformFacts.accepted_two_of_three Rlt_0_1) as Hacc.
  destruct (X12_uniform_keeps_first_accepted 1 1
              [81 # 100; 1 # 4; 0]%Q [1 # 4; 0; 0]%Q) as [_ Hfirst].
  destruct (X12_uniform_keeps_first_accepted 1 3
              [81 # 100; 1 # 4; 0]%Q [1 # 4; 0; 0]%Q) as [Hshort _].
  rewrite Hacc in Hfirst, Hshort. split.
  - apply Hfirst. simpl. lia.
  - apply Hshort. simpl. lia.
Defined.

(** X13. With draws in [[0, 1]] every candidate of the uniform generator is
    in the disk of radius [maxDither]: its squared distance to the centre is
    [u * maxDither^2] for the radius draw [u]; and every offset that passes
    the hexagon test has [|x| < maxDither] and [|y| < sqrt(3)/2 * maxDither]. *)
Theorem X13_candidates_in_disk (maxD : R) (u v : Q) :
  (0 <= Q2R u <= 1)%R ->
  (Geometry.sqnorm (RandomGen.candidate maxD u v) = Q2R u * (maxD * maxD))%R /\
  (Geometry.sqnorm (RandomGen.candidate maxD u v) <= maxD * maxD)%R /\
  (forall x y : R, Geometry.insideHex maxD x y ->
     (Rabs x < maxD)%R /\ (Rabs y < sqrt 3 / 2 * maxD)%R).
Proof.
  intros Hu. split; [|split].
  - apply UniformFacts.candidate_sqnorm. lra.
  - rewrite UniformFacts.candidate_sqnorm by lra.
    assert (0 <= maxD * maxD)%R by nra. nra.
  - intros x y (H1 & H2 & H3 & H4 & H5 & H6).
    unfold Geometry.hex_m, Geometry.hex_b, Geometry.hex_h in *.
    pose proof HexagonFacts.sqrt3_pos as Hs.
    assert (Hx : (- maxD < x < maxD)%R).
    { split.
      - assert (0 < sqrt 3 * (x + maxD))%R by lra. nra.
      - assert (0 < sqrt 3 * (maxD - x))%R by lra. nra. }
    split; apply Rabs_def1; lra.
Qed.

Lemma X13_witness :
  (Geometry.sqnorm (RandomGen.candidate 1 (1 # 4) 0) <= 1 * 1)%R.
Proof.
  apply (@X13_candidates_in_disk 1%R (1 # 4)%Q 0%Q). unfold Q2R. cbn. lra.
Defined.

(** ** Repulsive random generator: the tile loop *)

Module TileLoopFacts.

Import RepRandom.

Lemma list_remove_length (v : Z) (l : list Z) :
  In v l -> S (length (list_remove v l)) = length l.
Proof.
  induction l as [|a t IH]; simpl; [contradiction|].
  destruct (a =? v)%Z eqn:E; [reflexivity|].
  intros [->|Hin]; [rewrite Z.eqb_refl in E; discriminate|].
  simpl. now rewrite IH.
Qed.

Lemma list_remove_in (v x : Z) (l : list Z) : In x (list_remove v l) -> In x l.
Proof.
  induction l as [|a t IH]; simpl; [tauto|].
  destruct (a =? v)%Z; simpl; tauto.
Qed.

Lemma nthE_lt {A : Type} (i : nat) (l : list A) :
  (i < length l)%nat -> exists a, nthE i l = Ok a /\ In a l.
Proof.
  intros H. unfold nthE. destruct (nth_error l i) as [a|] eqn:E.
  - exists a. split; [reflexivity|]. eapply nth_error_In. exact E.
  - apply nth_error_None in E. lia.
Qed.

(** A draw in [[0,1)] selects a position of the pool. *)
Lemma randIndex_range (u : Q) (N : Z) :
  (0 <= u)%Q -> (u < 1)%Q -> (0 < N)%Z ->
  (0 <= Qfloor (u * inject_Z N) < N)%Z.
Proof.
  intros H0 H1 HN.
  assert (HNq : (0 < inject_Z N)%Q) by (unfold Qlt; simpl; lia).
  split.
  - change 0%Z with (Qfloor 0). apply Qfloor_resp_le.
    apply Qmult_le_0_compat; [exact H0|apply Qlt_le_weak; exact HNq].
  - assert (Hq : (inject_Z (Qfloor (u * inject_Z N)) < inject_Z N)%Q).
    { eapply Qle_lt_trans; [apply Qfloor_le|].
      setoid_replace (inject_Z N) with (1 * inject_Z N)%Q at 2 by ring.
      apply Qmult_lt_compat_r; assumption. }
    unfold Qlt in Hq. cbn [inject_Z Qnum Qden] in Hq. lia.
Qed.

(** With draws in [[0,1)] and a pool at least as large as the number of
    points left to place, the loop never reaches its [stop]. *)
Lemma pick_total (n : nat) :
  forall xC yC N sq pt isq ipt,
    length xC = length yC -> N = Z.of_nat (length xC) ->
    (n <= length xC)%nat ->
    Forall (fun u => (0 <= u)%Q /\ (u < 1)%Q) sq ->
    (isq + n <= length sq)%nat -> (ipt + 2 * n <= length pt)%nat ->
    exists pts, pick n xC yC N sq pt isq ipt = Ok pts /\ length pts = n /\
                Forall (fromPool xC yC) pts.
Proof.
  induction n as [|n IH]; intros xC yC N sq pt isq ipt Hlen HN Hn Hsq Hisq Hipt.
  - exists []. repeat split. constructor.
  - cbn [pick].
    destruct (@nthE_lt Q isq sq) as [u [Eu Hu]]; [lia|].
    rewrite Eu. cbn [bind].
    rewrite Forall_forall in Hsq. destruct (Hsq u Hu) as [Hu0 Hu1].
    assert (HNpos : (0 < N)%Z) by lia.
    pose proof (randIndex_range Hu0 Hu1 HNpos) as Hr.
    set (randIndex := Qfloor (u * inject_Z N)) in *.
    assert (Hguard : (Z.of_nat (length xC) - 1 <? randIndex)%Z = false)
      by (apply Z.ltb_ge; lia).
    rewrite Hguard.
    destruct (@nthE_lt Z (Z.to_nat randIndex) xC) as [x [Ex Hx]]; [lia|].
    destruct (@nthE_lt Z (Z.to_nat randIndex) yC) as [y [Ey Hy]]; [lia|].
    destruct (@nthE_lt Q ipt pt) as [px [Epx _]]; [lia|].
    destruct (@nthE_lt Q (S ipt) pt) as [py [Epy _]]; [lia|].
    rewrite Ex, Ey, Epx, Epy. cbn [bind].
    pose proof (list_remove_length x xC Hx) as Lx.
    pose proof (list_remove_length y yC Hy) as Ly.
    destruct (IH (list_remove x xC) (list_remove y yC) (N - 1)%Z sq pt
                 (S isq) (S (S ipt))) as [rest [Erest [Lrest Frest]]];
      try lia.
    { apply Forall_forall. exact Hsq. }
    rewrite Erest. cbn [bind].
    eexists. split; [reflexivity|]. split; [simpl; lia|].
    constructor.
    + split; assumption.
    + eapply Forall_impl; [|exact Frest]. intros p [Hp1 Hp2].
      split; eapply list_remove_in; eassumption.
Qed.

Lemma pool_lengths (n : nat) : length (fst (pool n)) = length (snd (pool n)).
Proof. unfold pool. cbn [fst snd]. now rewrite !length_map. Qed.

Lemma pool_one_size : (1 <= length (fst (pool 1)))%nat.
Proof. vm_compute. lia. Qed.

End TileLoopFacts.

(** X14. With draws in [[0, 1)], at least [noffsets] draws for the tiles and
    [2 noffsets] for the points, and at least [noffsets] tile centres inside
    the hexagon, the repulsive generator returns [noffsets] points: the index
    guard of its loop is never taken and neither [stop] is reached.  The
    centre of every point has the abscissa of a kept tile and the ordinate of
    a kept tile. *)
Theorem X14_repulsive_loop_returns (noffsets : nat) (sq pt : list Q) :
  (noffsets <= length (fst (RepRandom.pool noffsets)))%nat ->
  Forall (fun u => (0 <= u)%Q /\ (u < 1)%Q) sq ->
  (noffsets <= length sq)%nat -> (2 * noffsets <= length pt)%nat ->
  exists pts,
    RepRandom.generateTiles noffsets sq pt = Ok pts /\
    length pts = noffsets /\
    Forall (RepRandom.fromPool (fst (RepRandom.pool noffsets))
                               (snd (RepRandom.pool noffsets))) pts.
Proof.
  intros Hpool Hsq Hlsq Hlpt. unfold RepRandom.generateTiles.
  pose proof (TileLoopFacts.pool_lengths noffsets) as Hlen.
  destruct (RepRandom.pool noffsets) as [xC yC]. cbn [fst snd] in *.
  assert (Hcheck : (Z.of_nat (length xC) <? Z.of_nat noffsets)%Z = false)
    by (apply Z.ltb_ge; lia).
  rewrite Hcheck.
  apply TileLoopFacts.pick_total; try assumption; try reflexivity; lia.
Qed.

Lemma X14_witness :
  exists pts,
    RepRandom.generateTiles 1 [0; 0; 0]%Q [0; 0]%Q = Ok pts /\ length pts = 1%nat.
Proof.
  destruct (@X14_repulsive_loop_returns 1 [0; 0; 0]%Q [0; 0]%Q
              TileLoopFacts.pool_one_size) as [pts [H1 [H2 _]]].
  - repeat constructor; discriminate.
  - simpl. lia.
  - simpl. lia.
  - exists pts. split; assumption.
Defined.

(** ** Shape of the columns a [run] returns *)

Module ShapeFacts.

Import Geometry Stackers.
Local Open Scope R_scope.

(** Columns of [n] rows. *)
Local Abbreviation rows n cols := (length (fst cols) = n /\ length (snd cols) = n).

Lemma set_nth_length {A : Type} (a : list A) (i : nat) (v : A) :
  length (Np.set_nth a i v) = length a.
Proof.
  revert i. induction a as [|x t IH]; intros [|j]; simpl; try reflexivity.
  now rewrite IH.
Qed.

Lemma put_length {A : Type} (idx : list nat) (a vs : list A) :
  length (Np.put a idx vs) = length a.
Proof.
  revert a vs. induction idx as [|i idx IH]; intros a [|v vs]; simpl; try reflexivity.
  now rewrite IH, set_nth_length.
Qed.

(** A property kept by every step that returns is kept by the loop. *)
Lemma foldM_invariant {A B : Type} (P : B -> Prop) (f : B -> A -> result B) (l : list A) :
  (forall b a b', P b -> f b a = Ok b' -> P b') ->
  forall b b', P b -> foldM f l b = Ok b' -> P b'.
Proof.
  intros Hstep. induction l as [|a t IH]; intros b b' Hb H; simpl in H.
  - now inversion H; subst.
  - destruct (f b a) as [b1|e] eqn:E; simpl in H; [|discriminate].
    eapply IH; [|exact H]. eapply Hstep; eassumption.
Qed.

Lemma assignRows_rows (d : SimData) off cols a cols' (n : nat) :
  rows n cols -> assignRows d off cols a = Ok cols' -> rows n cols'.
Proof.
  intros [H1 H2] H. destruct a as [match_ vertexIdxs]. unfold assignRows in H.
  destruct (takeE (fst off) vertexIdxs) as [xs|]; simpl in H; [|discriminate].
  destruct (takeE (snd off) vertexIdxs) as [ys|]; simpl in H; [|discriminate].
  inversion H; subst; clear H. cbn [fst snd]. now rewrite !put_length.
Qed.

Lemma assignConst_rows (d : SimData) x y cols match_ (n : nat) :
  rows n cols -> rows n (assignConst d x y cols match_).
Proof.
  intros [H1 H2]. unfold assignConst. cbn [fst snd]. now rewrite !put_length.
Qed.

Lemma addStackers_rows (d : SimData) : rows (length (raCol d)) (addStackers d).
Proof. unfold addStackers. cbn [fst snd]. now rewrite repeat_length. Qed.

Lemma split_lengths {A B : Type} (l : list (A * B)) :
  length (fst (List.split l)) = length l /\ length (snd (List.split l)) = length l.
Proof. now rewrite length_fst_split, length_snd_split. Qed.

(** The wrap keeps the number of rows and leaves every RA in [[0, 2 pi)]. *)
Lemma wrapped_rows (cols : Columns) (n : nat) :
  rows n cols -> rows n (wrapped cols) /\ Forall raRange (fst (wrapped cols)).
Proof.
  intros [H1 H2]. split; [|apply WrapFacts.wrapRADec_ra].
  unfold wrapped, wrapRADec.
  destruct (split_lengths (map wrapPair (combine (fst cols) (snd cols)))) as [L1 L2].
  rewrite L1, L2, length_map, length_combine, H1, H2, Nat.min_id. now split.
Qed.

Lemma fieldRun_rows (d : SimData) off assign cols :
  fieldRun d off assign = Ok cols ->
  rows (length (raCol d)) cols /\ Forall raRange (fst cols).
Proof.
  unfold fieldRun. intros H.
  destruct (foldM _ assign (addStackers d)) as [c|] eqn:E; simpl in H; [|discriminate].
  inversion H; subst; clear H. apply wrapped_rows.
  refine (foldM_invariant (fun c => rows (length (raCol d)) c) _ _ _ _
            (addStackers_rows d) E).
  intros b a b' Hb Hf. eapply assignRows_rows; eassumption.
Qed.

Lemma keyRun_rows (d : SimData) off assign cols :
  keyRun d off assign = Ok cols ->
  rows (length (raCol d)) cols /\ Forall raRange (fst cols).
Proof.
  unfold keyRun. intros H.
  destruct (foldM _ assign (addStackers d)) as [c|] eqn:E; simpl in H; [|discriminate].
  inversion H; subst; clear H. apply wrapped_rows.
  refine (foldM_invariant (fun c => rows (length (raCol d)) c) _ _ _ _
            (addStackers_rows d) E).
  intros b a b' Hb Hf. cbv beta in Hf.
  destruct (RepRandom.nthE _ (fst off)) as [x|]; simpl in Hf; [|discriminate].
  destruct (RepRandom.nthE _ (snd off)) as [y|]; simpl in Hf; [|discriminate].
  inversion Hf; subst. now apply assignConst_rows.
Qed.

Lemma zipRun_rows (d : SimData) off nights cols :
  zipRun d off nights = Ok cols ->
  rows (length (raCol d)) cols /\ Forall raRange (fst cols).
Proof.
  unfold zipRun. intros H.
  destruct (foldM _ _ (addStackers d)) as [c|] eqn:E; simpl in H; [|discriminate].
  inversion H; subst; clear H. apply wrapped_rows.
  refine (foldM_invariant (fun c => rows (length (raCol d)) c) _ _ _ _
            (addStackers_rows d) E).
  intros b [n [x y]] b' Hb Hf. inversion Hf; subst. now apply assignConst_rows.
Qed.

Lemma addOverCos_length (ras xs decs : list R) :
  length (addOverCos ras xs decs)
  = Nat.min (length ras) (Nat.min (length xs) (length decs)).
Proof.
  revert xs decs. induction ras as [|r ras IH]; intros [|x xs] [|dd decs];
    cbn [addOverCos length Nat.min]; try reflexivity.
  now rewrite IH.
Qed.

Lemma addR_length (decs ys : list R) :
  length (addR decs ys) = Nat.min (length decs) (length ys).
Proof.
  revert ys. induction decs as [|dd decs IH]; intros [|y ys]; simpl; try reflexivity.
  now rewrite IH.
Qed.

Lemma broadcast_length (off xs : list R) (n : nat) :
  broadcast off n = Ok xs -> length xs = n.
Proof.
  unfold broadcast. destruct (length off =? n)%nat eqn:E; intros H.
  - inversion H; subst. now apply Nat.eqb_eq.
  - destruct off as [|x [|x' t]]; try discriminate.
    inversion H; subst. apply repeat_length.
Qed.

Lemma perVisit_rows (self : RandomStacker) (d : SimData) cols :
  length (decCol d) = length (raCol d) ->
  perVisit self d = Ok cols ->
  rows (length (raCol d)) cols /\ Forall raRange (fst cols).
Proof.
  intros Hlen H. unfold perVisit in H.
  destruct (getOffsets self) as [off|]; simpl in H; [|discriminate].
  destruct (broadcast (fst off) _) as [xs|] eqn:Ex; simpl in H; [|discriminate].
  destruct (broadcast (snd off) _) as [ys|] eqn:Ey; simpl in H; [|discriminate].
  inversion H; subst; clear H. apply wrapped_rows. cbn [fst snd].
  apply broadcast_length in Ex, Ey.
  rewrite addR_length, addOverCos_length, Ex, Ey, Hlen, !Nat.min_id. now split.
Qed.

Lemma fieldPerNight_rows (self : RandomStacker) (d : SimData) cols :
  fieldPerNight self d = Ok cols ->
  rows (length (raCol d)) cols /\ Forall raRange (fst cols).
Proof.
  unfold fieldPerNight. intros H.
  destruct (getOffsets self) as [off|]; simpl in H; [|discriminate].
  eapply fieldRun_rows; exact H.
Qed.

Lemma perNight_rows (self : RandomStacker) (d : SimData) cols :
  perNight self d = Ok cols ->
  rows (length (raCol d)) cols /\ Forall raRange (fst cols).
Proof.
  unfold perNight. intros H.
  destruct (getOffsets self) as [off|]; simpl in H; [|discriminate].
  eapply zipRun_rows; exact H.
Qed.

(** Peels the steps of a run that come before its loop. *)
Ltac run_binds H :=
  repeat match type of H with
         | bind ?m _ = Ok _ => destruct m; cbn [bind] in H; [|discriminate H]
         end.

Section Generators.

Variable G : Type.
Variable seed : Z -> G.
Variable rand : G -> nat -> list Q * G.

Lemma uniformRun_rows count k (self : RandomStacker) (g : G) (d : SimData) cols :
  (forall s c, k s d = Ok c -> rows (length (raCol d)) c /\ Forall raRange (fst c)) ->
  fst (fst (uniformRun seed rand count k self g d)) = Ok cols ->
  rows (length (raCol d)) cols /\ Forall raRange (fst cols).
Proof.
  intros Hk. unfold uniformRun.
  destruct (genRandom rand self (reseed seed self g) (count d)) as [s g'].
  cbn [fst]. apply Hk.
Qed.

Lemma repulsiveRun_rows count k (self : RandomStacker) (g : G) (d : SimData) cols :
  (forall s c, k s d = Ok c -> rows (length (raCol d)) c /\ Forall raRange (fst c)) ->
  fst (fst (repulsiveRun seed rand count k self g d)) = Ok cols ->
  rows (length (raCol d)) cols /\ Forall raRange (fst cols).
Proof.
  intros Hk. unfold repulsiveRun, afterRep.
  destruct (genRepRandom rand self (reseed seed self g) (count d)) as [[ok s] g'].
  cbn [fst]. destruct ok as [u|e]; simpl; [apply Hk|discriminate].
Qed.

End Generators.

End ShapeFacts.

(** X15. Whatever the batch, a spiral, hexagonal-grid or season stacker that
    returns gives two columns with one entry per record of the batch, and
    every dithered right ascension is in [[0, 2 pi)]. *)
Theorem X15_grid_runs_keep_rows (maxD nCoils : R) (numPoints : nat)
    (d : Stackers.SimData) :
  Forall (fun run : Stackers.SimData -> result Stackers.Columns =>
            forall cols, run d = Ok cols ->
              (length (fst cols) = length (Stackers.raCol d) /\
               length (snd cols) = length (Stackers.raCol d)) /\
              Forall Geometry.raRange (fst cols))
    [Stackers.SpiralDitherFieldPerVisit_run maxD numPoints nCoils;
     Stackers.SpiralDitherFieldPerNight_run maxD numPoints nCoils;
     Stackers.SpiralDitherPerNight_run maxD numPoints nCoils;
     Stackers.SequentialHexDitherFieldPerVisit_run maxD;
     Stackers.SequentialHexDitherFieldPerNight_run maxD;
     Stackers.SequentialHexDitherPerNight_run maxD;
     Stackers.PentagonDitherFieldPerSeason_run maxD;
     Stackers.PentagonDiamondDitherFieldPerSeason_run maxD;
     Stackers.PentagonDitherPerSeason_run maxD;
     Stackers.PentagonDiamondDitherPerSeason_run maxD].
Proof.
  repeat match goal with
         | |- Forall _ (_ :: _) => apply Forall_cons
         | |- Forall _ [] => apply Forall_nil
         end; intros cols H.
  all: unfold Stackers.SpiralDitherFieldPerVisit_run,
         Stackers.SpiralDitherFieldPerNight_run, Stackers.SpiralDitherPerNight_run,
         Stackers.SequentialHexDitherFieldPerVisit_run,
         Stackers.SequentialHexDitherFieldPerNight_run,
         Stackers.SequentialHexDitherPerNight_run,
         Stackers.PentagonDitherFieldPerSeason_run,
         Stackers.PentagonDiamondDitherFieldPerSeason_run,
         Stackers.PentagonDitherPerSeason_run,
         Stackers.PentagonDiamondDitherPerSeason_run in H.
  all: ShapeFacts.run_binds H.
  all: first [eapply ShapeFacts.fieldRun_rows; exact H
             |eapply ShapeFacts.keyRun_rows; exact H].
Qed.

Lemma X15_witness :
  exists cols,
    Stackers.PentagonDitherPerSeason_run 1 Stackers.overflow = Ok cols /\
    length (fst cols) = 4%nat /\ Forall Geometry.raRange (fst cols).
Proof.
  pose proof (@X15_grid_runs_keep_rows 1%R 1%R 1%nat Stackers.overflow) as H.
  rewrite Forall_forall in H.
  destruct (SeasonRun.per_season_run_returns 1) as (xOff & yOff & _ & Hrun).
  eexists. split; [exact Hrun|].
  destruct (H (Stackers.PentagonDitherPerSeason_run 1)
              ltac:(do 8 right; left; reflexivity) _ Hrun) as [[H1 _] H2].
  split; [exact H1|exact H2].
Defined.

(** X16. On a batch whose RA and Dec columns have one length, each of the six
    stackers with a random generator that returns gives two columns with one
    entry per record, every dithered right ascension in [[0, 2 pi)]; this
    holds for any generator, any object state and any seed. *)
Theorem X16_random_runs_keep_rows (G : Type) (seed : Z -> G)
    (rand : G -> nat -> list Q * G) (d : Stackers.SimData) :
  length (Stackers.decCol d) = length (Stackers.raCol d) ->
  Forall (fun run : Stackers.RandomStacker -> G -> Stackers.SimData -> Stackers.outcome G =>
            forall self g cols, fst (fst (run self g d)) = Ok cols ->
              (length (fst cols) = length (Stackers.raCol d) /\
               length (snd cols) = length (Stackers.raCol d)) /\
              Forall Geometry.raRange (fst cols))
    (Stackers.seededRuns seed rand).
Proof.
  intros Hlen. unfold Stackers.seededRuns.
  repeat match goal with
         | |- Forall _ (_ :: _) => apply Forall_cons
         | |- Forall _ [] => apply Forall_nil
         end; intros self g cols H.
  - refine (@ShapeFacts.uniformRun_rows G seed rand
              (fun d => length (Stackers.raCol d)) (@Stackers.perVisit)
              self g d cols _ H).
    intros s c. now apply ShapeFacts.perVisit_rows.
  - refine (@ShapeFacts.repulsiveRun_rows G seed rand
              (fun d => length (Stackers.raCol d)) (@Stackers.perVisit)
              self g d cols _ H).
    intros s c. now apply ShapeFacts.perVisit_rows.
  - refine (@ShapeFacts.uniformRun_rows G seed rand
              (fun d => length (Stackers.raCol d)) (@Stackers.fieldPerNight)
              self g d cols _ H).
    intros s c. apply ShapeFacts.fieldPerNight_rows.
  - refine (@ShapeFacts.repulsiveRun_rows G seed rand
              (fun d => length (Stackers.raCol d)) (@Stackers.fieldPerNight)
              self g d cols _ H).
    intros s c. apply ShapeFacts.fieldPerNight_rows.
  - refine (@ShapeFacts.uniformRun_rows G seed rand
              (fun d => length (Np.unique (Stackers.nightCol d))) (@Stackers.perNight)
              self g d cols _ H).
    intros s c. apply ShapeFacts.perNight_rows.
  - refine (@ShapeFacts.repulsiveRun_rows G seed rand
              (fun d => length (Np.unique (Stackers.nightCol d))) (@Stackers.perNight)
              self g d cols _ H).
    intros s c. apply ShapeFacts.perNight_rows.
Qed.

Lemma X16_witness :
  Forall (fun run : Stackers.RandomStacker -> list Q -> Stackers.SimData
                    -> Stackers.outcome (list Q) =>
            forall self g cols, fst (fst (run self g Stackers.twoFields)) = Ok cols ->
              (length (fst cols) = 2%nat /\ length (snd cols) = 2%nat) /\
              Forall Geometry.raRange (fst cols))
    (Stackers.seededRuns (Stackers.tapeSeed Stackers.tapeShort) Stackers.tapeRand).
Proof.
  apply (@X16_random_runs_keep_rows (list Q) (Stackers.tapeSeed Stackers.tapeShort)
           Stackers.tapeRand Stackers.twoFields).
  reflexivity.
Defined.

(** ** What the uniform generator leaves in the object *)

Module StateFacts.

Import Geometry Stackers.

Lemma generate_length (maxD : R) (n : nat) (u v : list Q) (o : list R * list R) :
  RandomGen.generateRandomOffsets maxD n u v = Some o ->
  length (fst o) = n /\ length (snd o) = n.
Proof.
  unfold RandomGen.generateRandomOffsets.
  destruct (length _ <? n)%nat eqn:E; [discriminate|].
  apply Nat.ltb_ge in E. intros H. inversion H; subst; clear H. cbn [fst snd].
  unfold Np.take, slice. rewrite !length_map, Nat.sub_0_r. cbn [skipn].
  rewrite length_firstn. split; lia.
Qed.

Section Generator.

Variable G : Type.
Variable seed : Z -> G.
Variable rand : G -> nat -> list Q * G.

(** The two draws of [_generateRandomOffsets(n)] from the state [g]. *)
Local Abbreviation draw1 g n := (rand g (n * 2)).
Local Abbreviation draw2 g n := (rand (snd (rand g (n * 2))) (n * 2)).

Lemma genRandom_short (self : RandomStacker) (g : G) (n : nat) :
  RandomGen.generateRandomOffsets (maxDither self) n
    (fst (draw1 g n)) (fst (draw2 g n)) = None ->
  genRandom rand self g n = (self, snd (draw2 g n)).
Proof.
  unfold genRandom. destruct (rand g (n * 2)) as [u g1]. cbn [fst snd].
  destruct (rand g1 (n * 2)) as [v g2]. cbn [fst snd]. now intros ->.
Qed.

Lemma genRandom_enough (self : RandomStacker) (g : G) (n : nat) o :
  RandomGen.generateRandomOffsets (maxDither self) n
    (fst (draw1 g n)) (fst (draw2 g n)) = Some o ->
  genRandom rand self g n = (setOffsets self o, snd (draw2 g n)).
Proof.
  unfold genRandom. destruct (rand g (n * 2)) as [u g1]. cbn [fst snd].
  destruct (rand g1 (n * 2)) as [v g2]. cbn [fst snd]. now intros ->.
Qed.

Lemma uniformRun_new_short count k (self : RandomStacker) (g : G) (d : SimData) :
  (forall s, offsets s = None -> k s d = Raise AttributeError) ->
  offsets self = None ->
  RandomGen.generateRandomOffsets (maxDither self) (count d)
    (fst (draw1 (reseed seed self g) (count d)))
    (fst (draw2 (reseed seed self g) (count d))) = None ->
  uniformRun seed rand count k self g d
  = (Raise AttributeError, self, snd (draw2 (reseed seed self g) (count d))).
Proof.
  intros Hk Hnew Hshort. unfold uniformRun.
  rewrite (@genRandom_short self (reseed seed self g) (count d) Hshort). now rewrite Hk.
Qed.

End Generator.

Lemma perVisit_unset (s : RandomStacker) (d : SimData) :
  offsets s = None -> perVisit s d = Raise AttributeError.
Proof. intros H. unfold perVisit, getOffsets. now rewrite H. Qed.

Lemma fieldPerNight_unset (s : RandomStacker) (d : SimData) :
  offsets s = None -> fieldPerNight s d = Raise AttributeError.
Proof. intros H. unfold fieldPerNight, getOffsets. now rewrite H. Qed.

Lemma perNight_unset (s : RandomStacker) (d : SimData) :
  offsets s = None -> perNight s d = Raise AttributeError.
Proof. intros H. unfold perNight, getOffsets. now rewrite H. Qed.

End StateFacts.

(** X17. [_generateRandomOffsets(n)] makes its two draws of [2 n] numbers
    whatever the yield and never touches [maxDither] or [randomSeed].  With
    too few points inside the hexagon it leaves the object as it was, stored
    offsets included; otherwise it stores two sequences of exactly [n]
    offsets. *)
Theorem X17_uniform_generator_state (G : Type) (rand : G -> nat -> list Q * G)
    (self : Stackers.RandomStacker) (g : G) (n : nat) :
  let r1 := rand g (n * 2)%nat in
  let r2 := rand (snd r1) (n * 2)%nat in
  let self' := fst (Stackers.genRandom rand self g n) in
  snd (Stackers.genRandom rand self g n) = snd r2 /\
  Stackers.maxDither self' = Stackers.maxDither self /\
  Stackers.randomSeed self' = Stackers.randomSeed self /\
  match RandomGen.generateRandomOffsets (Stackers.maxDither self) n (fst r1) (fst r2) with
  | None => self' = self
  | Some o => Stackers.offsets self' = Some o /\
              length (fst o) = n /\ length (snd o) = n
  end.
Proof.
  cbv zeta.
  destruct (RandomGen.generateRandomOffsets (Stackers.maxDither self) n
              (fst (rand g (n * 2)%nat))
              (fst (rand (snd (rand g (n * 2)%nat)) (n * 2)%nat))) as [o|] eqn:E.
  - rewrite (@StateFacts.genRandom_enough G rand self g n o E). cbn [fst snd].
    repeat split; try reflexivity; apply (@StateFacts.generate_length _ _ _ _ _ E).
  - rewrite (@StateFacts.genRandom_short G rand self g n E). cbn [fst snd].
    repeat split.
Qed.

(** X18. On an object whose offsets were never set, a run of any of the three
    uniform stackers in which too few points fall inside the hexagon ends in
    an [AttributeError], after the seed was applied and both draws were
    made, and leaves the object unchanged. *)
Theorem X18_short_yield_on_new_object (G : Type) (seed : Z -> G)
    (rand : G -> nat -> list Q * G)
    (self : Stackers.RandomStacker) (g : G) (d : Stackers.SimData) :
  Stackers.offsets self = None ->
  Forall (fun rc : (Stackers.RandomStacker -> G -> Stackers.SimData -> Stackers.outcome G)
                   * nat =>
            let g0 := Stackers.reseed seed self g in
            let r1 := rand g0 (snd rc * 2)%nat in
            let r2 := rand (snd r1) (snd rc * 2)%nat in
            RandomGen.generateRandomOffsets (Stackers.maxDither self) (snd rc)
              (fst r1) (fst r2) = None ->
            fst rc self g d = (Raise AttributeError, self, snd r2))
    [(Stackers.RandomDitherFieldPerVisit_run seed rand, length (Stackers.raCol d));
     (Stackers.RandomDitherFieldPerNight_run seed rand, length (Stackers.raCol d));
     (Stackers.RandomDitherPerNight_run seed rand,
      length (Np.unique (Stackers.nightCol d)))].
Proof.
  intros Hnew.
  repeat match goal with
         | |- Forall _ (_ :: _) => apply Forall_cons
         | |- Forall _ [] => apply Forall_nil
         end; cbv zeta; cbn [fst snd]; intros Hshort.
  - refine (@StateFacts.uniformRun_new_short G seed rand
              (fun d => length (Stackers.raCol d)) (@Stackers.perVisit)
              self g d _ Hnew Hshort).
    intros s. apply StateFacts.perVisit_unset.
  - refine (@StateFacts.uniformRun_new_short G seed rand
              (fun d => length (Stackers.raCol d)) (@Stackers.fieldPerNight)
              self g d _ Hnew Hshort).
    intros s. apply StateFacts.fieldPerNight_unset.
  - refine (@StateFacts.uniformRun_new_short G seed rand
              (fun d => length (Np.unique (Stackers.nightCol d))) (@Stackers.perNight)
              self g d _ Hnew Hshort).
    intros s. apply StateFacts.perNight_unset.
Qed.

Lemma X18_witness :
  Stackers.RandomDitherFieldPerVisit_run
    (Stackers.tapeSeed Stackers.tapeShort) Stackers.tapeRand
    (Stackers.newStacker 1 (Some 7%Z)) [] Stackers.twoFields
  = (Raise AttributeError, Stackers.newStacker 1 (Some 7%Z), []).
Proof.
  pose proof (@X18_short_yield_on_new_object (list Q)
                (Stackers.tapeSeed Stackers.tapeShort) Stackers.tapeRand
                (Stackers.newStacker 1 (Some 7%Z)) [] Stackers.twoFields eq_refl) as H.
  apply Forall_inv in H. apply H.
  apply (@RunFacts.random_short 1%R). exact Rlt_0_1.
Defined.

(** ** The hexagon and the two random generators *)

(** X19. Every offset that the uniform generator stores passed the hexagon
    test: it stores exactly [noffsets] points, each inside the six strict
    half planes. *)
Theorem X19_uniform_offsets_inside_hexagon (maxD : R) (noffsets : nat)
    (u v : list Q) (xOff yOff : list R) :
  RandomGen.generateRandomOffsets maxD noffsets u v = Some (xOff, yOff) ->
  length xOff = noffsets /\ length yOff = noffsets /\
  Forall (fun p => Geometry.insideHex maxD (fst p) (snd p)) (combine xOff yOff).
Proof. apply HexagonFacts.generateRandomOffsets_inside. Qed.

Lemma X19_witness :
  Forall (fun p => Geometry.insideHex 1 (fst p) (snd p))
         (combine [(0.5 * 1)%R] [0%R]).
Proof.
  apply (@X19_uniform_offsets_inside_hexagon 1 1 [1 # 4; 1 # 4]%Q [0; 0]%Q
           [(0.5 * 1)%R] [0%R]).
  apply BatchFacts.random_half. exact Rlt_0_1.
Defined.

(** X20. In the repulsive generator the hexagon test is made on tile
    centres: for a positive [maxDither] every centre kept in the pool
    satisfies the six constraints, not strictly, and a point drawn with
    draws in [[0, 1)] is at most half a tile side away, in each coordinate,
    from the centre it is drawn around. *)
Theorem X20_pool_centres_in_closed_hexagon (maxD : R) (noffsets : nat) :
  (0 < maxD)%R ->
  (forall x y,
      In (x, y) (combine (fst (RepRandom.pool noffsets)) (snd (RepRandom.pool noffsets))) ->
      Geometry.insideHexClosed maxD
        (IZR x * (RepRandom.tileSide maxD noffsets / 2))
        (IZR y * (RepRandom.tileSide maxD noffsets / 2))) /\
  (forall (c : Z) (u : Q),
      (0 <= Q2R u < 1)%R ->
      (Rabs (RepRandom.offset maxD noffsets c u
             - IZR c * (RepRandom.tileSide maxD noffsets / 2))
       <= RepRandom.tileSide maxD noffsets / 2)%R).
Proof.
  intros HmaxD. split.
  - intros x y Hin. rewrite RepFacts.tileSide_half.
    apply (@HexagonFacts.insideHexTile_closed maxD (RepRandom.side noffsets) x y
             HmaxD (RepFacts.side_pos noffsets)).
    now apply RepFacts.pool_inside.
  - intros c u Hu. now apply RepFacts.offset_near_centre.
Qed.

Lemma X20_witness :
  Geometry.insideHexClosed (1.75 * PI / 180)
    (82 * (RepRandom.tileSide (1.75 * PI / 180) 1 / 2))
    (-148 * (RepRandom.tileSide (1.75 * PI / 180) 1 / 2)).
Proof.
  assert (Hm : (0 < 1.75 * PI / 180)%R) by (pose proof PI_RGT_0; lra).
  destruct (X20_pool_centres_in_closed_hexagon 1 Hm) as (Hp & _).
  apply (Hp 82%Z (-148)%Z).
  apply (@RepFacts.generateTiles_first 1 [19000 # 19001; 0; 0]%Q [0; 0]%Q
           (RepRandom.Point 82 (-148) 0 0) []).
  vm_compute. reflexivity.
Defined.

(** ** Seeded runs and the state of the object *)

Module SeedFacts.

Import Stackers.

Lemma perVisit_offsets (s1 s2 : RandomStacker) (d : SimData) :
  offsets s1 = offsets s2 -> perVisit s1 d = perVisit s2 d.
Proof. intros H. unfold perVisit, getOffsets. now rewrite H. Qed.

Lemma fieldPerNight_offsets (s1 s2 : RandomStacker) (d : SimData) :
  offsets s1 = offsets s2 -> fieldPerNight s1 d = fieldPerNight s2 d.
Proof. intros H. unfold fieldPerNight, getOffsets. now rewrite H. Qed.

Lemma perNight_offsets (s1 s2 : RandomStacker) (d : SimData) :
  offsets s1 = offsets s2 -> perNight s1 d = perNight s2 d.
Proof. intros H. unfold perNight, getOffsets. now rewrite H. Qed.

Section Seeded.

Variable G : Type.
Variable seed : Z -> G.
Variable rand : G -> nat -> list Q * G.

(** What two runs have in common: the columns or the error, and the state
    the generator is left in. *)
Local Abbreviation same_outcome o1 o2 := (fst (fst o1) = fst (fst o2) /\ snd o1 = snd o2).

Lemma repulsiveRun_state_free count k (self1 self2 : RandomStacker) (s : Z)
    (g1 g2 : G) (d : SimData) :
  (forall s1 s2, offsets s1 = offsets s2 -> k s1 d = k s2 d) ->
  randomSeed self1 = Some s -> randomSeed self2 = Some s ->
  maxDither self1 = maxDither self2 ->
  same_outcome (repulsiveRun seed rand count k self1 g1 d)
               (repulsiveRun seed rand count k self2 g2 d).
Proof.
  intros Hk H1 H2 Hm. unfold repulsiveRun, reseed, genRepRandom.
  rewrite H1, H2, Hm.
  destruct (length (fst (RepRandom.pool (count d))) <? count d)%nat;
    [split; reflexivity|].
  destruct (rand (seed s) (count d * 3)) as [sq g]. destruct (rand g (count d * 2)) as [pt g'].
  destruct (RepRandom.generateRepRandomOffsets (maxDither self2) (count d) sq pt);
    cbn [afterRep bind fst snd]; split; try reflexivity.
  apply Hk. reflexivity.
Qed.

Lemma uniformRun_state_free count k (self1 self2 : RandomStacker) (s : Z)
    (g1 g2 : G) (d : SimData) :
  (forall s1 s2, offsets s1 = offsets s2 -> k s1 d = k s2 d) ->
  randomSeed self1 = Some s -> randomSeed self2 = Some s ->
  maxDither self1 = maxDither self2 ->
  RandomGen.generateRandomOffsets (maxDither self1) (count d)
    (fst (rand (seed s) (count d * 2)))
    (fst (rand (snd (rand (seed s) (count d * 2))) (count d * 2))) <> None ->
  same_outcome (uniformRun seed rand count k self1 g1 d)
               (uniformRun seed rand count k self2 g2 d).
Proof.
  intros Hk H1 H2 Hm Hyield. unfold uniformRun, reseed, genRandom.
  rewrite H1, H2, <- Hm.
  destruct (rand (seed s) (count d * 2)) as [u g]. cbn [fst snd] in Hyield.
  destruct (rand g (count d * 2)) as [v g']. cbn [fst snd] in Hyield.
  destruct (RandomGen.generateRandomOffsets (maxDither self1) (count d) u v);
    [|congruence].
  cbn [fst snd]. split; [|reflexivity]. apply Hk. reflexivity.
Qed.

End Seeded.

End SeedFacts.

(** X21. With a seed set, a run of a repulsive stacker is a function of the
    seed, of [maxDither] and of the batch: two objects with the same seed
    and [maxDither] give the same columns (or the same error) and leave the
    generator in the same state, whatever offsets the objects hold and
    whatever the state of the generator at entry.  The same holds of a
    uniform stacker in the runs in which enough points fall inside the
    hexagon. *)
Theorem X21_seeded_runs_and_object_state (G : Type) (seed : Z -> G)
    (rand : G -> nat -> list Q * G)
    (self1 self2 : Stackers.RandomStacker) (s : Z) (g1 g2 : G) (d : Stackers.SimData) :
  Stackers.randomSeed self1 = Some s -> Stackers.randomSeed self2 = Some s ->
  Stackers.maxDither self1 = Stackers.maxDither self2 ->
  Forall (fun run : Stackers.RandomStacker -> G -> Stackers.SimData -> Stackers.outcome G =>
            fst (fst (run self1 g1 d)) = fst (fst (run self2 g2 d)) /\
            snd (run self1 g1 d) = snd (run self2 g2 d))
    [Stackers.RepulsiveRandomDitherFieldPerVisit_run seed rand;
     Stackers.RepulsiveRandomDitherFieldPerNight_run seed rand;
     Stackers.RepulsiveRandomDitherPerNight_run seed rand] /\
  Forall (fun rc : (Stackers.RandomStacker -> G -> Stackers.SimData -> Stackers.outcome G)
                   * nat =>
            let r1 := rand (seed s) (snd rc * 2)%nat in
            let r2 := rand (snd r1) (snd rc * 2)%nat in
            RandomGen.generateRandomOffsets (Stackers.maxDither self1) (snd rc)
              (fst r1) (fst r2) <> None ->
            fst (fst (fst rc self1 g1 d)) = fst (fst (fst rc self2 g2 d)) /\
            snd (fst rc self1 g1 d) = snd (fst rc self2 g2 d))
    [(Stackers.RandomDitherFieldPerVisit_run seed rand, length (Stackers.raCol d));
     (Stackers.RandomDitherFieldPerNight_run seed rand, length (Stackers.raCol d));
     (Stackers.RandomDitherPerNight_run seed rand,
      length (Np.unique (Stackers.nightCol d)))].
Proof.
  intros H1 H2 Hm. split.
  - repeat match goal with
           | |- Forall _ (_ :: _) => apply Forall_cons
           | |- Forall _ [] => apply Forall_nil
           end.
    + exact (@SeedFacts.repulsiveRun_state_free G seed rand
               (fun d => length (Stackers.raCol d)) (@Stackers.perVisit)
               self1 self2 s g1 g2 d
               (fun s1 s2 => @SeedFacts.perVisit_offsets s1 s2 d) H1 H2 Hm).
    + exact (@SeedFacts.repulsiveRun_state_free G seed rand
               (fun d => length (Stackers.raCol d)) (@Stackers.fieldPerNight)
               self1 self2 s g1 g2 d
               (fun s1 s2 => @SeedFacts.fieldPerNight_offsets s1 s2 d) H1 H2 Hm).
    + exact (@SeedFacts.repulsiveRun_state_free G seed rand
               (fun d => length (Np.unique (Stackers.nightCol d))) (@Stackers.perNight)
               self1 self2 s g1 g2 d
               (fun s1 s2 => @SeedFacts.perNight_offsets s1 s2 d) H1 H2 Hm).
  - repeat match goal with
           | |- Forall _ (_ :: _) => apply Forall_cons
           | |- Forall _ [] => apply Forall_nil
           end; cbv zeta; cbn [fst snd]; intros Hyield.
    + exact (@SeedFacts.uniformRun_state_free G seed rand
               (fun d => length (Stackers.raCol d)) (@Stackers.perVisit)
               self1 self2 s g1 g2 d
               (fun s1 s2 => @SeedFacts.perVisit_offsets s1 s2 d) H1 H2 Hm Hyield).
    + exact (@SeedFacts.uniformRun_state_free G seed rand
               (fun d => length (Stackers.raCol d)) (@Stackers.fieldPerNight)
               self1 self2 s g1 g2 d
               (fun s1 s2 => @SeedFacts.fieldPerNight_offsets s1 s2 d) H1 H2 Hm Hyield).
    + exact (@SeedFacts.uniformRun_state_free G seed rand
               (fun d => length (Np.unique (Stackers.nightCol d))) (@Stackers.perNight)
               self1 self2 s g1 g2 d
               (fun s1 s2 => @SeedFacts.perNight_offsets s1 s2 d) H1 H2 Hm Hyield).
Qed.

Lemma X21_witness :
  fst (fst (Stackers.RandomDitherFieldPerVisit_run
              (Stackers.tapeSeed Stackers.tapeSeeded) Stackers.tapeRand
              (Stackers.newStacker 1 (Some 7%Z)) [] Stackers.single))
  = fst (fst (Stackers.RandomDitherFieldPerVisit_run
                (Stackers.tapeSeed Stackers.tapeSeeded) Stackers.tapeRand
                (Stackers.setOffsets (Stackers.newStacker 1 (Some 7%Z)) ([5%R], [5%R]))
                [1 # 2]%Q Stackers.single)).
Proof.
  destruct (@X21_seeded_runs_and_object_state (list Q)
              (Stackers.tapeSeed Stackers.tapeSeeded) Stackers.tapeRand
              (Stackers.newStacker 1 (Some 7%Z))
              (Stackers.setOffsets (Stackers.newStacker 1 (Some 7%Z)) ([5%R], [5%R]))
              7%Z [] [1 # 2]%Q Stackers.single eq_refl eq_refl eq_refl) as [_ H].
  apply Forall_inv in H. apply H.
  cbn [snd Stackers.single Stackers.raCol length Stackers.newStacker Stackers.maxDither].
  unfold Stackers.tapeSeed.
  change (Stackers.tapeRand Stackers.tapeSeeded (1 * 2))
    with ([0; 81 # 100]%Q, [81 # 100; 81 # 100; 0; 1 # 4; 1 # 4; 1 # 4]%Q).
  cbn [fst snd].
  change (Stackers.tapeRand [81 # 100; 81 # 100; 0; 1 # 4; 1 # 4; 1 # 4]%Q (1 * 2))
    with ([81 # 100; 81 # 100]%Q, [0; 1 # 4; 1 # 4; 1 # 4]%Q).
  cbn [fst snd].
  rewrite (BatchFacts.random_centre_first _ _ _ Rlt_0_1). discriminate.
Defined.

(** X22. The loop over the nights or seasons of the whole batch takes its
    vertex with [vertexID % n] on Python integers: with an empty offset
    sequence ([n = 0]) and at least one record it stops in its first turn
    with a [ZeroDivisionError]; on a batch without records it does nothing. *)
Theorem X22_key_loop_without_offsets (keyCol : list Z) (n : nat) :
  (keyCol <> [] -> Assign.perKey keyCol 0 = Raise ZeroDivision) /\
  Assign.perKey [] n = Ok [].
Proof.
  split; [|reflexivity].
  intros Hne. unfold Assign.perKey.
  pose proof (NpFacts.unique_nonempty Hne) as Hu.
  destruct (Np.unique keyCol) as [|k ks]; [congruence|]. reflexivity.
Qed.

Lemma X22_witness : Assign.perKey [3; 1; 3]%Z 0 = Raise ZeroDivision.
Proof. apply (proj1 (X22_key_loop_without_offsets [3; 1; 3]%Z 0)). discriminate. Defined.
